(** * oslocfg: the sample-configuration generator ([oslocfg/generator.py])

    A shallow embedding of the generator's aggregation and formatting
    pipeline, and the properties of it that the specification states.

    Conventions of the embedding.
    - The package targets Python 2.7: a [str] is a byte string, modelled by
      [string]; comparison is byte-wise lexicographic ([String.leb]),
      [lower] and [strip] act on the ASCII letters and the ASCII white space.
    - Python objects that the code shares and mutates (the option objects a
      namespace hands out, module-level variables) live in a [World]; options
      travel through the pipeline as references into it.
    - A Python function that may raise returns a [Result]; code that also
      reads or writes the process state runs in the monad [M].
    - What the interpreter and its standard library provide ([textwrap.wrap],
      [str.splitlines], [repr], the import system) is a parameter, gathered
      in [Runtime]. *)

From Stdlib Require Import ZArith Ascii String List Sorted Permutation Lia OrdersEx.
From stdpp Require Import base option list gmap sets strings pretty sorting.

Local Open Scope string_scope.
Local Open Scope list_scope.

Set Warnings "-clear-no-such-hyp".

(** ** Byte strings *)

Module Str.

Definition colon : ascii := ":"%char.
Definition dot : ascii := "."%char.

(** [s.split(sep)] for a one-character separator. *)
Fixpoint split (sep : ascii) (s : string) : list string :=
  match s with
  | EmptyString => [EmptyString]
  | String c r =>
      if Ascii.eqb c sep then EmptyString :: split sep r
      else match split sep r with
           | h :: t => String c h :: t
           | [] => [String c EmptyString]
           end
  end.

(** [s.rpartition(sep)]: the text before and after the last [sep];
    [None] when [sep] does not occur (Python then answers ('', '', s)). *)
Fixpoint rpartition (sep : ascii) (s : string) : option (string * string) :=
  match s with
  | EmptyString => None
  | String c r =>
      match rpartition sep r with
      | Some (h, t) => Some (String c h, t)
      | None => if Ascii.eqb c sep then Some (EmptyString, r) else None
      end
  end.

Definition is_upper (c : ascii) : bool :=
  let n := nat_of_ascii c in Nat.leb 65 n && Nat.leb n 90.

Definition lower_char (c : ascii) : ascii :=
  if is_upper c then ascii_of_nat (nat_of_ascii c + 32) else c.

(** [s.lower()] *)
Fixpoint lower (s : string) : string :=
  match s with
  | EmptyString => EmptyString
  | String c r => String (lower_char c) (lower r)
  end.

(** The characters [str.strip()] removes: space, \t, \n, \v, \f, \r. *)
Definition is_space (c : ascii) : bool :=
  let n := nat_of_ascii c in Nat.eqb n 32 || (Nat.leb 9 n && Nat.leb n 13).

Fixpoint lstrip (s : string) : string :=
  match s with
  | EmptyString => EmptyString
  | String c r => if is_space c then lstrip r else s
  end.

Fixpoint rstrip (s : string) : string :=
  match s with
  | EmptyString => EmptyString
  | String c r =>
      match rstrip r with
      | EmptyString => if is_space c then EmptyString else String c EmptyString
      | r' => String c r'
      end
  end.

(** [s.strip()] *)
Definition strip (s : string) : string := rstrip (lstrip s).

(** [sep.join(l)] *)
Definition join (sep : string) (l : list string) : string := String.concat sep l.

(** Truth value of a string: non-empty. *)
Definition truthy (s : string) : bool :=
  match s with EmptyString => false | _ => true end.

Definition first_char (s : string) : option ascii :=
  match s with EmptyString => None | String c _ => Some c end.

Fixpoint last_char (s : string) : option ascii :=
  match s with
  | EmptyString => None
  | String c EmptyString => Some c
  | String _ r => last_char r
  end.

(** Byte-wise order of two strings, [a <= b] in Python. *)
Definition le (a b : string) : Prop := String.leb a b = true.

End Str.

(** ** Python values that an option carries as default *)

(** A dict is keyed by strings and kept in insertion order; [VObj] is any
    other object that is neither iterable nor a string and that counts as
    true in a test (an instance of a class without [__nonzero__] and
    [__len__]), carried with the name of its class and the text [str()]
    gives for it. *)
#[warnings="-register-all"]
Inductive PyVal :=
| VNone
| VBool (b : bool)
| VInt (z : Z)
| VStr (s : string)
| VList (l : list PyVal)
| VDict (items : list (string * PyVal))
| VObj (cls : string) (text : string).

Definition py_truthy (v : PyVal) : bool :=
  match v with
  | VNone => false
  | VBool b => b
  | VInt z => negb (Z.eqb z 0)
  | VStr s => Str.truthy s
  | VList l => match l with [] => false | _ => true end
  | VDict d => match d with [] => false | _ => true end
  | VObj _ _ => true
  end.

Definition is_none (v : PyVal) : bool :=
  match v with VNone => true | _ => false end.

(** ** Exceptions and results *)

Inductive ExcClass :=
| AttributeError | TypeError | ValueError | ImportError | KeyError
| RuntimeError | OtherException (name : string).

Global Instance ExcClass_eq_dec : EqDecision ExcClass.
Proof. solve_decision. Defined.

(** An instance of [Exception]; [exc_text] is what [str(err)] gives. *)
Record Exc := mkExc { exc_class : ExcClass; exc_text : string }.

Inductive Result (A : Type) :=
| Ok (a : A)
| Raise (e : Exc).
Arguments Ok {A} a.
Arguments Raise {A} e.

Definition is_ok {A} (r : Result A) : bool :=
  match r with Ok _ => true | Raise _ => false end.

Global Instance Result_ret : MRet Result := fun A a => Ok a.
Global Instance Result_bind : MBind Result := fun A B f r =>
  match r with
  | Ok a => f a
  | Raise e => Raise e
  end.

Fixpoint map_result {A B} (f : A -> Result B) (l : list A) : Result (list B) :=
  match l with
  | [] => Ok []
  | x :: r => y ← f x; ys ← map_result f r; Ok (y :: ys)
  end.

(** [str(v)]; [repr_container] is the interpreter's text for a list or a
    dict. *)
Definition py_str (repr_container : PyVal -> string) (v : PyVal) : string :=
  match v with
  | VNone => "None"
  | VBool true => "True"
  | VBool false => "False"
  | VInt z => pretty z
  | VStr s => s
  | VList _ | VDict _ => repr_container v
  | VObj _ t => t
  end.

(** ** The option model of [oslocfg.cfg] *)

(** Modelled from the spec: the option classes of [cfg] that the generator
    tests with [isinstance] (the module [cfg] itself is not part of the
    sources at hand). Each is a direct subclass of [cfg.Opt]; [ForeignOpt]
    is an option-like object of a class that is none of them. *)
Inductive OptClass :=
| StrOpt | BoolOpt | IntOpt | FloatOpt | PortOpt | ListOpt | DictOpt
| IPOpt | HostnameOpt | MultiStrOpt | ConfigFileOpt | ConfigDirOpt
| ForeignOpt (class_name : string).

Global Instance OptClass_eq_dec : EqDecision OptClass.
Proof. solve_decision. Defined.

(** [isinstance(opt, cls)] for the classes above. *)
Definition isinstance (c cls : OptClass) : bool := bool_decide (c = cls).

(** Modelled from the spec: the type descriptor of an option, read by the
    formatter through [getattr]: every capability may be absent. *)
Record OptType := mkOptType {
  type_name : option string;
  type_min : option Z;
  type_max : option Z;
  (** a choice is [None] or a text *)
  type_choices : list (option string);
  (** [format_defaults(default, sample_default)], when the type has it *)
  type_format_defaults : option (PyVal -> PyVal -> Result (list string))
}.

(** Modelled from the spec: a deprecated alias of an option, an optional
    group and an optional name. *)
Record DeprecatedOpt := mkDeprecatedOpt {
  d_group : option string;
  d_name : option string
}.

(** Modelled from the spec: the attributes of an option object. [opt_type]
    and [opt_mutable] are [None] when the object has no such attribute (an
    option of a foreign class). *)
Record Opt := mkOpt {
  opt_class : OptClass;
  opt_dest : string;
  opt_name : string;
  opt_help : option string;
  opt_default : PyVal;
  opt_sample_default : PyVal;
  opt_type : option OptType;
  opt_mutable : option bool;
  opt_deprecated_opts : list DeprecatedOpt;
  opt_deprecated_for_removal : bool;
  opt_deprecated_reason : option string
}.

(** Modelled from the spec: [cfg.OptGroup]. [og_id] is the identity of the
    object: two groups are the same dict key exactly when they are the same
    object. *)
Record OptGroup := mkOptGroup {
  og_id : nat;
  og_name : string;
  og_help : option string
}.

Global Instance OptGroup_eq_dec : EqDecision OptGroup.
Proof. solve_decision. Defined.

(** The group of a listing entry: [None], a plain name or a group object. *)
Inductive Group :=
| GNone
| GName (name : string)
| GObj (g : OptGroup).

Global Instance Group_eq_dec : EqDecision Group.
Proof. solve_decision. Defined.

(** ** The process state *)

(** A reference to an option object. *)
Definition Ref := nat.

Record World := mkWorld {
  (** module-level variables *)
  w_vars : gmap string PyVal;
  (** the attributes of every option object, by reference *)
  w_objs : Ref -> Opt
}.

(** The two places that invoke an imported callable. *)
Inductive Role := Loader | Updater.

Global Instance Role_eq_dec : EqDecision Role.
Proof. solve_decision. Defined.

(** What a run does, in order: the group objects it constructs and the
    imported callables it invokes. *)
Inductive Event :=
| EvNewGroup (name : string)
| EvCall (role : Role) (locator : string).

Global Instance Event_eq_dec : EqDecision Event.
Proof. solve_decision. Defined.

(** Diagnostics: the records sent to [LOG] and to [warnings.warn]. *)
Inductive Diag :=
| LogMissingHelp (dest : string)
| LogUnknownType (dest : string)
| LogBestEffort (name : string)
| WarnIncompatibleClass (dest : string)
| WarnNotFullyFormatted (dest : string).

(** Where the formatter writes. *)
Inductive Sink :=
| Stdout
| File (path : string).

Record Proc := mkProc {
  world : World;
  (** number of [OptGroup] objects constructed so far *)
  groups_made : nat;
  trace : list Event;
  diags : list Diag;
  stdout : list string;
  files : gmap string (list string)
}.

Definition set_world (w : World) (p : Proc) : Proc :=
  mkProc w (groups_made p) (trace p) (diags p) (stdout p) (files p).
Definition add_event (e : Event) (p : Proc) : Proc :=
  mkProc (world p) (groups_made p) (trace p ++ [e]) (diags p) (stdout p) (files p).
Definition add_diags (d : list Diag) (p : Proc) : Proc :=
  mkProc (world p) (groups_made p) (trace p) (diags p ++ d) (stdout p) (files p).

(** What has been written to a sink, chunk by chunk. *)
Definition written (k : Sink) (p : Proc) : list string :=
  match k with
  | Stdout => stdout p
  | File path => default [] (files p !! path)
  end.

Definition add_written (k : Sink) (l : list string) (p : Proc) : Proc :=
  match k with
  | Stdout =>
      mkProc (world p) (groups_made p) (trace p) (diags p) (stdout p ++ l) (files p)
  | File path =>
      mkProc (world p) (groups_made p) (trace p) (diags p) (stdout p)
             (<[path := default [] (files p !! path) ++ l]> (files p))
  end.

(** ** The monad of the generator: state and exceptions *)

Definition M (A : Type) : Type := Proc -> Result A * Proc.

Global Instance M_ret : MRet M := fun A a p => (Ok a, p).
Global Instance M_bind : MBind M := fun A B f m p =>
  match m p with
  | (Ok a, p') => f a p'
  | (Raise e, p') => (Raise e, p')
  end.

Definition raise {A} (e : Exc) : M A := fun p => (Raise e, p).

Definition lift {A} (r : Result A) : M A := fun p => (r, p).

(** [try: body except Exception as err: handler(err)] *)
Definition try_except {A} (body : M A) (handler : Exc -> M A) : M A := fun p =>
  match body p with
  | (Ok a, p') => (Ok a, p')
  | (Raise e, p') => handler e p'
  end.

(** [for x in l: body(x)] *)
Fixpoint for_each {A} (l : list A) (body : A -> M unit) : M unit :=
  match l with
  | [] => mret tt
  | x :: r => body x;; for_each r body
  end.

(** A loop that carries a local variable. *)
Fixpoint for_fold {A S} (l : list A) (s : S) (body : S -> A -> M S) : M S :=
  match l with
  | [] => mret s
  | x :: r => s' ← body s x; for_fold r s' body
  end.

Definition log (d : Diag) : M unit := fun p => (Ok tt, add_diags [d] p).

Definition get_world : M World := fun p => (Ok (world p), p).

(** ** Imported callables and the interpreter's services *)

(** A zero-argument callable found by the import system. Called, it may
    change the world, and returns a list of option objects (the return
    value of an update hook is not looked at) or raises. *)
Record PyFunc := mkPyFunc {
  fn_locator : string;
  fn_body : World -> Result (list Ref) * World
}.

Record Runtime := mkRuntime {
  (** the modules that can be imported, under their dotted paths, and
      their attributes *)
  rt_modules : gmap string (gmap string (World -> Result (list Ref) * World));
  (** [textwrap.wrap(line, width, initial_indent='# ',
      subsequent_indent='# ', break_long_words=False,
      replace_whitespace=False)] *)
  rt_wrap : string -> Z -> list string;
  (** [text.splitlines()] *)
  rt_splitlines : string -> list string;
  (** [repr] of a list, of a dict or of a string *)
  rt_repr : PyVal -> string;
  (** the text of [traceback.format_exception(...)] for a missing
      attribute of a module, as ['%s'] shows it *)
  rt_format_exception : string -> string -> string
}.

(** ** Python built-ins used by the generator *)

Definition nl : string := String (ascii_of_nat 10) EmptyString.
Definition dquote : string := String (ascii_of_nat 34) EmptyString.

(** [sorted(l, key=key)] on string keys: a stable sort. *)
Fixpoint insert_by {A} (key : A -> string) (x : A) (l : list A) : list A :=
  match l with
  | [] => [x]
  | y :: r =>
      if String.leb (key x) (key y) then x :: y :: r
      else y :: insert_by key x r
  end.

Fixpoint py_sorted {A} (key : A -> string) (l : list A) : list A :=
  match l with
  | [] => []
  | x :: r => insert_by key x (py_sorted key r)
  end.

Definition py_type_name (v : PyVal) : string :=
  match v with
  | VNone => "NoneType"
  | VBool _ => "bool"
  | VInt _ => "int"
  | VStr _ => "str"
  | VList _ => "list"
  | VDict _ => "dict"
  | VObj c _ => c
  end.

Definition no_attribute (cls attr : string) : Exc :=
  mkExc AttributeError ("'" +:+ cls +:+ "' object has no attribute '" +:+ attr +:+ "'").

(** [iter(v)], as a [for] loop or [join] consumes it. *)
Definition py_iter (v : PyVal) : Result (list PyVal) :=
  match v with
  | VList l => Ok l
  | VStr s => Ok (map (fun c => VStr (String c EmptyString)) (list_ascii_of_string s))
  | VDict d => Ok (map (fun kv => VStr (fst kv)) d)
  | _ => Raise (mkExc TypeError ("'" +:+ py_type_name v +:+ "' object is not iterable"))
  end.

(** The items of a [join], from the item of index [i] on: every item has
    to be a string. *)
Fixpoint join_items (i : nat) (items : list PyVal) : Result (list string) :=
  match items with
  | [] => Ok []
  | VStr s :: r => strs ← join_items (S i) r; Ok (s :: strs)
  | v :: _ =>
      Raise (mkExc TypeError
               ("sequence item " +:+ pretty i +:+ ": expected string, " +:+
                py_type_name v +:+ " found"))
  end.

(** [sep.join(v)] *)
Definition py_join (sep : string) (v : PyVal) : Result string :=
  items ← py_iter v;
  strs ← join_items 0 items;
  Ok (Str.join sep strs).

(** [v.items()] *)
Definition py_items (v : PyVal) : Result (list (string * PyVal)) :=
  match v with
  | VDict d => Ok d
  | _ => Raise (no_attribute (py_type_name v) "items")
  end.

(** [name, cls = parts]: unpacking into exactly two names. *)
Definition unpack2 (parts : list string) : Result (string * string) :=
  match parts with
  | [a; b] => Ok (a, b)
  | [] | [_] => Raise (mkExc ValueError "need more than 1 value to unpack")
  | _ => Raise (mkExc ValueError "too many values to unpack")
  end.

(** [x or dflt] for an optional text. *)
Definition or_else (x : option string) (dflt : string) : string :=
  match x with
  | Some s => if Str.truthy s then s else dflt
  | None => dflt
  end.

(** Truth value of an optional text. *)
Definition opt_truthy (x : option string) : bool :=
  match x with
  | Some s => Str.truthy s
  | None => false
  end.

(** ** Ordered dictionaries *)

(** [collections.OrderedDict]: the keys in the order of their first
    insertion. The plain dict of [_get_groups] is modelled the same way;
    the driver only reads it through [pop] and [sorted], and the sorted
    list of entries with distinct names does not depend on the order in
    which the dict hands them out. *)
Definition odict (K V : Type) : Type := list (K * V).

Section OrderedDict.
Context {K V : Type} `{EqDecision K}.

(** [k in d] *)
Fixpoint od_mem (k : K) (d : odict K V) : bool :=
  match d with
  | [] => false
  | (k', _) :: r => if decide (k = k') then true else od_mem k r
  end.

(** [d.get(k)] *)
Fixpoint od_get (k : K) (d : odict K V) : option V :=
  match d with
  | [] => None
  | (k', v) :: r => if decide (k = k') then Some v else od_get k r
  end.

(** [d[k] = v]: overwrite in place, or append a new key. *)
Fixpoint od_set (k : K) (v : V) (d : odict K V) : odict K V :=
  match d with
  | [] => [(k, v)]
  | (k', v') :: r =>
      if decide (k = k') then (k', v) :: r else (k', v') :: od_set k v r
  end.

(** A mutation of the object stored under [k]. *)
Fixpoint od_update (k : K) (f : V -> V) (d : odict K V) : odict K V :=
  match d with
  | [] => []
  | (k', v') :: r =>
      if decide (k = k') then (k', f v') :: r else (k', v') :: od_update k f r
  end.

(** [d.pop(k)]: the value and the dict without the key. *)
Fixpoint od_pop (k : K) (d : odict K V) : option (V * odict K V) :=
  match d with
  | [] => None
  | (k', v) :: r =>
      if decide (k = k') then Some (v, r)
      else match od_pop k r with
           | Some (x, r') => Some (x, (k', v) :: r')
           | None => None
           end
  end.

Definition od_keys (d : odict K V) : list K := map fst d.
Definition od_values (d : odict K V) : list V := map snd d.

End OrderedDict.

(** The key of a section in the section view: the text ['DEFAULT'] or
    another plain name, or a group object. *)
Inductive SectionKey :=
| KName (name : string)
| KGroup (g : OptGroup).

Global Instance SectionKey_eq_dec : EqDecision SectionKey.
Proof. solve_decision. Defined.

(** [group or 'DEFAULT'] *)
Definition section_key (group : Group) : SectionKey :=
  match group with
  | GNone => KName "DEFAULT"
  | GName s => if Str.truthy s then KName s else KName "DEFAULT"
  | GObj g => KGroup g
  end.

(** The generator's configuration: [conf.output_file], [conf.wrap_width],
    [conf.opts], [conf.updates]. *)
Record Conf := mkConf {
  conf_output_file : option string;
  conf_wrap_width : option Z;
  conf_opts : list string;
  conf_updates : list string
}.

(** [_OptFormatter] *)
Record Formatter := mkFormatter {
  output_file : Sink;
  wrap_width : option Z
}.

(** A raw listing: [(namespace, [(group, [opt_1, opt_2])])] tuples. *)
Definition Listing : Type := list (string * list (Group * list Ref)).

(** ** The generator *)

Section Generator.
Context (rt : Runtime).

(** [__import__(name)] for a non-empty [name], as far as it can fail. The
    path is imported one component at a time, [prefix] being the part that
    is imported already: a component that cannot be imported gives an
    ImportError that names the rest of the path from that component on, an
    empty component with more behind it a ValueError; an empty component at
    the end is passed over. *)
Fixpoint import_module (prefix : string) (components : list string) : Result unit :=
  match components with
  | [] => Ok tt
  | c :: rest =>
      if Str.truthy c then
        let path := if Str.truthy prefix then prefix +:+ "." +:+ c else c in
        match rt_modules rt !! path with
        | Some _ => import_module path rest
        | None =>
            Raise (mkExc ImportError
                     ("No module named " +:+ Str.join "." (c :: rest)))
        end
      else
        match rest with
        | [] => Ok tt
        | _ => Raise (mkExc ValueError "Empty module name")
        end
  end.

(** [import_class(import_str)] *)
Definition import_class (import_str : string) : Result PyFunc :=
  let '(mod_str, class_str) :=
    match Str.rpartition Str.dot import_str with
    | Some (m, c) => (m, c)
    | None => (EmptyString, import_str)
    end in
  if Str.truthy mod_str then
    _ ← import_module EmptyString (Str.split Str.dot mod_str);
    match rt_modules rt !! mod_str with
    | None => Raise (mkExc KeyError (rt_repr rt (VStr mod_str)))
    | Some attrs =>
        match attrs !! class_str with
        | Some body => Ok (mkPyFunc import_str body)
        | None =>
            Raise (mkExc ImportError
                     ("Class " +:+ class_str +:+ " cannot be found (" +:+
                      rt_format_exception rt mod_str class_str +:+ ")"))
        end
    end
  else Raise (mkExc ValueError "Empty module name").

(** [func()], at one of the two call sites. *)
Definition call (role : Role) (func : PyFunc) : M (list Ref) := fun p =>
  let '(r, w) := fn_body func (world p) in
  (r, set_world w (add_event (EvCall role (fn_locator func)) p)).

(** [cfg.OptGroup(name)]: a new object. *)
Definition new_group (name : string) : M OptGroup := fun p =>
  (Ok (mkOptGroup (groups_made p) name None),
   mkProc (world p) (S (groups_made p)) (trace p ++ [EvNewGroup name])
          (diags p) (stdout p) (files p)).

(** *** [_format_defaults] *)

(** The body of the last loop of [_format_defaults]. *)
Definition quote_padded (default_str : PyVal) : Result string :=
  match default_str with
  | VStr s =>
      if decide (Str.strip s = s) then Ok s
      else Ok (dquote +:+ s +:+ dquote)
  | v => Raise (no_attribute (py_type_name v) "strip")
  end.

Definition _format_defaults (opt : Opt) : M (list string) :=
  let c := opt_class opt in
  let str := py_str (rt_repr rt) in
  defaults ←
    (if isinstance c MultiStrOpt then
       if negb (is_none (opt_sample_default opt)) then
         lift (py_iter (opt_sample_default opt))
       else if negb (py_truthy (opt_default opt)) then
         mret [VStr EmptyString]
       else lift (py_iter (opt_default opt))
     else
       default_str ←
         (if negb (is_none (opt_sample_default opt)) then
            mret (VStr (str (opt_sample_default opt)))
          else if is_none (opt_default opt) then
            mret (VStr "<None>")
          else if isinstance c StrOpt || isinstance c IPOpt
                  || isinstance c HostnameOpt then
            mret (opt_default opt)
          else if isinstance c BoolOpt then
            mret (VStr (Str.lower (str (opt_default opt))))
          else if isinstance c IntOpt || isinstance c FloatOpt
                  || isinstance c PortOpt then
            mret (VStr (str (opt_default opt)))
          else if isinstance c ListOpt || isinstance c ConfigFileOpt
                  || isinstance c ConfigDirOpt then
            s ← lift (py_join "," (opt_default opt)); mret (VStr s)
          else if isinstance c DictOpt then
            items ← lift (py_items (opt_default opt));
            let sorted_items := py_sorted fst items in
            mret (VStr (Str.join ","
                          (map (fun i => fst i +:+ ":" +:+ str (snd i))
                               sorted_items)))
          else
            log (LogUnknownType (opt_dest opt));;
            mret (VStr (str (opt_default opt))));
       mret [default_str]);
  lift (map_result quote_padded defaults).

(** *** [_OptFormatter] *)

Definition write (f : Formatter) (s : string) : M unit := fun p =>
  (Ok tt, add_written (output_file f) [s] p).

Definition writelines (f : Formatter) (l : list string) : M unit := fun p =>
  (Ok tt, add_written (output_file f) l p).

Definition _format_help (f : Formatter) (help_text : string) : list string :=
  match wrap_width f with
  | Some w =>
      if (0 <? w)%Z then
        [fold_left
           (fun wrapped line =>
              let text := Str.join nl (rt_wrap rt line w) in
              wrapped +:+ (if Str.truthy text then text else "#") +:+ nl)
           (rt_splitlines rt help_text) EmptyString]
      else ["# " +:+ help_text +:+ nl]
  | None => ["# " +:+ help_text +:+ nl]
  end.

Definition _get_choice_text (choice : option string) : string :=
  match choice with
  | None => "<None>"
  | Some s => if Str.truthy s then s else "''"
  end.

(** The [lines] that [format_group] makes. *)
Definition format_group_lines (f : Formatter) (group_or_groupname : SectionKey)
    : list string :=
  match group_or_groupname with
  | KGroup group =>
      ["[" +:+ og_name group +:+ "]" +:+ nl]
        ++ (if opt_truthy (og_help group)
            then _format_help f (default EmptyString (og_help group))
            else [])
  | KName groupname => ["[" +:+ groupname +:+ "]" +:+ nl]
  end.

(** [_OptFormatter.format_group] *)
Definition format_group (f : Formatter) (group_or_groupname : SectionKey) : M unit :=
  writelines f (format_group_lines f group_or_groupname).

Definition class_name (c : OptClass) : string :=
  match c with
  | StrOpt => "StrOpt" | BoolOpt => "BoolOpt" | IntOpt => "IntOpt"
  | FloatOpt => "FloatOpt" | PortOpt => "PortOpt" | ListOpt => "ListOpt"
  | DictOpt => "DictOpt" | IPOpt => "IPOpt" | HostnameOpt => "HostnameOpt"
  | MultiStrOpt => "MultiStrOpt" | ConfigFileOpt => "_ConfigFileOpt"
  | ConfigDirOpt => "_ConfigDirOpt" | ForeignOpt n => n
  end.

(** [opt.type] *)
Definition attr_type (opt : Opt) : Result OptType :=
  match opt_type opt with
  | Some ty => Ok ty
  | None => Raise (no_attribute (class_name (opt_class opt)) "type")
  end.

(** [opt.mutable] *)
Definition attr_mutable (opt : Opt) : Result bool :=
  match opt_mutable opt with
  | Some b => Ok b
  | None => Raise (no_attribute (class_name (opt_class opt)) "mutable")
  end.

(** [isinstance(cfg.Opt, opt)]: the second argument is an option object,
    not a class, and the built-in refuses it. *)
Definition isinstance_Opt_of (opt : Opt) : Result bool :=
  Raise (mkExc TypeError
           "isinstance() arg 2 must be a class, type, or tuple of classes and types").

(** [try: body except AttributeError as err: handler(err)] *)
Definition try_except_attribute_error {A} (body : M A) (handler : Exc -> M A) : M A :=
  fun p =>
    match body p with
    | (Ok a, p') => (Ok a, p')
    | (Raise e, p') =>
        if decide (exc_class e = AttributeError) then handler e p'
        else (Raise e, p')
    end.

Definition default_line (dest default_str : string) : string :=
  let default_str :=
    if Str.truthy default_str then " " +:+ default_str else default_str in
  "#" +:+ dest +:+ " =" +:+ default_str +:+ nl.

(** [_OptFormatter.format], up to its last statement: the [lines] it
    makes. *)
Definition format_lines (f : Formatter) (opt : Opt) : M (list string) :=
  (if opt_truthy (opt_help opt) then mret tt
   else log (LogMissingHelp (opt_dest opt)));;
  let option_type := opt_type opt in
  let opt_type_name := default "unknown value" (option_type ≫= type_name) in
  let help_text :=
    if opt_truthy (opt_help opt)
    then default EmptyString (opt_help opt) +:+ " (" +:+ opt_type_name +:+ ")"
    else "(" +:+ opt_type_name +:+ ")" in
  let lines := _format_help f help_text in
  ty ← lift (attr_type opt);
  let lines :=
    match type_min ty with
    | Some m => lines ++ ["# Minimum value: " +:+ pretty m +:+ nl]
    | None => lines
    end in
  let lines :=
    match type_max ty with
    | Some m => lines ++ ["# Maximum value: " +:+ pretty m +:+ nl]
    | None => lines
    end in
  let lines :=
    match type_choices ty with
    | [] => lines
    | choices =>
        lines ++ ["# Allowed values: " +:+
                  Str.join ", " (map _get_choice_text choices) +:+ nl]
    end in
  lines ←
    try_except_attribute_error
      (mutable ← lift (attr_mutable opt);
       mret (if mutable : bool
             then lines ++ ["# Note: This option can be changed without restarting."
                            +:+ nl]
             else lines))
      (fun err =>
         is_opt ← lift (isinstance_Opt_of opt);
         (if negb is_opt then log (WarnIncompatibleClass (opt_dest opt))
          else log (WarnNotFullyFormatted (opt_dest opt)));;
         mret lines);
  let lines :=
    lines ++ map (fun d => "# Deprecated group/name - [" +:+
                           or_else (d_group d) "DEFAULT" +:+ "]/" +:+
                           or_else (d_name d) (opt_dest opt) +:+ nl)
                 (opt_deprecated_opts opt) in
  let lines :=
    if opt_deprecated_for_removal opt then
      let lines :=
        lines ++ ["# This option is deprecated for removal." +:+ nl +:+
                  "# Its value may be silently ignored in the future." +:+ nl] in
      if opt_truthy (opt_deprecated_reason opt)
      then lines ++ _format_help f ("Reason: " +:+
                                    default EmptyString (opt_deprecated_reason opt))
      else lines
    else lines in
  defaults ←
    match type_format_defaults ty with
    | Some format_defaults =>
        lift (format_defaults (opt_default opt) (opt_sample_default opt))
    | None =>
        log (LogBestEffort (opt_name opt));;
        _format_defaults opt
    end;
  let lines := lines ++ map (default_line (opt_dest opt)) defaults in
  mret lines.

(** [_OptFormatter.format] *)
Definition format (f : Formatter) (opt : Opt) : M unit :=
  lines ← format_lines f opt;
  writelines f lines.

(** *** Aggregation *)

(** The three-level dict [clean] of [_cleanup_opts]. *)
Definition Clean : Type := odict string (odict Group (odict string Ref)).

(** [clean[namespace][group][opt.dest] = opt]; [h] gives the attributes
    of an option object. *)
Definition clean_opt (h : Ref -> Opt) (namespace : string) (group : Group)
    (clean : Clean) (opt : Ref) : Clean :=
  od_update namespace (od_update group (od_set (opt_dest (h opt)) opt)) clean.

Definition clean_group (h : Ref -> Opt) (namespace : string)
    (clean : Clean) (entry : Group * list Ref) : Clean :=
  let '(group, opts) := entry in
  let clean :=
    if od_mem group (default [] (od_get namespace clean)) then clean
    else od_update namespace (od_set group []) clean in
  fold_left (clean_opt h namespace group) opts clean.

Definition clean_namespace (h : Ref -> Opt)
    (clean : Clean) (entry : string * list (Group * list Ref)) : Clean :=
  let '(namespace, listing) := entry in
  let clean :=
    if od_mem namespace clean then clean else od_set namespace [] clean in
  fold_left (clean_group h namespace) listing clean.

(** [_cleanup_opts(read_opts)] *)
Definition _cleanup_opts (h : Ref -> Opt) (read_opts : Listing) : Listing :=
  let clean := fold_left (clean_namespace h) read_opts [] in
  map (fun ns => (fst ns, map (fun g => (fst g, od_values (snd g))) (snd ns)))
      clean.

(** The body of the loop of [_get_raw_opts_loaders]; the state is the
    local variables [_map] and [groups]. *)
Definition load_namespace (st : Listing * gmap string OptGroup) (namespace : string)
    : M (Listing * gmap string OptGroup) :=
  let '(_map, groups) := st in
  '(name, cls) ← lift (unpack2 (Str.split Str.colon namespace));
  '(name, group, groups) ←
    (if decide (Str.lower name = "default") then
       mret ("DEFAULT", GNone, groups)
     else
       match groups !! name with
       | Some g => mret (name, GObj g, groups)
       | None =>
           g ← new_group name;
           mret (name, GObj g, <[name := g]> groups)
       end);
  func ← lift (import_class cls);
  opts ← call Loader func;
  mret (_map ++ [(name, [(group, opts)])], groups).

(** [_get_raw_opts_loaders(namespaces)] *)
Definition _get_raw_opts_loaders (namespaces : list string) : M Listing :=
  r ← for_fold namespaces (([] : Listing), (∅ : gmap string OptGroup))
        load_namespace;
  mret (fst r).

(** [_update_defaults(namespaces, updates)] *)
Definition _update_defaults (namespaces updates : list string) : M unit :=
  names ← for_fold namespaces (∅ : gset string)
            (fun names namespace =>
               '(name, cls) ← lift (unpack2 (Str.split Str.colon namespace));
               mret (names ∪ {[name]}));
  for_fold updates names
    (fun names update =>
       '(name, cls) ← lift (unpack2 (Str.split Str.colon update));
       func ← lift (import_class cls);
       if decide (name ∈ names) then
         call Updater func;;
         mret (names ∖ {[name]})
       else mret names);;
  mret tt.

(** [_list_opts(namespaces, updates)] *)
Definition _list_opts (namespaces updates : list string) : M Listing :=
  loaders ← _get_raw_opts_loaders namespaces;
  let opts := loaders in
  _update_defaults namespaces updates;;
  w ← get_world;
  mret (_cleanup_opts (w_objs w) opts).

(** *** Output *)

(** [opt.dest], [opt.help], ...: the attributes of an option object now. *)
Definition deref (opt : Ref) : M Opt := fun p => (Ok (w_objs (world p) opt), p).

(** The body of the inner loop of [_output_opts]. *)
Definition output_opt (f : Formatter) (opt : Ref) : M unit :=
  write f nl;;
  try_except
    (o ← deref opt; format f o)
    (fun err =>
       o ← deref opt;
       write f ("# Warning: Failed to format sample for " +:+ opt_dest o +:+ nl);;
       write f ("# " +:+ exc_text err +:+ nl)).

(** [_output_opts(f, group, namespaces)] *)
Definition _output_opts (f : Formatter) (group : SectionKey)
    (namespaces : list (string * list Ref)) : M unit :=
  format_group f group;;
  for_each (py_sorted fst namespaces)
    (fun entry =>
       let '(namespace, opts) := entry in
       write f (nl +:+ "#" +:+ nl +:+ "# From " +:+ namespace +:+ nl +:+ "#" +:+ nl);;
       for_each opts (output_opt f)).

(** [_get_group_name(item)] *)
Definition _get_group_name {X} (item : SectionKey * X) : string :=
  match fst item with
  | KGroup group => og_name group
  | KName group => group
  end.

Definition Groups : Type := odict SectionKey (list (string * list Ref)).

(** The body of the inner loop of [_get_groups]. *)
Definition group_entry (namespace : string) (groups : Groups)
    (entry : Group * list Ref) : Groups :=
  let '(group, opts) := entry in
  match opts with
  | [] => groups
  | _ =>
      let key := section_key group in
      let groups :=
        if od_mem key groups then groups else od_set key [] groups in
      od_update key (fun namespaces => namespaces ++ [(namespace, opts)]) groups
  end.

(** [_get_groups(conf_ns)] *)
Definition _get_groups (conf_ns : Listing) : Groups :=
  fold_left
    (fun groups ns =>
       let '(namespace, listing) := ns in
       fold_left (group_entry namespace) listing groups)
    conf_ns [(KName "DEFAULT", [])].

(** [open(path, 'w')]: the file is created or truncated. *)
Definition open_w (path : string) : M Sink := fun p =>
  (Ok (File path),
   mkProc (world p) (groups_made p) (trace p) (diags p) (stdout p)
          (<[path := []]> (files p))).

(** [groups.pop('DEFAULT')] *)
Definition pop_default (groups : Groups)
    : Result (list (string * list Ref) * Groups) :=
  match od_pop (KName "DEFAULT") groups with
  | Some r => Ok r
  | None => Raise (mkExc KeyError "'DEFAULT'")
  end.

(** [generate(conf)]. The registration of the generator's own options
    with [conf], its first statement, has no part in what follows and is
    left out. *)
Definition generate (conf : Conf) : M unit :=
  output_file ←
    (if opt_truthy (conf_output_file conf)
     then open_w (default EmptyString (conf_output_file conf))
     else mret Stdout);
  let formatter := mkFormatter output_file (conf_wrap_width conf) in
  listed ← _list_opts (conf_opts conf) (conf_updates conf);
  let groups := _get_groups listed in
  '(default_namespaces, groups) ← lift (pop_default groups);
  _output_opts formatter (KName "DEFAULT") default_namespaces;;
  for_each (py_sorted _get_group_name groups)
    (fun item =>
       let '(group, namespaces) := item in
       write formatter (nl +:+ nl);;
       _output_opts formatter group namespaces).

End Generator.

(** * Vocabulary of the specification *)

(** ** Aggregation *)

(** The distinct elements of a list, in the order of their first
    occurrence. *)
Fixpoint first_seen (l : list string) : list string :=
  match l with
  | [] => []
  | x :: r => x :: filter (fun y => y <> x) (first_seen r)
  end.

(** All options that a raw listing registers under a (namespace, group)
    pair, in listing order. *)
Definition registrations (ns : string) (g : Group) (read_opts : Listing) : list Ref :=
  flat_map
    (fun e => if decide (fst e = ns)
              then flat_map (fun ge => if decide (fst ge = g) then snd ge else [])
                            (snd e)
              else [])
    read_opts.

(** The entry of a (namespace, group) pair in an aggregated listing. *)
Definition aggregated (ns : string) (g : Group) (l : Listing) : option (list Ref) :=
  od_get ns l ≫= od_get g.

(** Registering one option in the innermost dict. *)
Definition set_opt (h : Ref -> Opt) (d : odict string Ref) (o : Ref) : odict string Ref :=
  od_set (opt_dest (h o)) o d.

(** The innermost dict of a pair of keys in the three-level dict. *)
Definition lookup2 (ns : string) (g : Group) (clean : Clean)
    : option (odict string Ref) :=
  od_get ns clean ≫= od_get g.

(** What one [(group, opts)] pair, and one namespace entry, do to the
    innermost dict of a pair of keys. *)
Definition reg_group (h : Ref -> Opt) (g : Group) (acc : option (odict string Ref))
    (entry : Group * list Ref) : option (odict string Ref) :=
  if decide (fst entry = g)
  then Some (fold_left (set_opt h) (snd entry) (default [] acc))
  else acc.

Definition reg_namespace (h : Ref -> Opt) (ns : string) (g : Group)
    (acc : option (odict string Ref)) (entry : string * list (Group * list Ref))
    : option (odict string Ref) :=
  if decide (fst entry = ns) then fold_left (reg_group h g) (snd entry) acc else acc.

(** Every entry of an innermost dict sits under the dest of its option. *)
Definition keyed_by_dest (h : Ref -> Opt) (d : odict string Ref) : Prop :=
  Forall (fun e => fst e = opt_dest (h (snd e))) d.

(** The keys of the three-level dict are distinct at its two outer levels. *)
Definition distinct_keys (clean : Clean) : Prop :=
  NoDup (od_keys clean) /\ Forall (fun e => NoDup (od_keys (snd e))) clean.

(** ** Identifiers and update hooks *)

(** [name, cls = identifier.split(":")] *)
Definition parse_identifier (identifier : string) : Result (string * string) :=
  unpack2 (Str.split Str.colon identifier).

(** The updates that the specification has invoked, in the order given:
    those whose source is among the requested namespace names and is claimed
    by no earlier update. [earlier] holds the sources of the updates
    already passed. *)
Fixpoint invoked_updates (names earlier : list string)
    (ups : list (string * string)) : list (string * string) :=
  match ups with
  | [] => []
  | u :: r =>
      if decide (fst u ∈ names /\ fst u ∉ earlier)
      then u :: invoked_updates names (fst u :: earlier) r
      else invoked_updates names (fst u :: earlier) r
  end.

(** The world once the callable of a locator has been called in [w]: what
    its body leaves, whether it returns or raises. *)
Definition after_call (rt : Runtime) (locator : string) (w : World) : World :=
  match import_class rt locator with
  | Ok f => snd (fn_body f w)
  | Raise _ => w
  end.

(** The world once the hooks of the given updates have been called, one
    after the other, each once. *)
Definition after_hooks (rt : Runtime) (hooks : list (string * string)) (w : World)
    : World :=
  fold_left (fun w u => after_call rt (snd u) w) hooks w.

(** A callable that returns normally in every world. *)
Definition returns_normally (f : PyFunc) : Prop :=
  forall w, is_ok (fst (fn_body f w)) = true.

(** A run that leaves the sinks alone: nothing written, nothing logged. *)
Definition same_output (p p' : Proc) : Prop :=
  stdout p' = stdout p /\ files p' = files p /\ diags p' = diags p.

(** A run that leaves everything but the sinks alone. *)
Definition same_state (p p' : Proc) : Prop :=
  world p' = world p /\ groups_made p' = groups_made p /\ trace p' = trace p.

(** ** The namespace loader *)

(** The number of colons in an identifier. *)
Fixpoint colons (s : string) : nat :=
  match s with
  | EmptyString => 0
  | String c r => if Ascii.eqb c Str.colon then S (colons r) else colons r
  end.

(** The split the specification describes: on the first [:] from the
    right. *)
Definition rsplit_identifier (identifier : string) : option (string * string) :=
  Str.rpartition Str.colon identifier.

(** A name that case-insensitively equals "default". *)
Definition is_default (name : string) : bool :=
  bool_decide (Str.lower name = "default").

Definition canonical_name (name : string) : string :=
  if is_default name then "DEFAULT" else name.

(** The group of a namespace name, given the memo table of the run. *)
Definition group_for (groups : gmap string OptGroup) (name : string) : Group :=
  if is_default name then GNone
  else match groups !! name with
       | Some g => GObj g
       | None => GNone
       end.

(** What the loader does, in order; [seen] holds the names met so far. *)
Fixpoint loader_events (seen : list string) (nss : list (string * string))
    : list Event :=
  match nss with
  | [] => []
  | n :: r =>
      (if is_default (fst n) || bool_decide (fst n ∈ seen) then []
       else [EvNewGroup (fst n)])
        ++ EvCall Loader (snd n) :: loader_events (fst n :: seen) r
  end.

(** The memo table holds group objects made in this run, one per name,
    each named by its key. *)
Definition memo_ok (base : nat) (groups : gmap string OptGroup) (p : Proc) : Prop :=
  (forall name g, groups !! name = Some g ->
     og_name g = name /\ og_help g = None
     /\ is_default name = false
     /\ (base <= og_id g < groups_made p)%nat)
  /\ (forall n1 n2 g1 g2, groups !! n1 = Some g1 -> groups !! n2 = Some g2 ->
        og_id g1 = og_id g2 -> n1 = n2)
  /\ groups_made p = (base + size groups)%nat.

(** ** The rendered text *)

(** An action that only logs: its result and its diagnostics do not depend
    on the state. *)
Definition log_only {A} (m : M A) : Prop :=
  exists ds r, forall p, m p = (r, add_diags ds p).

Definition null_opt : Opt :=
  mkOpt (ForeignOpt "object") EmptyString EmptyString None VNone VNone None None
        [] false None.

Definition blank : Proc :=
  mkProc (mkWorld ∅ (fun _ => null_opt)) 0 [] [] [] ∅.

(** The diagnostics and the result of an action that only logs. *)
Definition effect_of {A} (m : M A) : list Diag * Result A :=
  (diags (snd (m blank)), fst (m blank)).

(** A run from [p] to [p'] that writes [ws] to the sink [k], logs [ds] and
    changes nothing else of the state. *)
Definition emits (k : Sink) (ws : list string) (ds : list Diag) (p p' : Proc) : Prop :=
  written k p' = written k p ++ ws /\ diags p' = diags p ++ ds /\ same_state p p'.

(** The banner of a namespace block. *)
Definition banner (namespace : string) : string :=
  nl +:+ "#" +:+ nl +:+ "# From " +:+ namespace +:+ nl +:+ "#" +:+ nl.

(** The two lines that stand for an option whose formatting raised. *)
Definition warning_lines (dest : string) (err : Exc) : list string :=
  ["# Warning: Failed to format sample for " +:+ dest +:+ nl;
   "# " +:+ exc_text err +:+ nl].

(** What the generator writes for one option: a blank line, then the lines
    [format] makes, or the warning when it raises. *)
Definition opt_chunks (rt : Runtime) (f : Formatter) (o : Opt) : list string :=
  nl :: match snd (effect_of (format_lines rt f o)) with
        | Ok lines => lines
        | Raise err => warning_lines (opt_dest o) err
        end.

Definition opt_diags (rt : Runtime) (f : Formatter) (o : Opt) : list Diag :=
  fst (effect_of (format_lines rt f o)).

(** The block of one namespace within a section. *)
Definition block_chunks (rt : Runtime) (f : Formatter) (h : Ref -> Opt)
    (entry : string * list Ref) : list string :=
  banner (fst entry) :: flat_map (fun r => opt_chunks rt f (h r)) (snd entry).

Definition block_diags (rt : Runtime) (f : Formatter) (h : Ref -> Opt)
    (entry : string * list Ref) : list Diag :=
  flat_map (fun r => opt_diags rt f (h r)) (snd entry).

(** The text of a section: its header, then the blocks of its namespaces
    sorted by namespace name. *)
Definition section_chunks (rt : Runtime) (f : Formatter) (h : Ref -> Opt)
    (key : SectionKey) (namespaces : list (string * list Ref)) : list string :=
  format_group_lines rt f key
    ++ flat_map (block_chunks rt f h) (py_sorted fst namespaces).

Definition section_diags (rt : Runtime) (f : Formatter) (h : Ref -> Opt)
    (namespaces : list (string * list Ref)) : list Diag :=
  flat_map (block_diags rt f h) (py_sorted fst namespaces).

(** The order of two entries by their keys. *)
Definition key_le {A} (key : A -> string) (a b : A) : Prop :=
  Str.le (key a) (key b).

(** ** Default values *)

(** A text with leading or trailing white space. *)
Definition padded (s : string) : bool :=
  match Str.first_char s, Str.last_char s with
  | Some a, Some b => Str.is_space a || Str.is_space b
  | _, _ => false
  end.

(** A default text as the sample shows it: in double quotes when it has
    leading or trailing white space. *)
Definition quoted (s : string) : string :=
  if padded s then dquote +:+ s +:+ dquote else s.

(** [format] returns, and the last lines it writes for the option are
    [default_lines]. *)
Definition renders (rt : Runtime) (f : Formatter) (o : Opt)
    (default_lines : list string) : Prop :=
  forall p, exists head p',
    format rt f o p = (Ok tt, p')
    /\ written (output_file f) p'
       = written (output_file f) p ++ head ++ default_lines.

(** ** The driver *)

(** An action that, however it ends, leaves the sinks alone. *)
Definition quiet {A} (m : M A) : Prop :=
  forall p r p', m p = (r, p') -> same_output p p'.

(** Where [generate] writes, and the process once the destination is
    open. *)
Definition destination (conf : Conf) : Sink :=
  if opt_truthy (conf_output_file conf)
  then File (default EmptyString (conf_output_file conf))
  else Stdout.

Definition opened (conf : Conf) (p : Proc) : Proc :=
  if opt_truthy (conf_output_file conf)
  then mkProc (world p) (groups_made p) (trace p) (diags p) (stdout p)
              (<[default EmptyString (conf_output_file conf) := []]> (files p))
  else p.

(** The (namespace, options) pairs that a listing contributes to a
    section, in listing order: those of its non-empty option lists whose
    group names the section. *)
Definition section_members (key : SectionKey) (listing : Listing)
    : list (string * list Ref) :=
  flat_map
    (fun ns =>
       flat_map
         (fun ge => match snd ge with
                    | [] => []
                    | _ => if decide (section_key (fst ge) = key)
                           then [(fst ns, snd ge)] else []
                    end)
         (snd ns))
    listing.

(** The name in the header of a section. *)
Definition section_name (key : SectionKey) : string :=
  match key with
  | KGroup g => og_name g
  | KName name => name
  end.

(** The sections after the default one, as the driver writes them: two
    blank lines, then the section. *)
Definition other_sections (rt : Runtime) (f : Formatter) (h : Ref -> Opt)
    (sections : list (SectionKey * list (string * list Ref))) : list string :=
  flat_map (fun item => (nl +:+ nl) :: section_chunks rt f h (fst item) (snd item))
           sections.

(** Names in case-insensitive order, the order the specification names. *)
Definition case_insensitive_le (a b : string) : Prop :=
  Str.le (Str.lower a) (Str.lower b).

(** The headers among the chunks written: the chunks that open with a
    bracket. *)
Definition headers (chunks : list string) : list string :=
  filter (fun s => Str.first_char s = Some "["%char) chunks.

(** A section's list after more members arrive: made on the first one. *)
Definition grow (acc : option (list (string * list Ref)))
    (members : list (string * list Ref)) : option (list (string * list Ref)) :=
  match members with
  | [] => acc
  | _ => Some (default [] acc ++ members)
  end.

(** ** Locators *)

(** A text without a dot. *)
Fixpoint dotless (s : string) : bool :=
  match s with
  | EmptyString => true
  | String c r => negb (Ascii.eqb c Str.dot) && dotless r
  end.

(** ** Listings without duplicates *)

(** A listing that names every namespace once, every group once within its
    namespace and every dest once within its group. *)
Definition duplicate_free (h : Ref -> Opt) (l : Listing) : Prop :=
  NoDup (map fst l)
  /\ Forall (fun e =>
               NoDup (map fst (snd e))
               /\ Forall (fun ge => NoDup (map (fun o => opt_dest (h o)) (snd ge)))
                         (snd e)) l.

(** The innermost dict that holds the given options, each under its
    dest. *)
Definition keyed (h : Ref -> Opt) (opts : list Ref) : odict string Ref :=
  map (fun o => (opt_dest (h o), o)) opts.

(** The listing that a three-level dict of such innermost dicts gives
    back. *)
Definition keyed_listing (h : Ref -> Opt) (l : Listing) : Clean :=
  map (fun e => (fst e, map (fun ge => (fst ge, keyed h (snd ge))) (snd e))) l.

(** * Sample inputs *)

Module Sample.

Definition string_type : OptType :=
  mkOptType (Some "string value") None None [] None.

(** [cfg.StrOpt(name, default=..., help='help')] *)
Definition str_opt (name : string) (default : PyVal) : Opt :=
  mkOpt StrOpt name name (Some "help") default VNone (Some string_type)
        (Some false) [] false None.

(** A heap holding the given option objects at the references 0, 1, ... *)
Definition heap_of (objs : list Opt) : Ref -> Opt :=
  fun r => nth r objs (str_opt "unused" VNone).

(** Three registrations under one (namespace, group): the third has the
    dest of the first and another default. *)
Definition dup_heap : Ref -> Opt :=
  heap_of [str_opt "host" (VStr "localhost"); str_opt "port" (VStr "80");
           str_opt "host" (VStr "example.org")].

Definition dup_listing : Listing := [("lib", [(GNone, [0; 1; 2])])].

Definition integer_type : OptType :=
  mkOptType (Some "integer value") None None [] None.

(** [cfg.IntOpt(name, default=..., help='help')] *)
Definition int_opt (name : string) (default : PyVal) : Opt :=
  mkOpt IntOpt name name (Some "help") default VNone (Some integer_type)
        (Some false) [] false None.

(** A library module [lib]:
<<
    DEFAULT_PORT = 80

    def list_opts():
        return [cfg.IntOpt('port', default=DEFAULT_PORT, help='help')]

    def set_defaults():
        global DEFAULT_PORT
        DEFAULT_PORT = 8080
>>
    [list_opts] builds its option anew at each call (at reference 0). *)
Definition lib_list_opts (w : World) : Result (list Ref) * World :=
  let port := default (VInt 80) (w_vars w !! "DEFAULT_PORT") in
  (Ok [0%nat],
   mkWorld (w_vars w)
           (fun r => if Nat.eqb r 0 then int_opt "port" port else w_objs w r)).

Definition lib_set_defaults (w : World) : Result (list Ref) * World :=
  (Ok [], mkWorld (<["DEFAULT_PORT" := VInt 8080]> (w_vars w)) (w_objs w)).

Definition lib_module : gmap string (World -> Result (list Ref) * World) :=
  <["list_opts" := lib_list_opts]> {["set_defaults" := lib_set_defaults]}.

(** An interpreter that knows the module [lib]; its [wrap] never breaks a
    line and its [splitlines] is given one-line texts. *)
Definition runtime : Runtime :=
  mkRuntime {["lib" := lib_module]}
            (fun line _ => ["# " +:+ line]) (fun text => [text])
            (fun _ => "<repr>") (fun _ _ => "<traceback>").

(** The process before the run. *)
Definition start : Proc :=
  mkProc (mkWorld {["DEFAULT_PORT" := VInt 80]} (fun _ => str_opt "unused" VNone))
         0 [] [] [] ∅.

(** An option object of a foreign class: it has no [mutable] attribute and
    its [type] is a plain class without any of the capabilities. *)
Definition foreign_opt (name : string) (default : PyVal) : Opt :=
  mkOpt (ForeignOpt "Opt") name name (Some "help") default VNone
        (Some (mkOptType None None None [] None)) None [] false None.

(** Three option objects, the second of a foreign class. *)
Definition mixed_heap : Ref -> Opt :=
  heap_of [str_opt "host" (VStr "localhost"); foreign_opt "token" (VStr "secret");
           str_opt "port" (VStr "80")].

Definition mixed_proc : Proc :=
  mkProc (mkWorld ∅ mixed_heap) 0 [] [] [] ∅.

Definition to_stdout : Formatter := mkFormatter Stdout (Some 70%Z).

(** [cfg.DictOpt('dest', default={"b": "2", "a": "1"}, help='help')], with
    a type that has no [format_defaults]. *)
Definition dict_opt : Opt :=
  mkOpt DictOpt "dest" "dest" (Some "help")
        (VDict [("b", VStr "2"); ("a", VStr "1")]) VNone
        (Some (mkOptType (Some "dict value") None None [] None))
        (Some false) [] false None.

(** [--opts lib:lib.list_opts --updates lib:lib.set_defaults], to standard
    output. *)
Definition conf : Conf :=
  mkConf None (Some 70%Z) ["lib:lib.list_opts"] ["lib:lib.set_defaults"].

(** Two namespaces whose names differ in case. *)
Definition conf_two_sections : Conf :=
  mkConf None (Some 70%Z) ["b:lib.list_opts"; "C:lib.list_opts"] [].

(** [cfg.BoolOpt('debug', default=False, sample_default=True, help='help')] *)
Definition bool_override : Opt :=
  mkOpt BoolOpt "debug" "debug" (Some "help") (VBool false) (VBool true)
        (Some (mkOptType (Some "boolean value") None None [] None))
        (Some false) [] false None.

(** [cfg.ListOpt(name, default=..., help='help')] *)
Definition list_opt (name : string) (default : PyVal) : Opt :=
  mkOpt ListOpt name name (Some "help") default VNone
        (Some (mkOptType (Some "list value") None None [] None))
        (Some false) [] false None.

(** A type with a [format_defaults] of its own, which hides the value. *)
Definition secret_type : OptType :=
  mkOptType (Some "secret value") None None []
            (Some (fun _ _ => Ok ["<hidden>"])).

(** A string option of that type. *)
Definition secret_opt : Opt :=
  mkOpt StrOpt "token" "token" (Some "help") (VStr "s3cr3t") VNone
        (Some secret_type) (Some false) [] false None.

(** An object without a [type] attribute. *)
Definition untyped_opt : Opt :=
  mkOpt (ForeignOpt "Thing") "thing" "thing" (Some "help") (VStr "x") VNone
        None (Some false) [] false None.

(** A listing over [dup_heap] without a repeated dest. *)
Definition plain_listing : Listing :=
  [("lib", [(GNone, [0; 1]); (GName "api", [2])]); ("app", [(GNone, [])])].

(** [--output-file sample.conf --opts lib.list_opts]: the identifier has
    no colon. *)
Definition conf_malformed : Conf :=
  mkConf (Some "sample.conf") (Some 70%Z) ["lib.list_opts"] [].

(** A process in which [sample.conf] exists and has content. *)
Definition with_old_file : Proc :=
  mkProc (world start) 0 [] [] [] {["sample.conf" := ["[DEFAULT]" +:+ nl]]}.

(** [--opts lib:lib.set_defaults]: a loader that lists no options. *)
Definition conf_no_options : Conf :=
  mkConf None (Some 70%Z) ["lib:lib.set_defaults"] [].

(** [cfg.MultiStrOpt('tags', default=[], sample_default='ab', help='help')] *)
Definition multi_text : Opt :=
  mkOpt MultiStrOpt "tags" "tags" (Some "help") (VList []) (VStr "ab")
        (Some (mkOptType (Some "multi valued") None None [] None))
        (Some false) [] false None.

(** A module [app] whose hook counts its calls:
<<
    COUNT = 0

    def bump():
        global COUNT
        COUNT += 1
>>
*)
Definition app_bump (w : World) : Result (list Ref) * World :=
  let n := match w_vars w !! "COUNT" with
           | Some (VInt z) => z
           | _ => 0%Z
           end in
  (Ok [], mkWorld (<["COUNT" := VInt (n + 1)]> (w_vars w)) (w_objs w)).

(** An interpreter that knows the module [app]. *)
Definition counting_runtime : Runtime :=
  mkRuntime {["app" := {["bump" := app_bump]}]}
            (fun line _ => ["# " +:+ line]) (fun text => [text])
            (fun _ => "<repr>") (fun _ _ => "<traceback>").

End Sample.

(** * Properties *)

(** ** Ordered dictionaries *)

Section OrderedDictFacts.
Context {K V : Type} `{EqDecision K}.
Implicit Types (d : odict K V) (k : K) (v : V).

Lemma od_mem_get k d : od_mem k d = bool_decide (is_Some (od_get k d)).
Proof.
  induction d as [|[k' v'] r IH]; simpl; [reflexivity|].
  destruct (decide (k = k')); [reflexivity | exact IH].
Qed.

Lemma od_mem_keys k d : od_mem k d = true <-> k ∈ od_keys d.
Proof.
  unfold od_keys. induction d as [|[k' v'] r IH]; simpl.
  - split; [discriminate | intros Hin; inversion Hin].
  - rewrite elem_of_cons. destruct (decide (k = k')); [tauto|].
    rewrite IH. tauto.
Qed.

Lemma od_get_None_keys k d : od_get k d = None <-> k ∉ od_keys d.
Proof.
  rewrite <- od_mem_keys, od_mem_get.
  destruct (od_get k d) eqn:E; simpl; split; intros Hx; done.
Qed.

Lemma od_get_set k k' v d :
  od_get k (od_set k' v d) = if decide (k = k') then Some v else od_get k d.
Proof.
  induction d as [|[k0 v0] r IH]; simpl.
  - destruct (decide (k = k')); reflexivity.
  - destruct (decide (k' = k0)) as [->|Hne]; simpl.
    + destruct (decide (k = k0)); reflexivity.
    + destruct (decide (k = k0)) as [->|Hne'].
      * destruct (decide (k0 = k')); [congruence | reflexivity].
      * exact IH.
Qed.

Lemma od_get_update k k' (f : V -> V) d :
  od_get k (od_update k' f d)
  = if decide (k = k') then f <$> od_get k d else od_get k d.
Proof.
  induction d as [|[k0 v0] r IH]; simpl.
  - destruct (decide (k = k')); reflexivity.
  - destruct (decide (k' = k0)) as [->|Hne]; simpl.
    + destruct (decide (k = k0)); reflexivity.
    + destruct (decide (k = k0)) as [->|Hne'].
      * destruct (decide (k0 = k')); [congruence | reflexivity].
      * exact IH.
Qed.

Lemma od_keys_update k (f : V -> V) d : od_keys (od_update k f d) = od_keys d.
Proof.
  unfold od_keys. induction d as [|[k0 v0] r IH]; simpl; [reflexivity|].
  destruct (decide (k = k0)); simpl; congruence.
Qed.

Lemma od_set_fresh k v d : k ∉ od_keys d -> od_set k v d = d ++ [(k, v)].
Proof.
  unfold od_keys. induction d as [|[k0 v0] r IH]; simpl; [reflexivity|].
  rewrite not_elem_of_cons. intros [Hne Hr].
  destruct (decide (k = k0)); [done|]. by rewrite IH.
Qed.

Lemma od_set_app k v d1 d2 :
  od_set k v (d1 ++ d2)
  = if od_mem k d1 then od_set k v d1 ++ d2 else d1 ++ od_set k v d2.
Proof.
  induction d1 as [|[k0 v0] r IH]; simpl; [reflexivity|].
  destruct (decide (k = k0)); simpl; [reflexivity|].
  rewrite IH. destruct (od_mem k r); reflexivity.
Qed.

Lemma od_keys_set k v d :
  od_keys (od_set k v d) = if od_mem k d then od_keys d else od_keys d ++ [k].
Proof.
  unfold od_keys. induction d as [|[k0 v0] r IH]; simpl; [reflexivity|].
  destruct (decide (k = k0)); simpl; [reflexivity|].
  rewrite IH. destruct (od_mem k r); reflexivity.
Qed.

Lemma od_get_map_values {W} (F : V -> W) k d :
  od_get k (map (fun e => (fst e, F (snd e))) d) = F <$> od_get k d.
Proof.
  induction d as [|[k0 v0] r IH]; simpl; [reflexivity|].
  destruct (decide (k = k0)); [reflexivity | exact IH].
Qed.

Lemma od_pop_get k d x r : od_pop k d = Some (x, r) -> od_get k d = Some x.
Proof.
  revert r. induction d as [|[k0 v0] t IH]; simpl; intros r; [discriminate|].
  destruct (decide (k = k0)); [congruence|].
  destruct (od_pop k t) as [[y t']|] eqn:E; [|discriminate].
  intros Heq. injection Heq as -> _. eapply IH. reflexivity.
Qed.

Lemma od_pop_is_Some k d : is_Some (od_get k d) -> is_Some (od_pop k d).
Proof.
  induction d as [|[k0 v0] t IH]; simpl.
  - intros [? ?]; discriminate.
  - destruct (decide (k = k0)); [eauto|].
    intros Hs. destruct (IH Hs) as [[y t'] ->]. eauto.
Qed.

Lemma od_pop_Permutation k d x r :
  od_pop k d = Some (x, r) -> d ≡ₚ (k, x) :: r.
Proof.
  revert r. induction d as [|[k0 v0] t IH]; simpl; intros r; [discriminate|].
  destruct (decide (k = k0)) as [->|Hne].
  - intros Heq. injection Heq as -> ->. reflexivity.
  - destruct (od_pop k t) as [[y t']|] eqn:E; [|discriminate].
    intros Heq. injection Heq as -> <-.
    rewrite (IH t' eq_refl). apply Permutation_swap.
Qed.

End OrderedDictFacts.

(** ** The option aggregator *)

Section Aggregation.
Context (h : Ref -> Opt).

Lemma lookup2_clean_opt ns g clean o ns' g' :
  lookup2 ns' g' (clean_opt h ns g clean o)
  = if decide (ns' = ns /\ g' = g)
    then (fun d => set_opt h d o) <$> lookup2 ns g clean
    else lookup2 ns' g' clean.
Proof.
  unfold lookup2, clean_opt. rewrite od_get_update.
  destruct (decide (ns' = ns)) as [->|Hns].
  - destruct (od_get ns clean) as [gd|]; simpl.
    + rewrite od_get_update.
      destruct (decide (g' = g)) as [->|Hg].
      * rewrite decide_True by done. reflexivity.
      * rewrite decide_False by tauto. reflexivity.
    + destruct (decide (ns = ns /\ g' = g)); reflexivity.
  - rewrite decide_False by tauto. reflexivity.
Qed.

Lemma lookup2_clean_opts ns g opts : forall clean ns' g',
  lookup2 ns' g' (fold_left (clean_opt h ns g) opts clean)
  = if decide (ns' = ns /\ g' = g)
    then (fun d => fold_left (set_opt h) opts d) <$> lookup2 ns g clean
    else lookup2 ns' g' clean.
Proof.
  induction opts as [|o r IH]; intros clean ns' g'; simpl.
  - destruct (decide (ns' = ns /\ g' = g)) as [[-> ->]|]; [|reflexivity].
    destruct (lookup2 ns g clean); reflexivity.
  - rewrite IH. destruct (decide (ns' = ns /\ g' = g)) as [[-> ->]|Hne].
    + rewrite lookup2_clean_opt, decide_True by done.
      destruct (lookup2 ns g clean); reflexivity.
    + rewrite lookup2_clean_opt, decide_False by done. reflexivity.
Qed.

Lemma od_get_clean_opts_is_Some ns g opts clean ns' :
  is_Some (od_get ns' (fold_left (clean_opt h ns g) opts clean))
  <-> is_Some (od_get ns' clean).
Proof.
  revert clean. induction opts as [|o r IH]; intros clean; simpl; [tauto|].
  rewrite IH. unfold clean_opt. rewrite od_get_update.
  destruct (decide (ns' = ns)); [|tauto].
  rewrite fmap_is_Some. tauto.
Qed.

Lemma lookup2_clean_group ns clean entry ns' g' :
  is_Some (od_get ns clean) ->
  lookup2 ns' g' (clean_group h ns clean entry)
  = if decide (ns' = ns) then reg_group h g' (lookup2 ns' g' clean) entry
    else lookup2 ns' g' clean.
Proof.
  intros [gd Hgd]. destruct entry as [g opts]. unfold clean_group, reg_group.
  rewrite lookup2_clean_opts. simpl fst; simpl snd.
  rewrite Hgd; simpl. rewrite od_mem_get.
  destruct (decide (ns' = ns)) as [->|Hns].
  - destruct (decide (g = g')) as [->|Hg].
    + rewrite decide_True by done.
      destruct (od_get g' gd) as [d|] eqn:Ed.
      * rewrite bool_decide_eq_true_2 by eauto.
        unfold lookup2. rewrite Hgd; simpl. rewrite Ed. reflexivity.
      * rewrite bool_decide_eq_false_2 by (intros [? ?]; discriminate).
        unfold lookup2. rewrite od_get_update, decide_True, Hgd by done.
        simpl. rewrite od_get_set, decide_True, Ed by done. reflexivity.
    + rewrite decide_False by (intros [_ ?]; congruence).
      destruct (bool_decide (is_Some (od_get g gd))); [reflexivity|].
      unfold lookup2. rewrite od_get_update, decide_True, Hgd by done.
      simpl. rewrite od_get_set, decide_False by congruence. reflexivity.
  - rewrite decide_False by tauto.
    destruct (bool_decide (is_Some (od_get g gd))); [reflexivity|].
    unfold lookup2. rewrite od_get_update, decide_False by done. reflexivity.
Qed.

Lemma od_get_clean_group_is_Some ns clean entry ns' :
  is_Some (od_get ns' (clean_group h ns clean entry))
  <-> is_Some (od_get ns' clean).
Proof.
  destruct entry as [g opts]. unfold clean_group.
  rewrite od_get_clean_opts_is_Some.
  destruct (od_mem g (default [] (od_get ns clean))); [tauto|].
  rewrite od_get_update. destruct (decide (ns' = ns)); [|tauto].
  rewrite fmap_is_Some. tauto.
Qed.

Lemma lookup2_clean_groups ns listing : forall clean ns' g',
  is_Some (od_get ns clean) ->
  lookup2 ns' g' (fold_left (clean_group h ns) listing clean)
  = if decide (ns' = ns) then fold_left (reg_group h g') listing (lookup2 ns' g' clean)
    else lookup2 ns' g' clean.
Proof.
  induction listing as [|e r IH]; intros clean ns' g' Hs; simpl.
  - destruct (decide (ns' = ns)); reflexivity.
  - rewrite IH by (apply od_get_clean_group_is_Some; exact Hs).
    rewrite lookup2_clean_group by exact Hs.
    destruct (decide (ns' = ns)); reflexivity.
Qed.

Lemma lookup2_clean_namespace clean entry ns' g' :
  lookup2 ns' g' (clean_namespace h clean entry)
  = reg_namespace h ns' g' (lookup2 ns' g' clean) entry.
Proof.
  destruct entry as [ns listing]. unfold clean_namespace, reg_namespace.
  simpl fst; simpl snd. rewrite od_mem_get.
  destruct (od_get ns clean) as [gd|] eqn:Egd.
  - rewrite bool_decide_eq_true_2 by eauto.
    rewrite lookup2_clean_groups by (rewrite Egd; eauto).
    destruct (decide (ns' = ns)) as [->|];
      [rewrite decide_True by done | rewrite decide_False by congruence];
      reflexivity.
  - rewrite bool_decide_eq_false_2 by (intros [? ?]; discriminate).
    rewrite lookup2_clean_groups
      by (rewrite od_get_set, decide_True by done; eauto).
    unfold lookup2 at 1 2. rewrite od_get_set.
    destruct (decide (ns' = ns)) as [->|].
    + rewrite decide_True by done. unfold lookup2. rewrite Egd. reflexivity.
    + rewrite decide_False by congruence. reflexivity.
Qed.

Lemma lookup2_clean_namespaces read_opts : forall clean ns g,
  lookup2 ns g (fold_left (clean_namespace h) read_opts clean)
  = fold_left (reg_namespace h ns g) read_opts (lookup2 ns g clean).
Proof.
  induction read_opts as [|e r IH]; intros clean ns g; simpl; [reflexivity|].
  rewrite IH, lookup2_clean_namespace. reflexivity.
Qed.

Lemma aggregated_cleanup ns g read_opts :
  aggregated ns g (_cleanup_opts h read_opts)
  = od_values <$> fold_left (reg_namespace h ns g) read_opts None.
Proof.
  unfold aggregated, _cleanup_opts.
  change (@None (odict string Ref)) with (lookup2 ns g []).
  rewrite <- (lookup2_clean_namespaces read_opts [] ns g). unfold lookup2.
  rewrite (od_get_map_values
             (fun gs : odict Group (odict string Ref) =>
                map (fun g0 => (fst g0, od_values (snd g0))) gs)).
  destruct (od_get ns (fold_left (clean_namespace h) read_opts [])) as [gd|];
    simpl; [|reflexivity].
  apply (od_get_map_values od_values).
Qed.

Lemma reg_groups_registrations g listing : forall acc,
  let regs := flat_map (fun ge : Group * list Ref =>
                          if decide (fst ge = g) then snd ge else []) listing in
  (fold_left (reg_group h g) listing acc = acc /\ regs = [])
  \/ fold_left (reg_group h g) listing acc
     = Some (fold_left (set_opt h) regs (default [] acc)).
Proof.
  induction listing as [|e r IH]; intros acc; simpl; [left; done|].
  assert (Hstep : reg_group h g acc e
                  = if decide (fst e = g)
                    then Some (fold_left (set_opt h) (snd e) (default [] acc))
                    else acc) by reflexivity.
  rewrite Hstep. clear Hstep.
  destruct (decide (fst e = g)) as [He|He]; simpl.
  - right. destruct (IH (Some (fold_left (set_opt h) (snd e) (default [] acc))))
      as [[-> ->] | ->].
    + rewrite app_nil_r. reflexivity.
    + rewrite fold_left_app. reflexivity.
  - apply IH.
Qed.

Lemma reg_namespaces_registrations ns g read_opts : forall acc,
  (fold_left (reg_namespace h ns g) read_opts acc = acc
   /\ registrations ns g read_opts = [])
  \/ fold_left (reg_namespace h ns g) read_opts acc
     = Some (fold_left (set_opt h) (registrations ns g read_opts) (default [] acc)).
Proof.
  unfold registrations.
  induction read_opts as [|e r IH]; intros acc; simpl; [left; done|].
  assert (Hstep : reg_namespace h ns g acc e
                  = if decide (fst e = ns)
                    then fold_left (reg_group h g) (snd e) acc
                    else acc) by reflexivity.
  rewrite Hstep. clear Hstep.
  destruct (decide (fst e = ns)) as [He|He]; simpl.
  - destruct (reg_groups_registrations g (snd e) acc) as [[-> ->]|Hg].
    + apply IH.
    + right. rewrite Hg.
      destruct (IH (Some (fold_left (set_opt h)
                  (flat_map (fun ge : Group * list Ref =>
                               if decide (fst ge = g) then snd ge else [])
                            (snd e)) (default [] acc)))) as [[-> ->] | ->].
      * rewrite app_nil_r. reflexivity.
      * rewrite fold_left_app. reflexivity.
  - apply IH.
Qed.

(** The aggregated entry of a pair of keys is made from its
    registrations alone, each set in turn into an ordered dict. *)
Lemma aggregated_registrations ns g read_opts :
  registrations ns g read_opts <> [] ->
  aggregated ns g (_cleanup_opts h read_opts)
  = Some (od_values (fold_left (set_opt h) (registrations ns g read_opts) [])).
Proof.
  intros Hne. rewrite aggregated_cleanup.
  destruct (reg_namespaces_registrations ns g read_opts None) as [[_ Hnil] | ->];
    [contradiction | reflexivity].
Qed.

Lemma set_opt_keyed d o : keyed_by_dest h d -> keyed_by_dest h (set_opt h d o).
Proof.
  unfold keyed_by_dest, set_opt. induction 1 as [|[k v] r Hk Hr IH]; simpl.
  - repeat constructor.
  - destruct (decide (opt_dest (h o) = k)) as [<-|Hne];
      constructor; simpl; auto.
Qed.

Lemma fold_set_opt_keyed l : forall d,
  keyed_by_dest h d -> keyed_by_dest h (fold_left (set_opt h) l d).
Proof.
  induction l as [|o r IH]; intros d Hd; simpl; [exact Hd|].
  apply IH, set_opt_keyed, Hd.
Qed.

Lemma keyed_values_dest d :
  keyed_by_dest h d -> map (fun o => opt_dest (h o)) (od_values d) = od_keys d.
Proof.
  unfold od_values, od_keys. induction 1 as [|[k v] r Hk Hr IH]; simpl;
    [reflexivity|]. simpl in Hk. congruence.
Qed.

Lemma fold_set_opt_values l : forall d o,
  o ∈ od_values (fold_left (set_opt h) l d) -> o ∈ l \/ o ∈ od_values d.
Proof.
  induction l as [|x r IH]; intros d o Ho; simpl in *; [right; exact Ho|].
  destruct (IH _ _ Ho) as [Hr|Hd]; [left; apply elem_of_cons; tauto|].
  assert (Hset : forall d', o ∈ od_values (set_opt h d' x) -> o = x \/ o ∈ od_values d').
  { clear. unfold set_opt, od_values.
    induction d' as [|[k v] t IHt]; simpl; intros Ho.
    - apply list_elem_of_singleton in Ho. tauto.
    - destruct (decide (opt_dest (h x) = k)); simpl in Ho;
        apply elem_of_cons in Ho; rewrite elem_of_cons; tauto. }
  destruct (Hset _ Hd) as [->|Hd']; [left; apply elem_of_cons; tauto | right; exact Hd'].
Qed.

(** The keys of the dict: the old ones, then the new dests in the order
    of their first occurrence. *)
Lemma fold_set_opt_keys l : forall d,
  od_keys (fold_left (set_opt h) l d)
  = od_keys d ++ filter (fun k => k ∉ od_keys d)
                        (first_seen (map (fun o => opt_dest (h o)) l)).
Proof.
  induction l as [|o r IH]; intros d; simpl.
  - rewrite app_nil_r. reflexivity.
  - rewrite IH. unfold set_opt at 1 2.
    set (x := opt_dest (h o)).
    set (fs := first_seen (map (fun o0 => opt_dest (h o0)) r)).
    pose proof (od_keys_set x o d) as Hk.
    destruct (od_mem x d) eqn:Hm.
    + rewrite (list_filter_iff (fun k => k ∉ od_keys (od_set x o d))
                               (fun k => k ∉ od_keys d))
        by (intros y; rewrite Hk; tauto).
      rewrite Hk. apply od_mem_keys in Hm.
      rewrite filter_cons_False by (intros Hn; apply Hn, Hm).
      rewrite list_filter_filter. f_equal. apply list_filter_iff.
      intros y. split; [|tauto]. intros Hy. split; [exact Hy|].
      intros ->. exact (Hy Hm).
    + rewrite (list_filter_iff (fun k => k ∉ od_keys (od_set x o d))
                               (fun k => k ∉ od_keys d ++ [x]))
        by (intros y; rewrite Hk; tauto).
      rewrite Hk.
      assert (Hx : x ∉ od_keys d).
      { intros Hin. apply od_mem_keys in Hin. congruence. }
      rewrite filter_cons_True by exact Hx.
      rewrite <- app_assoc. simpl. do 2 f_equal.
      rewrite list_filter_filter. apply list_filter_iff.
      intros y. rewrite not_elem_of_app, list_elem_of_singleton. tauto.
Qed.

Lemma fold_set_opt_keys_nil l :
  od_keys (fold_left (set_opt h) l [])
  = first_seen (map (fun o => opt_dest (h o)) l).
Proof.
  rewrite fold_set_opt_keys. simpl.
  induction (first_seen (map (fun o => opt_dest (h o)) l)) as [|y t IH];
    [reflexivity|].
  rewrite filter_cons_True by (intros Hin; inversion Hin). by rewrite IH.
Qed.

(** An entry whose dest is not registered again keeps its place: what is
    before stays before, what is after stays after. *)
Lemma fold_set_opt_split l : forall d1 k v d2,
  k ∉ map (fun o => opt_dest (h o)) l ->
  exists d1' d2',
    fold_left (set_opt h) l (d1 ++ (k, v) :: d2) = d1' ++ (k, v) :: d2'
    /\ fold_left (set_opt h) l (d1 ++ d2) = d1' ++ d2'
    /\ od_keys d1' = od_keys d1.
Proof.
  induction l as [|o r IH]; intros d1 k v d2 Hk; simpl.
  - exists d1, d2. done.
  - simpl in Hk. apply not_elem_of_cons in Hk as [Hne Hk].
    unfold set_opt at 2 4. rewrite !od_set_app.
    destruct (od_mem (opt_dest (h o)) d1) eqn:Hm.
    + destruct (IH (od_set (opt_dest (h o)) o d1) k v d2 Hk)
        as (d1' & d2' & E1 & E2 & E3).
      exists d1', d2'. rewrite E1, E2, E3, od_keys_set, Hm. done.
    + simpl. rewrite decide_False by congruence.
      destruct (IH d1 k v (od_set (opt_dest (h o)) o d2) Hk)
        as (d1' & d2' & E1 & E2 & E3).
      exists d1', d2'. rewrite E1, E2, E3. done.
Qed.

(** Two registrations of one dest: the entry stays where the first put
    it and holds the second. *)
Lemma fold_set_opt_duplicate l1 o1 l2 o2 l3 :
  opt_dest (h o1) = opt_dest (h o2) ->
  (forall o, o ∈ l1 ++ l2 ++ l3 -> opt_dest (h o) <> opt_dest (h o1)) ->
  exists dA dB,
    fold_left (set_opt h) (l1 ++ o1 :: l2 ++ o2 :: l3) []
    = dA ++ (opt_dest (h o2), o2) :: dB
    /\ fold_left (set_opt h) (l1 ++ l2 ++ l3) [] = dA ++ dB
    /\ od_keys dA = od_keys (fold_left (set_opt h) l1 []).
Proof.
  intros Hd Hother.
  assert (Hnot : forall l, (forall o, o ∈ l -> o ∈ l1 ++ l2 ++ l3) ->
                           opt_dest (h o1) ∉ map (fun o => opt_dest (h o)) l).
  { intros l Hl Hin. apply list_elem_of_In, in_map_iff in Hin as (o & Ho & Hin).
    apply (Hother o); [apply Hl, list_elem_of_In, Hin | exact Ho]. }
  set (D1 := fold_left (set_opt h) l1 []).
  assert (HD1 : opt_dest (h o1) ∉ od_keys D1).
  { unfold D1. rewrite fold_set_opt_keys_nil.
    intros Hin. apply (Hnot l1); [set_solver|].
    clear -Hin. revert Hin.
    induction (map (fun o => opt_dest (h o)) l1) as [|y t IH]; simpl;
      [done|].
    rewrite !elem_of_cons. intros [->|Hin]; [left; done|].
    right. apply IH. apply list_elem_of_filter in Hin. tauto. }
  destruct (fold_set_opt_split l2 D1 (opt_dest (h o1)) o1 [])
    as (d1 & d2 & E1 & E2 & E3); [apply Hnot; set_solver|].
  destruct (fold_set_opt_split l3 d1 (opt_dest (h o1)) o2 d2)
    as (dA & dB & F1 & F2 & F3); [apply Hnot; set_solver|].
  exists dA, dB. split; [|split].
  - rewrite fold_left_app. simpl. fold D1.
    unfold set_opt at 2. rewrite (od_set_fresh _ _ D1 HD1).
    rewrite fold_left_app, E1. simpl.
    unfold set_opt at 2. rewrite od_set_app.
    assert (Hm : od_mem (opt_dest (h o2)) d1 = false).
    { destruct (od_mem (opt_dest (h o2)) d1) eqn:Hm; [|reflexivity].
      apply od_mem_keys in Hm. rewrite E3, <- Hd in Hm. contradiction. }
    rewrite Hm. simpl. rewrite decide_True by done.
    rewrite <- Hd. exact F1.
  - rewrite !fold_left_app. fold D1. rewrite app_nil_r in E2.
    rewrite E2. exact F2.
  - rewrite F3, E3. reflexivity.
Qed.

End Aggregation.

(** The keys of the aggregated registry are distinct at the namespace and
    at the group level. *)
Section DistinctKeys.
Context {K V : Type} `{EqDecision K}.

Lemma od_set_NoDup (k : K) (v : V) d :
  NoDup (od_keys d) -> NoDup (od_keys (od_set k v d)).
Proof.
  intros Hd. rewrite od_keys_set. destruct (od_mem k d) eqn:Hm; [exact Hd|].
  apply NoDup_app. split; [exact Hd|]. split; [|apply NoDup_singleton].
  intros x Hx Hx'. apply list_elem_of_singleton in Hx' as ->.
  apply od_mem_keys in Hx. congruence.
Qed.

Lemma od_update_Forall (P : V -> Prop) (k : K) (f : V -> V) d :
  (forall v, P v -> P (f v)) ->
  Forall (fun e => P (snd e)) d -> Forall (fun e => P (snd e)) (od_update k f d).
Proof.
  intros Hf. induction 1 as [|[k0 v0] r Hk Hr IH]; simpl; [constructor|].
  destruct (decide (k = k0)); constructor; simpl; auto.
Qed.

Lemma od_set_Forall (P : V -> Prop) (k : K) (v : V) d :
  P v -> Forall (fun e => P (snd e)) d -> Forall (fun e => P (snd e)) (od_set k v d).
Proof.
  intros Hv. induction 1 as [|[k0 v0] r Hk Hr IH]; simpl.
  - repeat constructor. exact Hv.
  - destruct (decide (k = k0)); constructor; simpl; auto.
Qed.

End DistinctKeys.

Section AggregationKeys.
Context (h : Ref -> Opt).

Lemma clean_namespaces_distinct read_opts : forall clean,
  distinct_keys clean ->
  distinct_keys (fold_left (clean_namespace h) read_opts clean).
Proof.
  assert (Hopt : forall ns g opts clean,
             distinct_keys clean ->
             distinct_keys (fold_left (clean_opt h ns g) opts clean)).
  { intros ns g opts. induction opts as [|o r IH]; intros clean Hc; simpl;
      [exact Hc|].
    apply IH. destruct Hc as [Hc1 Hc2]. split.
    - unfold clean_opt. rewrite od_keys_update. exact Hc1.
    - unfold clean_opt.
      apply (od_update_Forall (fun gd => NoDup (od_keys gd))); [|exact Hc2].
      intros gd Hgd. rewrite od_keys_update. exact Hgd. }
  assert (Hgrp : forall ns listing clean,
             distinct_keys clean ->
             distinct_keys (fold_left (clean_group h ns) listing clean)).
  { intros ns listing. induction listing as [|[g opts] r IH]; intros clean Hc;
      simpl; [exact Hc|].
    apply IH, Hopt.
    destruct (od_mem g (default [] (od_get ns clean))); [exact Hc|].
    destruct Hc as [Hc1 Hc2]. split.
    - rewrite od_keys_update. exact Hc1.
    - apply (od_update_Forall (fun gd => NoDup (od_keys gd))); [|exact Hc2].
      intros gd Hgd. apply od_set_NoDup, Hgd. }
  induction read_opts as [|[ns listing] r IH]; intros clean Hc; simpl;
    [exact Hc|].
  apply IH, Hgrp. destruct (od_mem ns clean); [exact Hc|].
  destruct Hc as [Hc1 Hc2]. split.
  - apply od_set_NoDup, Hc1.
  - apply (od_set_Forall (fun gd => NoDup (od_keys gd))); [constructor | exact Hc2].
Qed.

Lemma cleanup_distinct_keys read_opts :
  NoDup (map fst (_cleanup_opts h read_opts))
  /\ Forall (fun e => NoDup (map fst (snd e))) (_cleanup_opts h read_opts).
Proof.
  unfold _cleanup_opts.
  destruct (clean_namespaces_distinct read_opts []) as [H1 H2].
  { split; constructor. }
  split.
  - rewrite map_map. simpl. exact H1.
  - apply Forall_map. eapply Forall_impl; [exact H2|].
    intros [ns gd] Hgd; simpl in *. rewrite map_map. simpl. exact Hgd.
Qed.

End AggregationKeys.

(** C2. When two options of one dest are registered under the same
    (namespace, group), the aggregated entry of that pair holds exactly one
    option of that dest: it stands where the first registration put it
    (after the distinct dests seen before it), it is the second
    registration, and the dests of the whole entry are those registered, in
    the order of their first occurrence. The namespaces of the aggregated
    registry, and the groups of each, are distinct. *)
Theorem C2_duplicate_dest_overwrites_in_place
    (h : Ref -> Opt) (read_opts : Listing) (ns : string) (g : Group)
    (l1 l2 l3 : list Ref) (o1 o2 : Ref) :
  registrations ns g read_opts = l1 ++ o1 :: l2 ++ o2 :: l3 ->
  opt_dest (h o1) = opt_dest (h o2) ->
  (forall o, o ∈ l1 ++ l2 ++ l3 -> opt_dest (h o) <> opt_dest (h o1)) ->
  exists A B,
    aggregated ns g (_cleanup_opts h read_opts) = Some (A ++ o2 :: B)
    /\ (forall o, o ∈ A ++ B -> opt_dest (h o) <> opt_dest (h o2))
    /\ map (fun o => opt_dest (h o)) A = first_seen (map (fun o => opt_dest (h o)) l1)
    /\ map (fun o => opt_dest (h o)) (A ++ o2 :: B)
       = first_seen (map (fun o => opt_dest (h o)) (l1 ++ o1 :: l2 ++ o2 :: l3))
    /\ NoDup (map fst (_cleanup_opts h read_opts))
    /\ Forall (fun e => NoDup (map fst (snd e))) (_cleanup_opts h read_opts).
Proof.
  intros Hreg Hd Hother.
  destruct (fold_set_opt_duplicate h l1 o1 l2 o2 l3 Hd Hother)
    as (dA & dB & E1 & E2 & E3).
  assert (Hkeyed : keyed_by_dest h (dA ++ (opt_dest (h o2), o2) :: dB)).
  { rewrite <- E1. apply fold_set_opt_keyed. constructor. }
  exists (od_values dA), (od_values dB). repeat split.
  - rewrite aggregated_registrations by (rewrite Hreg; by destruct l1).
    rewrite Hreg, E1. unfold od_values. rewrite map_app. reflexivity.
  - intros o Ho. rewrite <- Hd. apply Hother.
    unfold od_values in Ho. rewrite <- map_app, <- E2 in Ho.
    destruct (fold_set_opt_values h _ _ _ Ho) as [Hin|Hin];
      [exact Hin | inversion Hin].
  - apply Forall_app in Hkeyed as [HA _].
    rewrite (keyed_values_dest h dA HA), E3. apply fold_set_opt_keys_nil.
  - rewrite <- fold_set_opt_keys_nil, E1.
    rewrite <- (keyed_values_dest h _ Hkeyed).
    unfold od_values. rewrite (map_app snd). reflexivity.
  - apply cleanup_distinct_keys.
  - apply cleanup_distinct_keys.
Qed.

Lemma C2_witness :
  let h := Sample.dup_heap in
  exists A B,
    aggregated "lib" GNone (_cleanup_opts h Sample.dup_listing) = Some (A ++ 2 :: B)
    /\ (forall o, o ∈ A ++ B -> opt_dest (h o) <> opt_dest (h 2))
    /\ map (fun o => opt_dest (h o)) A = first_seen (map (fun o => opt_dest (h o)) [])
    /\ map (fun o => opt_dest (h o)) (A ++ 2 :: B)
       = first_seen (map (fun o => opt_dest (h o)) ([] ++ 0 :: [1] ++ 2 :: []))
    /\ NoDup (map fst (_cleanup_opts h Sample.dup_listing))
    /\ Forall (fun e => NoDup (map fst (snd e))) (_cleanup_opts h Sample.dup_listing).
Proof.
  apply (C2_duplicate_dest_overwrites_in_place
           Sample.dup_heap Sample.dup_listing "lib" GNone [] [1] [] 0 2).
  - reflexivity.
  - reflexivity.
  - intros o Ho. apply list_elem_of_singleton in Ho. rewrite Ho.
    vm_compute. discriminate.
Defined.

(** ** Running monadic code *)

Lemma bind_Ok {A B} (m : M A) (f : A -> M B) p a p' :
  m p = (Ok a, p') -> (m ≫= f) p = f a p'.
Proof. intros E. unfold mbind, M_bind. rewrite E. reflexivity. Qed.

Lemma bind_Raise {A B} (m : M A) (f : A -> M B) p e p' :
  m p = (Raise e, p') -> (m ≫= f) p = (Raise e, p').
Proof. intros E. unfold mbind, M_bind. rewrite E. reflexivity. Qed.

Lemma lift_run {A} (r : Result A) p : lift r p = (r, p).
Proof. reflexivity. Qed.

Lemma map_result_cons_Ok {A B} (f : A -> Result B) x l ys :
  map_result f (x :: l) = Ok ys ->
  exists y ys', f x = Ok y /\ map_result f l = Ok ys' /\ ys = y :: ys'.
Proof.
  simpl. destruct (f x) as [y|e]; simpl; [|discriminate].
  destruct (map_result f l) as [ys'|e]; simpl; [|discriminate].
  intros [= <-]. eauto.
Qed.

Lemma map_result_nil_Ok {A B} (f : A -> Result B) ys :
  map_result f [] = Ok ys -> ys = [].
Proof. simpl. congruence. Qed.

(** ** The update hook runner *)

Section UpdateHooks.
Context (rt : Runtime).

Lemma names_loop namespaces : forall nss (S : gset string) p,
  map_result parse_identifier namespaces = Ok nss ->
  for_fold namespaces S
    (fun names namespace =>
       '(name, cls) ← lift (unpack2 (Str.split Str.colon namespace));
       mret (names ∪ {[name]})) p
  = (Ok (S ∪ list_to_set (map fst nss)), p).
Proof.
  induction namespaces as [|n r IH]; intros nss S p Hp.
  - apply map_result_nil_Ok in Hp as ->. simpl.
    rewrite right_id_L by apply _. reflexivity.
  - apply map_result_cons_Ok in Hp as ([name cls] & nss' & Hn & Hr & ->).
    unfold parse_identifier in Hn. cbn [for_fold].
    erewrite bind_Ok; [|erewrite bind_Ok; [|rewrite Hn; reflexivity]; reflexivity].
    rewrite (IH nss' _ p Hr). simpl. do 2 f_equal. set_solver.
Qed.

Lemma import_class_locator import_str f :
  import_class rt import_str = Ok f -> fn_locator f = import_str.
Proof.
  unfold import_class.
  destruct (Str.rpartition Str.dot import_str) as [[m c]|];
    destruct (Str.truthy _); try discriminate;
    destruct (import_module rt _ _); simpl; try discriminate;
    destruct (rt_modules rt !! _) as [attrs|]; try discriminate;
    destruct (attrs !! _); try discriminate; intros [= <-]; reflexivity.
Qed.

Lemma call_run role f p :
  returns_normally f ->
  exists opts w,
    fn_body f (world p) = (Ok opts, w)
    /\ call role f p
       = (Ok opts, set_world w (add_event (EvCall role (fn_locator f)) p)).
Proof.
  intros Hf. specialize (Hf (world p)). unfold call.
  destruct (fn_body f (world p)) as [[opts|e] w]; [|discriminate].
  eauto.
Qed.

Lemma updates_loop (names : list string) updates : forall ups earlier (S : gset string) p,
  map_result parse_identifier updates = Ok ups ->
  Forall (fun u => exists f, import_class rt (snd u) = Ok f
                             /\ (fst u ∈ names -> returns_normally f)) ups ->
  (forall x, x ∈ S <-> x ∈ names /\ x ∉ earlier) ->
  exists S' p',
    for_fold updates S
      (fun names update =>
         '(name, cls) ← lift (unpack2 (Str.split Str.colon update));
         func ← lift (import_class rt cls);
         if decide (name ∈ names) then
           call Updater func;;
           mret (names ∖ {[name]})
         else mret names) p
    = (Ok S', p')
    /\ trace p' = trace p ++ map (fun u => EvCall Updater (snd u))
                                (invoked_updates names earlier ups)
    /\ same_output p p' /\ groups_made p' = groups_made p.
Proof.
  induction updates as [|u r IH]; intros ups earlier S p Hp Hres HS.
  - apply map_result_nil_Ok in Hp as ->. exists S, p. simpl.
    rewrite app_nil_r. repeat split.
  - apply map_result_cons_Ok in Hp as ([name cls] & ups' & Hn & Hr & ->).
    apply Forall_cons in Hres as [(f & Hf & Hret) Hres]. simpl in Hf, Hret.
    unfold parse_identifier in Hn. cbn [for_fold invoked_updates fst].
    destruct (decide (name ∈ S)) as [Hin|Hnin].
    + destruct (call_run Updater f p) as (opts & w & _ & Hcall).
      { apply Hret, HS, Hin. }
      destruct (IH ups' (name :: earlier) (S ∖ {[name]})
                   (set_world w (add_event (EvCall Updater (fn_locator f)) p))
                   Hr Hres)
        as (S' & p' & Hrun & Htr & Hout & Hgm).
      { intros x. rewrite elem_of_difference, elem_of_singleton,
          not_elem_of_cons, HS. tauto. }
      exists S', p'. split; [|split; [|split]].
      * erewrite bind_Ok; [exact Hrun|].
        erewrite bind_Ok; [|rewrite Hn; reflexivity]. simpl.
        erewrite bind_Ok; [|rewrite Hf; reflexivity].
        rewrite decide_True by exact Hin.
        erewrite bind_Ok; [|exact Hcall]. reflexivity.
      * rewrite decide_True by (apply HS, Hin).
        rewrite Htr. simpl. rewrite <- app_assoc. simpl.
        rewrite (import_class_locator _ _ Hf). reflexivity.
      * exact Hout.
      * exact Hgm.
    + destruct (IH ups' (name :: earlier) S p Hr Hres)
        as (S' & p' & Hrun & Htr & Hout & Hgm).
      { intros x. rewrite not_elem_of_cons, HS. split; [|tauto].
        intros [Hx Hx']. repeat split; try assumption.
        intros ->. apply Hnin, HS. tauto. }
      exists S', p'. split; [|split; [|split]].
      * erewrite bind_Ok; [exact Hrun|].
        erewrite bind_Ok; [|rewrite Hn; reflexivity]. simpl.
        erewrite bind_Ok; [|rewrite Hf; reflexivity].
        rewrite decide_False by exact Hnin. reflexivity.
      * rewrite decide_False by (intros Hx; apply Hnin, HS, Hx).
        exact Htr.
      * exact Hout.
      * exact Hgm.
Qed.

End UpdateHooks.

Lemma invoked_updates_sources names ups : forall earlier u,
  u ∈ invoked_updates names earlier ups -> fst u ∈ names /\ fst u ∉ earlier.
Proof.
  induction ups as [|v r IH]; intros earlier u Hu; simpl in Hu.
  - inversion Hu.
  - destruct (decide (fst v ∈ names /\ fst v ∉ earlier)) as [Hv|Hv].
    + apply elem_of_cons in Hu as [->|Hu]; [exact Hv|].
      apply IH in Hu as [H1 H2]. apply not_elem_of_cons in H2. tauto.
    + apply IH in Hu as [H1 H2]. apply not_elem_of_cons in H2. tauto.
Qed.

Lemma invoked_updates_sublist names ups : forall earlier,
  invoked_updates names earlier ups `sublist_of` ups.
Proof.
  induction ups as [|v r IH]; intros earlier; simpl; [constructor|].
  destruct (decide (fst v ∈ names /\ fst v ∉ earlier));
    [apply sublist_skip | apply sublist_cons]; apply IH.
Qed.

Lemma invoked_updates_first_claim names : forall pre earlier s c post,
  s ∈ names -> s ∉ earlier -> s ∉ map fst pre ->
  filter (fun u => fst u = s)
         (invoked_updates names earlier (pre ++ (s, c) :: post))
  = [(s, c)].
Proof.
  assert (Hnone : forall ups earlier s, s ∈ earlier ->
            filter (fun u : string * string => fst u = s)
                   (invoked_updates names earlier ups) = []).
  { intros ups earlier s Hs.
    assert (Hall : forall u, u ∈ invoked_updates names earlier ups -> fst u <> s).
    { intros u Hu Heq. apply invoked_updates_sources in Hu as [_ Hu].
      rewrite Heq in Hu. exact (Hu Hs). }
    induction (invoked_updates names earlier ups) as [|u t IHt]; [reflexivity|].
    rewrite filter_cons_False by (apply Hall; left).
    apply IHt. intros v Hv. apply Hall. right. exact Hv. }
  induction pre as [|v pre IH]; intros earlier s c post Hs He Hp; simpl.
  - rewrite decide_True by done.
    rewrite filter_cons_True by reflexivity.
    rewrite Hnone by left. reflexivity.
  - simpl in Hp. apply not_elem_of_cons in Hp as [Hne Hp].
    destruct (decide (fst v ∈ names /\ fst v ∉ earlier)).
    + rewrite filter_cons_False by congruence.
      apply IH; [exact Hs | | exact Hp]. apply not_elem_of_cons. split; congruence.
    + apply IH; [exact Hs | | exact Hp]. apply not_elem_of_cons. split; congruence.
Qed.

Lemma update_defaults_run rt namespaces updates nss ups p :
  map_result parse_identifier namespaces = Ok nss ->
  map_result parse_identifier updates = Ok ups ->
  Forall (fun u => exists f, import_class rt (snd u) = Ok f
                             /\ (fst u ∈ map fst nss -> returns_normally f)) ups ->
  exists p',
    _update_defaults rt namespaces updates p = (Ok tt, p')
    /\ trace p' = trace p ++ map (fun u => EvCall Updater (snd u))
                                (invoked_updates (map fst nss) [] ups).
Proof.
  intros Hns Hups Hres.
  destruct (updates_loop rt (map fst nss) updates ups []
              (∅ ∪ list_to_set (map fst nss)) p Hups Hres)
    as (S' & p' & Hrun & Htr & _).
  { intros x. rewrite elem_of_union, elem_of_list_to_set.
    split; [intros [Hx|Hx]; [set_solver | split; [exact Hx | intros Hn; inversion Hn]]
           | tauto]. }
  exists p'. split; [|exact Htr].
  unfold _update_defaults.
  erewrite bind_Ok; [|apply (names_loop namespaces nss ∅ p Hns)].
  erewrite bind_Ok; [|exact Hrun]. reflexivity.
Qed.

(** Whatever the updates are, the loop of [_update_defaults] has called
    the hooks that the specification names for the updates it got through,
    and the world is what these calls leave. *)
Lemma updates_loop_any rt (names : list string) updates :
  forall earlier (S : gset string) p,
    (forall x, x ∈ S <-> x ∈ names /\ x ∉ earlier) ->
    exists r p' n ups,
      for_fold updates S
        (fun names update =>
           '(name, cls) ← lift (unpack2 (Str.split Str.colon update));
           func ← lift (import_class rt cls);
           if decide (name ∈ names) then
             call Updater func;;
             mret (names ∖ {[name]})
           else mret names) p
      = (r, p')
      /\ map_result parse_identifier (take n updates) = Ok ups
      /\ trace p' = trace p ++ map (fun u => EvCall Updater (snd u))
                                  (invoked_updates names earlier ups)
      /\ world p' = after_hooks rt (invoked_updates names earlier ups) (world p)
      /\ (is_ok r = true -> n = length updates).
Proof.
  induction updates as [|u rest IH]; intros earlier S p HS.
  - exists (Ok S), p, 0%nat, []. simpl. rewrite app_nil_r. repeat split.
  - cbn [for_fold].
    destruct (parse_identifier u) as [[name cls]|e] eqn:Hn.
    2:{ exists (Raise e), p, 0%nat, []. simpl. rewrite app_nil_r.
        split; [|repeat split; discriminate].
        eapply bind_Raise. eapply bind_Raise. unfold lift.
        change (unpack2 (Str.split Str.colon u)) with (parse_identifier u).
        rewrite Hn. reflexivity. }
    assert (Hparse : lift (unpack2 (Str.split Str.colon u)) p = (Ok (name, cls), p)).
    { unfold lift.
      change (unpack2 (Str.split Str.colon u)) with (parse_identifier u).
      rewrite Hn. reflexivity. }
    destruct (import_class rt cls) as [f|e] eqn:Hf.
    2:{ exists (Raise e), p, 0%nat, []. simpl. rewrite app_nil_r.
        split; [|repeat split; discriminate].
        eapply bind_Raise. erewrite bind_Ok; [|exact Hparse]. cbv beta iota.
        eapply bind_Raise. unfold lift. rewrite Hf. reflexivity. }
    pose proof (import_class_locator rt _ _ Hf) as Hloc.
    destruct (decide (name ∈ S)) as [Hin|Hnin].
    + destruct (fn_body f (world p)) as [res w] eqn:Hbody.
      set (p1 := set_world w (add_event (EvCall Updater cls) p)).
      assert (Hcall : call Updater f p = (res, p1)).
      { unfold call. rewrite Hbody, Hloc. reflexivity. }
      assert (Hw : after_call rt cls (world p) = w).
      { unfold after_call. rewrite Hf, Hbody. reflexivity. }
      destruct res as [opts|e].
      * destruct (IH (name :: earlier) (S ∖ {[name]}) p1)
          as (r & p' & n & ups & Hrun & Hups & Htr & Hwd & Hok).
        { intros x. rewrite elem_of_difference, elem_of_singleton,
            not_elem_of_cons, HS. tauto. }
        exists r, p', (Datatypes.S n), ((name, cls) :: ups).
        split; [|split; [|split; [|split]]].
        -- erewrite bind_Ok; [exact Hrun|].
           erewrite bind_Ok; [|exact Hparse]. cbv beta iota.
           erewrite bind_Ok; [|unfold lift; rewrite Hf; reflexivity].
           rewrite decide_True by exact Hin.
           erewrite bind_Ok; [|exact Hcall]. reflexivity.
        -- cbn [take map_result]. rewrite Hn, Hups. reflexivity.
        -- cbn [invoked_updates fst]. rewrite decide_True by (apply HS, Hin).
           rewrite Htr. simpl. rewrite <- app_assoc. reflexivity.
        -- cbn [invoked_updates fst]. rewrite decide_True by (apply HS, Hin).
           rewrite Hwd. unfold after_hooks. cbn [fold_left snd].
           rewrite Hw. reflexivity.
        -- intros Hr. cbn [length]. rewrite (Hok Hr). reflexivity.
      * exists (Raise e), p1, 1%nat, [(name, cls)].
        split; [|split; [|split; [|split]]].
        -- eapply bind_Raise.
           erewrite bind_Ok; [|exact Hparse]. cbv beta iota.
           erewrite bind_Ok; [|unfold lift; rewrite Hf; reflexivity].
           rewrite decide_True by exact Hin.
           eapply bind_Raise. exact Hcall.
        -- cbn [take map_result]. rewrite Hn. reflexivity.
        -- cbn [invoked_updates fst]. rewrite decide_True by (apply HS, Hin).
           reflexivity.
        -- cbn [invoked_updates fst]. rewrite decide_True by (apply HS, Hin).
           unfold after_hooks. cbn [fold_left snd]. rewrite Hw. reflexivity.
        -- discriminate.
    + destruct (IH (name :: earlier) S p)
        as (r & p' & n & ups & Hrun & Hups & Htr & Hwd & Hok).
      { intros x. rewrite not_elem_of_cons, HS. split; [|tauto].
        intros [Hx Hx']. repeat split; try assumption.
        intros ->. apply Hnin, HS. tauto. }
      exists r, p', (Datatypes.S n), ((name, cls) :: ups).
      split; [|split; [|split; [|split]]].
      * erewrite bind_Ok; [exact Hrun|].
        erewrite bind_Ok; [|exact Hparse]. cbv beta iota.
        erewrite bind_Ok; [|unfold lift; rewrite Hf; reflexivity].
        rewrite decide_False by exact Hnin. reflexivity.
      * cbn [take map_result]. rewrite Hn, Hups. reflexivity.
      * cbn [invoked_updates fst].
        rewrite decide_False by (intros Hx; apply Hnin, HS, Hx). exact Htr.
      * cbn [invoked_updates fst].
        rewrite decide_False by (intros Hx; apply Hnin, HS, Hx). exact Hwd.
      * intros Hr. cbn [length]. rewrite (Hok Hr). reflexivity.
Qed.

Lemma update_defaults_any rt namespaces updates nss p :
  map_result parse_identifier namespaces = Ok nss ->
  exists r p' n ups,
    _update_defaults rt namespaces updates p = (r, p')
    /\ map_result parse_identifier (take n updates) = Ok ups
    /\ trace p' = trace p ++ map (fun u => EvCall Updater (snd u))
                                (invoked_updates (map fst nss) [] ups)
    /\ world p' = after_hooks rt (invoked_updates (map fst nss) [] ups) (world p)
    /\ (is_ok r = true -> n = length updates).
Proof.
  intros Hns.
  destruct (updates_loop_any rt (map fst nss) updates []
              (∅ ∪ list_to_set (map fst nss)) p)
    as (r & p' & n & ups & Hrun & Hups & Htr & Hw & Hok).
  { intros x. rewrite elem_of_union, elem_of_list_to_set.
    split; [intros [Hx|Hx]; [set_solver | split; [exact Hx | intros Hn; inversion Hn]]
           | tauto]. }
  exists (match r with Ok _ => Ok tt | Raise e => Raise e end), p', n, ups.
  split; [|split; [exact Hups | split; [exact Htr | split; [exact Hw|]]]].
  - unfold _update_defaults.
    erewrite bind_Ok; [|apply (names_loop namespaces nss ∅ p Hns)].
    destruct r as [S'|e].
    + erewrite bind_Ok; [|exact Hrun]. reflexivity.
    + eapply bind_Raise. exact Hrun.
  - intros Hr. apply Hok. destruct r; [reflexivity | discriminate].
Qed.

(** When moreover every update is well formed, every locator resolves and
    the hooks that are called return, the loop gets through all of them. *)
Lemma update_defaults_run_world rt namespaces updates nss ups p :
  map_result parse_identifier namespaces = Ok nss ->
  map_result parse_identifier updates = Ok ups ->
  Forall (fun u => exists f, import_class rt (snd u) = Ok f
                             /\ (fst u ∈ map fst nss -> returns_normally f)) ups ->
  exists p',
    _update_defaults rt namespaces updates p = (Ok tt, p')
    /\ trace p' = trace p ++ map (fun u => EvCall Updater (snd u))
                                (invoked_updates (map fst nss) [] ups)
    /\ world p' = after_hooks rt (invoked_updates (map fst nss) [] ups) (world p).
Proof.
  intros Hns Hups Hres.
  destruct (update_defaults_run rt namespaces updates nss ups p Hns Hups Hres)
    as (p' & Hrun & Htr).
  destruct (update_defaults_any rt namespaces updates nss p Hns)
    as (r & p'' & n & ups' & Hrun' & Hups' & _ & Hw & Hok).
  rewrite Hrun in Hrun'. injection Hrun' as <- <-.
  rewrite (Hok eq_refl), firstn_all, Hups in Hups'. injection Hups' as <-.
  exists p'. split; [exact Hrun|]. split; [exact Htr | exact Hw].
Qed.



(** ** The namespace loader *)

Lemma split_nonempty sep s : Str.split sep s <> [].
Proof.
  destruct s as [|c r]; simpl; [discriminate|].
  destruct (Ascii.eqb c sep); [discriminate|].
  destruct (Str.split sep r); discriminate.
Qed.

Lemma split_single sep s b :
  Str.split sep s = [b] -> b = s /\ Str.rpartition sep s = None.
Proof.
  revert b. induction s as [|c r IH]; intros b; simpl.
  - intros [= <-]. done.
  - destruct (Ascii.eqb c sep) eqn:Ec.
    + intros [= <- Hr]. exfalso. exact (split_nonempty _ _ Hr).
    + destruct (Str.split sep r) as [|h t] eqn:Er;
        [exfalso; exact (split_nonempty _ _ Er)|].
      intros [= <- ->]. destruct (IH h eq_refl) as [-> ->]. done.
Qed.

Lemma split_length s : length (Str.split Str.colon s) = S (colons s).
Proof.
  induction s as [|c r IH]; [reflexivity|]. simpl.
  destruct (Ascii.eqb c Str.colon); simpl; [rewrite IH; reflexivity|].
  destruct (Str.split Str.colon r) as [|h t] eqn:E;
    [exfalso; exact (split_nonempty _ _ E) | exact IH].
Qed.

(** The identifiers that unpack into two parts are those with exactly one
    colon. *)
Lemma parse_identifier_one_colon s :
  (exists n, parse_identifier s = Ok n) <-> colons s = 1%nat.
Proof.
  unfold parse_identifier. pose proof (split_length s) as Hlen.
  destruct (Str.split Str.colon s) as [|a [|b [|c t]]]; simpl in *; split;
    try (intros [n Hn]; discriminate); try lia; try (intros; eauto).
Qed.

(** An identifier that unpacks into two parts is split at its one colon,
    which is also the split at the first colon from the right. *)
Lemma parse_identifier_rsplit s a b :
  parse_identifier s = Ok (a, b) -> rsplit_identifier s = Some (a, b).
Proof.
  unfold parse_identifier, rsplit_identifier.
  assert (H2 : forall l, unpack2 l = Ok (a, b) -> l = [a; b]).
  { intros [|x [|y [|z t]]]; simpl; congruence. }
  intros Hu. apply H2 in Hu. clear H2. revert a Hu.
  induction s as [|c r IH]; intros a; simpl; [discriminate|].
  destruct (Ascii.eqb c Str.colon) eqn:Ec.
  - intros [= <- Hr]. apply split_single in Hr as [-> ->]. reflexivity.
  - destruct (Str.split Str.colon r) as [|h t] eqn:Er; [discriminate|].
    intros [= <- ->]. rewrite (IH h eq_refl). reflexivity.
Qed.

Section NamespaceLoader.
Context (rt : Runtime).

Lemma load_namespace_default _map groups namespace name cls f p :
  parse_identifier namespace = Ok (name, cls) ->
  import_class rt cls = Ok f -> returns_normally f ->
  is_default name = true ->
  exists opts w,
    load_namespace rt (_map, groups) namespace p
    = (Ok (_map ++ [("DEFAULT", [(GNone, opts)])], groups),
       set_world w (add_event (EvCall Loader cls) p)).
Proof.
  intros Hn Hf Hret Hd. destruct (call_run Loader f p Hret) as (opts & w & _ & Hc).
  rewrite (import_class_locator rt _ _ Hf) in Hc.
  exists opts, w. unfold load_namespace, parse_identifier in *.
  erewrite bind_Ok; [|rewrite Hn; reflexivity]. simpl.
  apply bool_decide_eq_true in Hd. rewrite decide_True by exact Hd.
  erewrite bind_Ok; [|reflexivity]. simpl.
  erewrite bind_Ok; [|rewrite Hf; reflexivity].
  erewrite bind_Ok; [|exact Hc]. reflexivity.
Qed.

Lemma load_namespace_known _map groups namespace name cls f g p :
  parse_identifier namespace = Ok (name, cls) ->
  import_class rt cls = Ok f -> returns_normally f ->
  is_default name = false -> groups !! name = Some g ->
  exists opts w,
    load_namespace rt (_map, groups) namespace p
    = (Ok (_map ++ [(name, [(GObj g, opts)])], groups),
       set_world w (add_event (EvCall Loader cls) p)).
Proof.
  intros Hn Hf Hret Hd Hg. destruct (call_run Loader f p Hret) as (opts & w & _ & Hc).
  rewrite (import_class_locator rt _ _ Hf) in Hc.
  exists opts, w. unfold load_namespace, parse_identifier in *.
  erewrite bind_Ok; [|rewrite Hn; reflexivity]. simpl.
  apply bool_decide_eq_false in Hd. rewrite decide_False by exact Hd.
  rewrite Hg.
  erewrite bind_Ok; [|reflexivity]. simpl.
  erewrite bind_Ok; [|rewrite Hf; reflexivity].
  erewrite bind_Ok; [|exact Hc]. reflexivity.
Qed.

Lemma load_namespace_new _map groups namespace name cls f p :
  parse_identifier namespace = Ok (name, cls) ->
  import_class rt cls = Ok f -> returns_normally f ->
  is_default name = false -> groups !! name = None ->
  let g := mkOptGroup (groups_made p) name None in
  let p1 := mkProc (world p) (S (groups_made p)) (trace p ++ [EvNewGroup name])
                   (diags p) (stdout p) (files p) in
  exists opts w,
    load_namespace rt (_map, groups) namespace p
    = (Ok (_map ++ [(name, [(GObj g, opts)])], <[name := g]> groups),
       set_world w (add_event (EvCall Loader cls) p1)).
Proof.
  intros Hn Hf Hret Hd Hg g p1.
  destruct (call_run Loader f p1 Hret) as (opts & w & _ & Hc).
  rewrite (import_class_locator rt _ _ Hf) in Hc.
  exists opts, w. unfold load_namespace, parse_identifier in *.
  erewrite bind_Ok; [|rewrite Hn; reflexivity]. simpl.
  apply bool_decide_eq_false in Hd. rewrite decide_False by exact Hd.
  rewrite Hg.
  erewrite bind_Ok; [|erewrite bind_Ok; reflexivity]. simpl.
  erewrite bind_Ok; [|rewrite Hf; reflexivity].
  erewrite bind_Ok; [|exact Hc]. reflexivity.
Qed.

Lemma group_for_mono groups groups' name :
  groups ⊆ groups' ->
  (is_default name = false -> is_Some (groups !! name)) ->
  group_for groups' name = group_for groups name.
Proof.
  intros Hsub Hs. unfold group_for. destruct (is_default name); [reflexivity|].
  destruct (Hs eq_refl) as [g Hg]. rewrite Hg.
  rewrite (lookup_weaken _ _ _ _ Hg Hsub). reflexivity.
Qed.

Lemma load_namespaces_run namespaces : forall nss _map groups seen base p,
  map_result parse_identifier namespaces = Ok nss ->
  Forall (fun n => exists f, import_class rt (snd n) = Ok f /\ returns_normally f) nss ->
  memo_ok base groups p ->
  (forall name, is_default name = false ->
                (name ∈ seen <-> is_Some (groups !! name))) ->
  exists new groups' p',
    for_fold namespaces (_map, groups) (load_namespace rt) p
    = (Ok (_map ++ new, groups'), p')
    /\ Forall2 (fun n e => exists opts,
                  e = (canonical_name (fst n), [(group_for groups' (fst n), opts)]))
               nss new
    /\ groups ⊆ groups'
    /\ memo_ok base groups' p'
    /\ (forall name, is_Some (groups' !! name)
                     <-> is_Some (groups !! name)
                         \/ (name ∈ map fst nss /\ is_default name = false))
    /\ trace p' = trace p ++ loader_events seen nss
    /\ same_output p p'.
Proof.
  induction namespaces as [|n r IH]; intros nss _map groups seen base p Hp Hres Hmemo Hseen.
  - apply map_result_nil_Ok in Hp as ->. exists [], groups, p. simpl.
    rewrite !app_nil_r.
    split; [reflexivity|]. split; [constructor|]. split; [done|].
    split; [exact Hmemo|]. split; [|split; [reflexivity | repeat split]].
    intros name. split; [tauto|]. intros [H|[H _]]; [exact H | inversion H].
  - apply map_result_cons_Ok in Hp as ([name cls] & nss' & Hn & Hr & ->).
    apply Forall_cons in Hres as [(f & Hf & Hret) Hres]. simpl in Hf.
    cbn [for_fold loader_events fst snd map].
    destruct (is_default name) eqn:Hd.
    + (* the default section *)
      destruct (load_namespace_default _map groups n name cls f p Hn Hf Hret Hd)
        as (opts & w & Hstep).
      destruct (IH nss' (_map ++ [("DEFAULT", [(GNone, opts)])]) groups
                   (name :: seen) base
                   (set_world w (add_event (EvCall Loader cls) p)) Hr Hres)
        as (new & groups' & p' & Hrun & Hall & Hsub & Hmemo' & Hdom & Htr & Hout).
      { exact Hmemo. }
      { intros name' Hd'. rewrite elem_of_cons, <- Hseen by exact Hd'.
        split; [intros [->|?]; [congruence | done] | tauto]. }
      exists (("DEFAULT", [(GNone, opts)]) :: new), groups', p'.
      split; [|split; [|split; [|split; [|split; [|split]]]]].
      * erewrite bind_Ok; [|exact Hstep]. cbv beta. etrans; [exact Hrun|]. rewrite <- app_assoc. reflexivity.
      * constructor; [|exact Hall]. exists opts. unfold canonical_name, group_for.
        simpl. rewrite Hd. reflexivity.
      * exact Hsub.
      * exact Hmemo'.
      * intros name'. rewrite Hdom, elem_of_cons.
        split; [tauto|]. intros [H|[[->|H] H']]; [tauto | congruence | tauto].
      * rewrite Htr. simpl. rewrite <- app_assoc. reflexivity.
      * exact Hout.
    + destruct (groups !! name) as [g|] eqn:Hg.
      * (* a name met before: the group object is reused *)
        destruct (load_namespace_known _map groups n name cls f g p
                    Hn Hf Hret Hd Hg) as (opts & w & Hstep).
        destruct (IH nss' (_map ++ [(name, [(GObj g, opts)])]) groups
                     (name :: seen) base
                     (set_world w (add_event (EvCall Loader cls) p)) Hr Hres)
          as (new & groups' & p' & Hrun & Hall & Hsub & Hmemo' & Hdom & Htr & Hout).
        { exact Hmemo. }
        { intros name' Hd'. rewrite elem_of_cons, <- Hseen by exact Hd'.
          split; [intros [->|?]; [apply Hseen; eauto | done] | tauto]. }
        exists ((name, [(GObj g, opts)]) :: new), groups', p'.
        split; [|split; [|split; [|split; [|split; [|split]]]]].
        -- erewrite bind_Ok; [|exact Hstep]. cbv beta. etrans; [exact Hrun|]. rewrite <- app_assoc. reflexivity.
        -- constructor; [|exact Hall]. exists opts. unfold canonical_name, group_for.
           simpl. rewrite Hd, (lookup_weaken _ _ _ _ Hg Hsub). reflexivity.
        -- exact Hsub.
        -- exact Hmemo'.
        -- intros name'. rewrite Hdom, elem_of_cons.
           split; [tauto|]. intros [H|[[->|H] H']]; [tauto | eauto | tauto].
        -- rewrite Htr. simpl.
           rewrite bool_decide_eq_true_2 by (apply Hseen; eauto).
           simpl. rewrite <- app_assoc. reflexivity.
        -- exact Hout.
      * (* a new name: a group object is made and remembered *)
        destruct (load_namespace_new _map groups n name cls f p
                    Hn Hf Hret Hd Hg) as (opts & w & Hstep).
        set (g := mkOptGroup (groups_made p) name None) in *.
        set (p1 := mkProc (world p) (S (groups_made p)) (trace p ++ [EvNewGroup name])
                          (diags p) (stdout p) (files p)) in *.
        destruct Hmemo as (Hm1 & Hm2 & Hm3).
        destruct (IH nss' (_map ++ [(name, [(GObj g, opts)])]) (<[name := g]> groups)
                     (name :: seen) base
                     (set_world w (add_event (EvCall Loader cls) p1)) Hr Hres)
          as (new & groups' & p' & Hrun & Hall & Hsub & Hmemo' & Hdom & Htr & Hout).
        { split; [|split].
          - intros name' g'. rewrite lookup_insert.
            destruct (decide (name = name')) as [<-|Hne].
            + intros [= <-]. simpl. repeat split; try done; lia.
            + intros Hg'. destruct (Hm1 _ _ Hg') as (? & ? & ? & ?).
              simpl. repeat split; try done; lia.
          - intros n1 n2 g1 g2. rewrite !lookup_insert.
            destruct (decide (name = n1)) as [<-|Hne1];
              destruct (decide (name = n2)) as [<-|Hne2]; try done.
            + intros [= <-] Hg2 Hid. destruct (Hm1 _ _ Hg2) as (_ & _ & _ & ?).
              simpl in Hid. lia.
            + intros Hg1 [= <-] Hid. destruct (Hm1 _ _ Hg1) as (_ & _ & _ & ?).
              simpl in Hid. lia.
            + apply Hm2.
          - simpl. rewrite map_size_insert_None by exact Hg. lia. }
        { intros name' Hd'. rewrite elem_of_cons, lookup_insert.
          destruct (decide (name = name')) as [<-|Hne].
          - split; [eauto | tauto].
          - rewrite <- Hseen by exact Hd'. split; [intros [->|?]; done | tauto]. }
        assert (Hgl : groups' !! name = Some g).
        { apply (lookup_weaken _ _ _ _ (lookup_insert_eq groups name g) Hsub). }
        exists ((name, [(GObj g, opts)]) :: new), groups', p'.
        split; [|split; [|split; [|split; [|split; [|split]]]]].
        -- erewrite bind_Ok; [|exact Hstep]. cbv beta. etrans; [exact Hrun|]. rewrite <- app_assoc. reflexivity.
        -- constructor; [|exact Hall]. exists opts. unfold canonical_name, group_for.
           simpl. rewrite Hd, Hgl. reflexivity.
        -- etrans; [|exact Hsub]. apply insert_subseteq, Hg.
        -- exact Hmemo'.
        -- intros name'. rewrite Hdom, elem_of_cons, lookup_insert.
           destruct (decide (name = name')) as [<-|Hne].
           ++ split; [intros _; right; tauto | intros _; left; eauto].
           ++ split; [tauto|]. intros [H|[[->|H] H']]; [tauto | done | tauto].
        -- rewrite Htr. simpl.
           rewrite bool_decide_eq_false_2.
           ++ simpl. rewrite <- !app_assoc. reflexivity.
           ++ intros Hin. apply Hseen in Hin; [|exact Hd].
              rewrite Hg in Hin. destruct Hin. discriminate.
        -- exact Hout.
Qed.

End NamespaceLoader.

Lemma map_result_Forall2 {A B} (f : A -> Result B) l : forall ys,
  map_result f l = Ok ys -> Forall2 (fun x y => f x = Ok y) l ys.
Proof.
  induction l as [|x r IH]; intros ys Hm.
  - apply map_result_nil_Ok in Hm as ->. constructor.
  - apply map_result_cons_Ok in Hm as (y & ys' & Hx & Hr & ->).
    constructor; [exact Hx | apply IH, Hr].
Qed.

(** C8, as the code has it. An identifier with exactly one colon unpacks
    into (name, locator): it is split at that colon, which is also the
    split at the first colon from the right. Given such identifiers, with
    locators that resolve to loaders that return, the loader returns one
    entry per identifier, in order: under the name 'DEFAULT' and with no
    group object when the name case-insensitively equals "default",
    otherwise under the name itself with the group object that the memo
    table of the run holds for that name. The table holds one group object
    per distinct non-default name, named by it, and distinct names have
    distinct objects: an object is made at the first use of a name and
    reused afterwards. *)
Theorem C8_loader_splits_and_memoizes
    (rt : Runtime) (namespaces : list string) (nss : list (string * string))
    (p : Proc) :
  map_result parse_identifier namespaces = Ok nss ->
  Forall (fun n => exists f, import_class rt (snd n) = Ok f /\ returns_normally f) nss ->
  exists listing (groups : gmap string OptGroup) p',
    _get_raw_opts_loaders rt namespaces p = (Ok listing, p')
    /\ Forall2 (fun identifier n => rsplit_identifier identifier = Some n) namespaces nss
    /\ Forall2 (fun n e => exists opts,
                  e = (canonical_name (fst n), [(group_for groups (fst n), opts)]))
               nss listing
    /\ (forall name, is_Some (groups !! name)
                     <-> name ∈ map fst nss /\ is_default name = false)
    /\ (forall name g, groups !! name = Some g -> og_name g = name /\ og_help g = None)
    /\ (forall n1 n2 g1 g2, groups !! n1 = Some g1 -> groups !! n2 = Some g2 ->
          og_id g1 = og_id g2 -> n1 = n2)
    /\ groups_made p' = (groups_made p + size groups)%nat
    /\ trace p' = trace p ++ loader_events [] nss.
Proof.
  intros Hp Hres.
  destruct (load_namespaces_run rt namespaces nss [] ∅ [] (groups_made p) p Hp Hres)
    as (new & groups & p' & Hrun & Hall & _ & (Hm1 & Hm2 & Hm3) & Hdom & Htr & _).
  { split; [|split].
    - intros name g Hg. rewrite lookup_empty in Hg. discriminate.
    - intros n1 n2 g1 g2 Hg. rewrite lookup_empty in Hg. discriminate.
    - rewrite map_size_empty. lia. }
  { intros name _. rewrite lookup_empty. split; [intros H; inversion H|].
    intros [? ?]. discriminate. }
  exists new, groups, p'. split; [|split; [|split; [|split; [|split; [|split; [|split]]]]]].
  - unfold _get_raw_opts_loaders. erewrite bind_Ok; [|exact Hrun]. reflexivity.
  - eapply Forall2_impl; [apply map_result_Forall2, Hp|].
    intros identifier [a b]. apply parse_identifier_rsplit.
  - exact Hall.
  - intros name. rewrite Hdom, lookup_empty. split; [|tauto].
    intros [[? ?]|?]; [discriminate | tauto].
  - intros name g Hg. destruct (Hm1 _ _ Hg) as (? & ? & _). done.
  - exact Hm2.
  - exact Hm3.
  - exact Htr.
Qed.

Lemma C8_witness :
  exists listing g p',
    _get_raw_opts_loaders Sample.runtime
      ["lib:lib.list_opts"; "Default:lib.list_opts"; "lib:lib.list_opts"]
      Sample.start = (Ok listing, p')
    /\ listing = [("lib", [(GObj g, [0])]); ("DEFAULT", [(GNone, [0])]);
                  ("lib", [(GObj g, [0])])]
    /\ og_name g = "lib"
    /\ groups_made p' = 1.
Proof.
  destruct (C8_loader_splits_and_memoizes Sample.runtime
              ["lib:lib.list_opts"; "Default:lib.list_opts"; "lib:lib.list_opts"]
              [("lib", "lib.list_opts"); ("Default", "lib.list_opts");
               ("lib", "lib.list_opts")]
              Sample.start) as (listing & groups & p' & Hrun & _).
  - reflexivity.
  - repeat constructor;
      (exists (mkPyFunc "lib.list_opts" Sample.lib_list_opts);
       split; [vm_compute; reflexivity | intros w; reflexivity]).
  - exists listing, (mkOptGroup 0 "lib" None), p'.
    split; [exact Hrun|].
    vm_compute in Hrun. injection Hrun as <- <-. repeat split.
Defined.

(** On an identifier with two colons the split from the right, which the
    specification describes, gives a name and a locator that resolves; the
    loader raises instead of listing the namespace. *)
Lemma C8_counterexample :
  rsplit_identifier "x:y:lib.list_opts" = Some ("x:y", "lib.list_opts")
  /\ is_ok (import_class Sample.runtime "lib.list_opts") = true
  /\ fst (_get_raw_opts_loaders Sample.runtime ["x:y:lib.list_opts"] Sample.start)
     = Raise (mkExc ValueError "too many values to unpack").
Proof. vm_compute. repeat split. Qed.

(** ** Effects of the formatter *)

Lemma add_diags_app d1 d2 p : add_diags d2 (add_diags d1 p) = add_diags (d1 ++ d2) p.
Proof. unfold add_diags. simpl. rewrite app_assoc. reflexivity. Qed.

Lemma add_diags_nil p : add_diags [] p = p.
Proof. destruct p. unfold add_diags. simpl. rewrite app_nil_r. reflexivity. Qed.

Lemma log_only_ret {A} (a : A) : log_only (mret a).
Proof. exists [], (Ok a). intros p. rewrite add_diags_nil. reflexivity. Qed.

Lemma log_only_lift {A} (r : Result A) : log_only (lift r).
Proof. exists [], r. intros p. rewrite add_diags_nil. reflexivity. Qed.

Lemma log_only_log d : log_only (log d).
Proof. exists [d], (Ok tt). reflexivity. Qed.

Lemma log_only_bind {A B} (m : M A) (f : A -> M B) :
  log_only m -> (forall a, log_only (f a)) -> log_only (m ≫= f).
Proof.
  intros (ds & r & Hm) Hf. destruct r as [a|e].
  - destruct (Hf a) as (ds' & r' & Hfa). exists (ds ++ ds'), r'. intros p.
    erewrite bind_Ok; [|apply Hm]. rewrite Hfa, add_diags_app. reflexivity.
  - exists ds, (Raise e). intros p. erewrite bind_Raise; [|apply Hm]. reflexivity.
Qed.

Lemma log_only_try_except_attribute_error {A} (m : M A) (handler : Exc -> M A) :
  log_only m -> (forall e, log_only (handler e)) ->
  log_only (try_except_attribute_error m handler).
Proof.
  intros (ds & r & Hm) Hh. unfold try_except_attribute_error.
  destruct r as [a|e].
  - exists ds, (Ok a). intros p. rewrite Hm. reflexivity.
  - destruct (decide (exc_class e = AttributeError)) as [He|He].
    + destruct (Hh e) as (ds' & r' & Hhe). exists (ds ++ ds'), r'. intros p.
      rewrite Hm, decide_True by exact He. rewrite Hhe, add_diags_app. reflexivity.
    + exists ds, (Raise e). intros p. rewrite Hm, decide_False by exact He.
      reflexivity.
Qed.

Lemma log_only_effect {A} (m : M A) :
  log_only m -> forall p, m p = (snd (effect_of m), add_diags (fst (effect_of m)) p).
Proof.
  intros (ds & r & Hm) p. unfold effect_of. rewrite (Hm blank), (Hm p). reflexivity.
Qed.

Ltac log_only_step :=
  first [ apply log_only_ret | apply log_only_lift | apply log_only_log
        | apply log_only_try_except_attribute_error
        | apply log_only_bind ].

Section FormatterEffects.
Context (rt : Runtime).

Lemma format_defaults_log_only opt : log_only (_format_defaults rt opt).
Proof.
  unfold _format_defaults.
  repeat first [ log_only_step | intros [[? ?] ?] | intros [? ?] | intros ?
               | match goal with
                 | |- log_only (if ?b then _ else _) => destruct b
                 | |- log_only (match ?x with _ => _ end) => destruct x
                 end ].
Qed.

Lemma format_lines_log_only f opt : log_only (format_lines rt f opt).
Proof.
  unfold format_lines.
  repeat first [ apply format_defaults_log_only | log_only_step
               | intros [[? ?] ?] | intros [? ?] | intros ?
               | match goal with
                 | |- log_only (if ?b then _ else _) => destruct b
                 | |- log_only (match ?x with _ => _ end) => destruct x
                 end ].
Qed.

End FormatterEffects.

(** ** What a section writes *)

Lemma written_add_written k l p : written k (add_written k l p) = written k p ++ l.
Proof.
  destruct k as [|path]; simpl; [reflexivity|].
  rewrite lookup_insert_eq. reflexivity.
Qed.

Lemma emits_refl k p : emits k [] [] p p.
Proof. unfold emits, same_state. rewrite !app_nil_r. done. Qed.

Lemma emits_trans k ws1 ds1 ws2 ds2 p p1 p2 :
  emits k ws1 ds1 p p1 -> emits k ws2 ds2 p1 p2 ->
  emits k (ws1 ++ ws2) (ds1 ++ ds2) p p2.
Proof.
  unfold emits, same_state.
  intros (Hw1 & Hd1 & Hwo1 & Hg1 & Ht1) (Hw2 & Hd2 & Hwo2 & Hg2 & Ht2).
  rewrite Hw2, Hw1, Hd2, Hd1, Hwo2, Hg2, Ht2, !app_assoc. done.
Qed.

Lemma emits_add_written k ws p : emits k ws [] p (add_written k ws p).
Proof.
  unfold emits, same_state. rewrite written_add_written, app_nil_r.
  destruct k; done.
Qed.

Lemma emits_add_diags k ds p : emits k [] ds p (add_diags ds p).
Proof.
  unfold emits, same_state. rewrite app_nil_r. destruct k; done.
Qed.

Lemma emits_world k ws ds p p' : emits k ws ds p p' -> world p' = world p.
Proof. intros (_ & _ & H & _). exact H. Qed.

Lemma for_each_emits {A} k (body : A -> M unit)
    (W : World -> A -> list string) (D : World -> A -> list Diag) :
  (forall x p, exists p', body x p = (Ok tt, p')
                          /\ emits k (W (world p) x) (D (world p) x) p p') ->
  forall l p, exists p',
    for_each l body p = (Ok tt, p')
    /\ emits k (flat_map (W (world p)) l) (flat_map (D (world p)) l) p p'.
Proof.
  intros Hbody. induction l as [|x r IH]; intros p; simpl.
  - exists p. split; [reflexivity | apply emits_refl].
  - destruct (Hbody x p) as (p1 & Hx & Hex).
    destruct (IH p1) as (p2 & Hr & Her).
    exists p2. split.
    + erewrite bind_Ok; [|exact Hx]. exact Hr.
    + rewrite (emits_world _ _ _ _ _ Hex) in Her.
      eapply emits_trans; [exact Hex | exact Her].
Qed.

Section SectionOutput.
Context (rt : Runtime) (f : Formatter).

Lemma output_opt_run (r : Ref) p :
  exists p',
    output_opt rt f r p = (Ok tt, p')
    /\ emits (output_file f) (opt_chunks rt f (w_objs (world p) r))
             (opt_diags rt f (w_objs (world p) r)) p p'.
Proof.
  set (k := output_file f). set (o := w_objs (world p) r).
  set (p1 := add_written k [nl] p).
  assert (Hw1 : world p1 = world p) by (unfold p1; destruct k; reflexivity).
  pose proof (log_only_effect _ (format_lines_log_only rt f o)) as Hfmt.
  unfold output_opt, opt_chunks, opt_diags. fold o.
  destruct (effect_of (format_lines rt f o)) as [ds res]. simpl in *.
  destruct res as [lines|err].
  - exists (add_written k lines (add_diags ds p1)). split.
    + erewrite bind_Ok; [|reflexivity]. unfold try_except.
      erewrite (bind_Ok (deref r)); [|reflexivity].
      fold k p1. rewrite Hw1. fold o. unfold format.
      erewrite bind_Ok; [|apply Hfmt]. reflexivity.
    + pose proof (emits_trans _ _ _ _ _ _ _ _ (emits_add_written k [nl] p)
                    (emits_trans _ _ _ _ _ _ _ _ (emits_add_diags k ds p1)
                       (emits_add_written k lines (add_diags ds p1)))) as H.
      simpl in H. rewrite app_nil_r in H. exact H.
  - set (p2 := add_diags ds p1).
    assert (Hw2 : world p2 = world p) by (unfold p2; exact Hw1).
    exists (add_written k ["# " +:+ exc_text err +:+ nl]
              (add_written k ["# Warning: Failed to format sample for "
                              +:+ opt_dest o +:+ nl] p2)).
    split.
    + erewrite bind_Ok; [|reflexivity]. unfold try_except.
      erewrite (bind_Ok (deref r)); [|reflexivity].
      fold k p1. rewrite Hw1. fold o. unfold format.
      erewrite bind_Raise; [|apply Hfmt]. fold p2.
      erewrite (bind_Ok (deref r)); [|reflexivity]. rewrite Hw2. fold o.
      erewrite bind_Ok; [|reflexivity]. reflexivity.
    + pose proof (emits_trans _ _ _ _ _ _ _ _ (emits_add_written k [nl] p)
                    (emits_trans _ _ _ _ _ _ _ _ (emits_add_diags k ds p1)
                       (emits_trans _ _ _ _ _ _ _ _
                          (emits_add_written k
                             ["# Warning: Failed to format sample for "
                              +:+ opt_dest o +:+ nl] p2)
                          (emits_add_written k ["# " +:+ exc_text err +:+ nl] _))))
        as H.
      simpl in H. rewrite app_nil_r in H. exact H.
Qed.

Lemma output_opts_run (key : SectionKey) (namespaces : list (string * list Ref)) p :
  exists p',
    _output_opts rt f key namespaces p = (Ok tt, p')
    /\ emits (output_file f)
             (section_chunks rt f (w_objs (world p)) key namespaces)
             (section_diags rt f (w_objs (world p)) namespaces) p p'.
Proof.
  set (k := output_file f).
  set (p1 := add_written k (format_group_lines rt f key) p).
  assert (Hw1 : world p1 = world p) by (unfold p1; destruct k; reflexivity).
  destruct (for_each_emits k
              (fun entry : string * list Ref =>
                 let '(namespace, opts) := entry in
                 write f (nl +:+ "#" +:+ nl +:+ "# From " +:+ namespace +:+ nl
                          +:+ "#" +:+ nl);;
                 for_each opts (output_opt rt f))
              (fun w => block_chunks rt f (w_objs w))
              (fun w => block_diags rt f (w_objs w))) with
    (l := py_sorted fst namespaces) (p := p1) as (p2 & Hrun & Hem).
  { intros [namespace opts] q.
    destruct (for_each_emits k (output_opt rt f)
                (fun w r => opt_chunks rt f (w_objs w r))
                (fun w r => opt_diags rt f (w_objs w r))
                (fun r q' => output_opt_run r q') opts
                (add_written k [banner namespace] q)) as (q2 & Hq & Hqe).
    exists q2. split.
    - erewrite bind_Ok; [|reflexivity]. exact Hq.
    - assert (Hwq : world (add_written k [banner namespace] q) = world q)
        by (destruct k; reflexivity).
      rewrite Hwq in Hqe. unfold block_chunks, block_diags. simpl.
      change (banner namespace :: ?l) with ([banner namespace] ++ l).
      rewrite <- (app_nil_l (flat_map (fun r => opt_diags rt f (w_objs (world q) r)) opts)).
      eapply emits_trans; [apply emits_add_written | exact Hqe]. }
  exists p2. split.
  - unfold _output_opts, format_group.
    erewrite bind_Ok; [|reflexivity]. exact Hrun.
  - rewrite Hw1 in Hem. unfold section_chunks, section_diags.
    rewrite <- (app_nil_l (flat_map (block_diags rt f (w_objs (world p))) _)).
    eapply emits_trans; [apply emits_add_written | exact Hem].
Qed.

End SectionOutput.

(** ** The order of byte strings and [sorted] *)

Lemma compare_as_OT a b : String.compare a b = String_as_OT.compare a b.
Proof.
  revert b. induction a as [|c a IH]; intros [|d b]; simpl; try reflexivity.
  all: rewrite IH; unfold Ascii.compare, Ascii_as_OT.compare;
    destruct (N.compare _ _); reflexivity.
Qed.

Lemma str_le_iff a b : Str.le a b <-> a = b \/ String_as_OT.lt a b.
Proof.
  unfold Str.le, String.leb, String_as_OT.lt. rewrite compare_as_OT.
  destruct (String_as_OT.compare_spec a b) as [H|H|H].
  - split; [intros _; left; exact H | reflexivity].
  - split; [intros _; right; reflexivity | reflexivity].
  - split; [discriminate|]. intros [->|Hlt]; [|discriminate].
    exfalso. exact (irreflexivity String_as_OT.lt _ H).
Qed.

Lemma str_le_refl a : Str.le a a.
Proof. apply str_le_iff. left. reflexivity. Qed.

Lemma str_le_trans a b c : Str.le a b -> Str.le b c -> Str.le a c.
Proof.
  rewrite !str_le_iff. intros [->|H1] [->|H2]; try tauto.
  right. etrans; eassumption.
Qed.

Lemma str_le_total a b : Str.le a b \/ Str.le b a.
Proof. apply String.leb_total. Qed.

Lemma str_le_antisym a b : Str.le a b -> Str.le b a -> a = b.
Proof. apply String.leb_antisym. Qed.

Section Sorted.
Context {A : Type} (key : A -> string).

Lemma insert_by_Permutation x l : insert_by key x l ≡ₚ x :: l.
Proof.
  induction l as [|y r IH]; simpl; [reflexivity|].
  destruct (String.leb (key x) (key y)); [reflexivity|].
  rewrite IH. apply Permutation_swap.
Qed.

Lemma py_sorted_Permutation l : py_sorted key l ≡ₚ l.
Proof.
  induction l as [|x r IH]; simpl; [reflexivity|].
  rewrite insert_by_Permutation, IH. reflexivity.
Qed.

Lemma insert_by_sorted x l :
  StronglySorted (key_le key) l -> StronglySorted (key_le key) (insert_by key x l).
Proof.
  induction 1 as [|y r Hr IH Hy]; simpl.
  - repeat constructor.
  - destruct (String.leb (key x) (key y)) eqn:Hxy.
    + constructor; [constructor; assumption|].
      constructor; [exact Hxy|].
      eapply Forall_impl; [exact Hy|]. intros z Hz.
      eapply str_le_trans; [exact Hxy | exact Hz].
    + constructor; [exact IH|].
      rewrite insert_by_Permutation. constructor; [|exact Hy].
      destruct (str_le_total (key x) (key y)) as [H|H]; [|exact H].
      unfold Str.le in H. congruence.
Qed.

Lemma py_sorted_sorted l : StronglySorted (key_le key) (py_sorted key l).
Proof.
  induction l as [|x r IH]; simpl; [constructor | apply insert_by_sorted, IH].
Qed.

(** With distinct keys the sorted list does not depend on the order of the
    input. *)
Lemma py_sorted_order_independent l1 l2 :
  l1 ≡ₚ l2 -> NoDup (map key l1) -> py_sorted key l1 = py_sorted key l2.
Proof.
  intros Hp Hnd.
  apply (StronglySorted_unique_strong (key_le key)).
  - intros a b Ha Hb Hab Hba.
    rewrite py_sorted_Permutation in Ha. rewrite py_sorted_Permutation, <- Hp in Hb.
    pose proof (str_le_antisym _ _ Hab Hba) as Hk.
    clear -Ha Hb Hk Hnd. induction l1 as [|c t IH]; [inversion Ha|].
    simpl in Hnd. apply NoDup_cons in Hnd as [Hc Hnd].
    assert (Hin : forall z, z ∈ t -> key z ∈ map key t).
    { intros z Hz. apply list_elem_of_In, in_map, list_elem_of_In, Hz. }
    apply elem_of_cons in Ha as [->|Ha]; apply elem_of_cons in Hb as [->|Hb].
    + reflexivity.
    + exfalso. apply Hc. rewrite Hk. apply Hin, Hb.
    + exfalso. apply Hc. rewrite <- Hk. apply Hin, Ha.
    + apply IH; assumption.
  - apply py_sorted_sorted.
  - apply py_sorted_sorted.
  - rewrite !py_sorted_Permutation. exact Hp.
Qed.

End Sorted.

(** ** The section writer *)

Lemma format_raises rt f o p err :
  fst (format rt f o p) = Raise err ->
  snd (effect_of (format_lines rt f o)) = Raise err.
Proof.
  unfold format. pose proof (log_only_effect _ (format_lines_log_only rt f o) p) as H.
  destruct (snd (effect_of (format_lines rt f o))) as [lines|e].
  - erewrite bind_Ok; [|exact H]. discriminate.
  - erewrite bind_Raise; [|exact H]. simpl. congruence.
Qed.

Lemma format_lines_ok rt f o q lines :
  fst (format_lines rt f o q) = Ok lines ->
  snd (effect_of (format_lines rt f o)) = Ok lines.
Proof.
  rewrite (log_only_effect _ (format_lines_log_only rt f o) q). simpl. done.
Qed.

(** C6. When formatting one option of a section raises, [_output_opts]
    still returns. It has written the header and the blocks of the section
    in order; in the block of the option, after its banner and the options
    before it, a blank line, the line
    '# Warning: Failed to format sample for <dest>' and a comment line with
    the text of the error stand in place of the option, and every later
    option of the block and every later block follow, each option with the
    lines its own formatting gives. *)
Theorem C6_bad_option_is_replaced_by_warning
    (rt : Runtime) (f : Formatter) (key : SectionKey)
    (namespaces : list (string * list Ref)) (ns : string)
    (pre post : list Ref) (bad : Ref) (err : Exc) (p : Proc) :
  (ns, pre ++ bad :: post) ∈ namespaces ->
  fst (format rt f (w_objs (world p) bad) p) = Raise err ->
  exists p' earlier later,
    _output_opts rt f key namespaces p = (Ok tt, p')
    /\ earlier ++ (ns, pre ++ bad :: post) :: later ≡ₚ namespaces
    /\ written (output_file f) p'
       = written (output_file f) p
         ++ format_group_lines rt f key
         ++ flat_map (block_chunks rt f (w_objs (world p))) earlier
         ++ banner ns
            :: flat_map (fun r => opt_chunks rt f (w_objs (world p) r)) pre
         ++ [nl;
             "# Warning: Failed to format sample for "
               +:+ opt_dest (w_objs (world p) bad) +:+ nl;
             "# " +:+ exc_text err +:+ nl]
         ++ flat_map (fun r => opt_chunks rt f (w_objs (world p) r)) post
         ++ flat_map (block_chunks rt f (w_objs (world p))) later
    /\ (forall r lines q,
          fst (format_lines rt f (w_objs (world p) r) q) = Ok lines ->
          opt_chunks rt f (w_objs (world p) r) = nl :: lines).
Proof.
  intros Hin Hbad.
  destruct (output_opts_run rt f key namespaces p) as (p' & Hrun & Hw & _).
  apply format_raises in Hbad.
  rewrite <- (py_sorted_Permutation fst) in Hin.
  apply list_elem_of_split in Hin as (l1 & l2 & Hsplit).
  exists p', l1, l2.
  split; [exact Hrun|]. split; [|split].
  - rewrite <- Hsplit. apply py_sorted_Permutation.
  - rewrite Hw. unfold section_chunks. rewrite Hsplit, flat_map_app.
    cbn [flat_map]. unfold block_chunks at 2. cbn [fst snd].
    rewrite flat_map_app. cbn [flat_map]. unfold opt_chunks at 2.
    rewrite Hbad. unfold warning_lines.
    repeat (rewrite <- app_assoc || rewrite <- app_comm_cons).
    reflexivity.
  - intros r lines q Hq. unfold opt_chunks.
    rewrite (format_lines_ok _ _ _ _ _ Hq). reflexivity.
Qed.

Lemma C6_witness :
  exists p',
    _output_opts Sample.runtime Sample.to_stdout (KName "DEFAULT")
      [("lib", [0; 1; 2])] Sample.mixed_proc = (Ok tt, p')
    /\ stdout p'
       = ["[DEFAULT]" +:+ nl; banner "lib";
          nl; "# help (string value)" +:+ nl; "#host = localhost" +:+ nl;
          nl; "# Warning: Failed to format sample for token" +:+ nl;
          "# isinstance() arg 2 must be a class, type, or tuple of classes and types"
            +:+ nl;
          nl; "# help (string value)" +:+ nl; "#port = 80" +:+ nl].
Proof.
  destruct (C6_bad_option_is_replaced_by_warning
              Sample.runtime Sample.to_stdout (KName "DEFAULT")
              [("lib", [0; 1; 2])] "lib" [0] [2] 1
              (mkExc TypeError
                 "isinstance() arg 2 must be a class, type, or tuple of classes and types")
              Sample.mixed_proc)
    as (p' & earlier & later & Hrun & Hperm & Hw & _).
  - apply list_elem_of_singleton. reflexivity.
  - vm_compute. reflexivity.
  - exists p'. split; [exact Hrun|].
    symmetry in Hperm. apply Permutation_length_1_inv in Hperm.
    destruct earlier as [|e earlier];
      [|destruct earlier; discriminate Hperm].
    injection Hperm as ->. exact Hw.
Defined.

(** C10. [_output_opts] writes the header of the section and then one
    block per namespace entry, the blocks in the byte-wise order of their
    namespace names whatever the order of the entries given, each block
    opened by its '# From <namespace>' banner and holding its options in
    order. When the namespace names are distinct the output is the same for
    every order of the entries. *)
Theorem C10_blocks_sorted_by_namespace
    (rt : Runtime) (f : Formatter) (key : SectionKey)
    (namespaces : list (string * list Ref)) (p : Proc) :
  exists p' blocks,
    _output_opts rt f key namespaces p = (Ok tt, p')
    /\ blocks ≡ₚ namespaces
    /\ StronglySorted (key_le fst) blocks
    /\ written (output_file f) p'
       = written (output_file f) p ++ format_group_lines rt f key
         ++ flat_map
              (fun e => (nl +:+ "#" +:+ nl +:+ "# From " +:+ fst e +:+ nl +:+ "#" +:+ nl)
                        :: flat_map (fun r => opt_chunks rt f (w_objs (world p) r))
                                    (snd e))
              blocks
    /\ (forall namespaces',
          namespaces' ≡ₚ namespaces -> NoDup (map fst namespaces) ->
          _output_opts rt f key namespaces' p = _output_opts rt f key namespaces p).
Proof.
  destruct (output_opts_run rt f key namespaces p) as (p' & Hrun & Hw & _).
  exists p', (py_sorted fst namespaces).
  split; [exact Hrun|]. split; [apply py_sorted_Permutation|].
  split; [apply py_sorted_sorted|]. split; [exact Hw|].
  intros namespaces' Hperm Hnd. unfold _output_opts.
  rewrite (py_sorted_order_independent fst namespaces namespaces');
    [reflexivity | symmetry; exact Hperm | exact Hnd].
Qed.

Lemma C10_witness :
  exists p',
    _output_opts Sample.runtime Sample.to_stdout (KName "DEFAULT")
      [("zoo", [2]); ("lib", [0])] Sample.mixed_proc = (Ok tt, p')
    /\ _output_opts Sample.runtime Sample.to_stdout (KName "DEFAULT")
         [("lib", [0]); ("zoo", [2])] Sample.mixed_proc = (Ok tt, p')
    /\ stdout p'
       = ["[DEFAULT]" +:+ nl;
          banner "lib"; nl; "# help (string value)" +:+ nl; "#host = localhost" +:+ nl;
          banner "zoo"; nl; "# help (string value)" +:+ nl; "#port = 80" +:+ nl].
Proof.
  destruct (C10_blocks_sorted_by_namespace Sample.runtime Sample.to_stdout
              (KName "DEFAULT") [("zoo", [2]); ("lib", [0])] Sample.mixed_proc)
    as (p' & blocks & Hrun & _ & _ & _ & Hperm).
  exists p'. split; [exact Hrun|]. split.
  - rewrite <- Hrun. apply Hperm.
    + apply Permutation_swap.
    + vm_compute. repeat constructor; set_solver.
  - vm_compute in Hrun. injection Hrun as <-. reflexivity.
Defined.

(** ** Default values *)

Lemma lstrip_length s : (String.length (Str.lstrip s) <= String.length s)%nat.
Proof.
  induction s as [|c r IH]; simpl; [lia|].
  destruct (Str.is_space c); simpl; lia.
Qed.

Lemma rstrip_length s : (String.length (Str.rstrip s) <= String.length s)%nat.
Proof.
  induction s as [|c r IH]; simpl; [lia|].
  destruct (Str.rstrip r); [destruct (Str.is_space c)|]; simpl in *; lia.
Qed.

Lemma rstrip_fixed_iff s :
  Str.rstrip s = s
  <-> match Str.last_char s with Some b => Str.is_space b = false | None => True end.
Proof.
  induction s as [|c r IH]; [done|].
  destruct r as [|d r'].
  - simpl. destruct (Str.is_space c); split; done.
  - change (Str.last_char (String c (String d r'))) with (Str.last_char (String d r')).
    rewrite <- IH. change (Str.rstrip (String c (String d r')))
      with (match Str.rstrip (String d r') with
            | EmptyString => if Str.is_space c then EmptyString else String c EmptyString
            | r0 => String c r0
            end).
    destruct (Str.rstrip (String d r')) as [|e t] eqn:E.
    + split; [|discriminate]. destruct (Str.is_space c); discriminate.
    + split; congruence.
Qed.

Lemma strip_fixed_iff s : Str.strip s = s <-> padded s = false.
Proof.
  unfold Str.strip, padded. destruct s as [|c r]; [done|].
  cbn [Str.first_char Str.lstrip].
  destruct (Str.is_space c) eqn:Hc.
  - split.
    + intros H. exfalso.
      pose proof (rstrip_length (Str.lstrip r)) as H1.
      pose proof (lstrip_length r) as H2.
      rewrite H in H1. simpl in H1. lia.
    + destruct (Str.last_char (String c r)) eqn:E; simpl; [discriminate|].
      exfalso. clear -E. revert c E. induction r as [|d r IH]; intros c E;
        [discriminate | exact (IH d E)].
  - rewrite rstrip_fixed_iff.
    destruct (Str.last_char (String c r)) as [b|] eqn:E; simpl; [tauto|].
    exfalso. clear -E. revert c E. induction r as [|d r IH]; intros c E;
      [discriminate | exact (IH d E)].
Qed.

Lemma quote_padded_str s : quote_padded (VStr s) = Ok (quoted s).
Proof.
  unfold quote_padded, quoted.
  destruct (decide (Str.strip s = s)) as [H|H].
  - apply strip_fixed_iff in H. rewrite H. reflexivity.
  - destruct (padded s) eqn:E; [reflexivity|].
    exfalso. apply H, strip_fixed_iff, E.
Qed.

Lemma map_result_quote_padded vs :
  map_result quote_padded (map VStr vs) = Ok (map quoted vs).
Proof.
  induction vs as [|v r IH]; [reflexivity|].
  simpl map. cbn [map_result]. rewrite quote_padded_str, IH. reflexivity.
Qed.

(** An option without a [mutable] attribute: the handler of the missing
    attribute raises itself, before any warning and before the defaults. *)
Lemma format_lines_without_mutable rt f o ty p :
  opt_type o = Some ty -> opt_mutable o = None ->
  exists ds,
    format_lines rt f o p
    = (Raise (mkExc TypeError
                "isinstance() arg 2 must be a class, type, or tuple of classes and types"),
       add_diags ds p)
    /\ Forall (fun d => d = LogMissingHelp (opt_dest o)) ds.
Proof.
  intros Hty Hm. unfold format_lines, attr_type, attr_mutable.
  rewrite Hty, Hm.
  destruct (opt_truthy (opt_help o)).
  - exists []. rewrite add_diags_nil. split; [reflexivity | constructor].
  - exists [LogMissingHelp (opt_dest o)]. split; [reflexivity | repeat constructor].
Qed.

Lemma written_add_diags k ds p : written k (add_diags ds p) = written k p.
Proof. destruct k; reflexivity. Qed.

(** An option with a type that has no [format_defaults]: the lines for its
    defaults are made from what [_format_defaults] returns. *)
Lemma format_best_effort rt f o ty m ds q :
  opt_type o = Some ty -> type_format_defaults ty = None ->
  opt_mutable o = Some m ->
  fst (_format_defaults rt o q) = Ok ds ->
  renders rt f o (map (default_line (opt_dest o)) ds).
Proof.
  intros Hty Hfd Hm Hds p.
  pose proof (log_only_effect _ (format_defaults_log_only rt o)) as Heff.
  destruct (effect_of (_format_defaults rt o)) as [dd r].
  rewrite (Heff q) in Hds. simpl in Hds, Heff. subst r.
  unfold format, format_lines, attr_type, attr_mutable.
  rewrite Hty, Hm.
  cbv beta iota delta [mbind M_bind mret M_ret lift try_except_attribute_error log
                       writelines].
  destruct (opt_truthy (opt_help o)); rewrite Hfd, Heff;
    eexists _, _; (split; [reflexivity|]);
    rewrite written_add_written, !written_add_diags; reflexivity.
Qed.

Section BestEffortDefaults.
Context (rt : Runtime).

Lemma format_defaults_bool o b q :
  opt_class o = BoolOpt -> opt_sample_default o = VNone -> opt_default o = VBool b ->
  fst (_format_defaults rt o q) = Ok [if b then "true" else "false"].
Proof.
  intros Hc Hs Hd. unfold _format_defaults. rewrite Hc, Hs, Hd.
  destruct b; reflexivity.
Qed.

Lemma format_defaults_dict o items q :
  opt_class o = DictOpt -> opt_sample_default o = VNone -> opt_default o = VDict items ->
  fst (_format_defaults rt o q)
  = Ok [quoted (Str.join ","
                  (map (fun i => fst i +:+ ":" +:+ py_str (rt_repr rt) (snd i))
                       (py_sorted fst items)))].
Proof.
  intros Hc Hs Hd. unfold _format_defaults. rewrite Hc, Hs, Hd.
  set (joined := Str.join ","
                    (map (fun i => fst i +:+ ":" +:+ py_str (rt_repr rt) (snd i))
                         (py_sorted fst items))).
  change (fst (lift (map_result quote_padded [VStr joined]) q) = Ok [quoted joined]).
  cbn [map_result]. rewrite quote_padded_str. reflexivity.
Qed.

Lemma format_defaults_multi o vs q :
  opt_class o = MultiStrOpt -> opt_sample_default o = VNone ->
  opt_default o = VList (map VStr vs) -> vs <> [] ->
  fst (_format_defaults rt o q) = Ok (map quoted vs).
Proof.
  intros Hc Hs Hd Hne. unfold _format_defaults. rewrite Hc, Hs, Hd.
  destruct vs as [|v r]; [done|].
  change (fst (lift (map_result quote_padded (map VStr (v :: r))) q)
          = Ok (map quoted (v :: r))).
  rewrite map_result_quote_padded. reflexivity.
Qed.

Lemma format_defaults_multi_empty o q :
  opt_class o = MultiStrOpt -> opt_sample_default o = VNone ->
  py_truthy (opt_default o) = false ->
  fst (_format_defaults rt o q) = Ok [EmptyString].
Proof.
  intros Hc Hs Hd. unfold _format_defaults. rewrite Hc, Hs, Hd. reflexivity.
Qed.

Lemma format_defaults_multi_sample o vs q :
  opt_class o = MultiStrOpt -> opt_sample_default o = VList (map VStr vs) ->
  fst (_format_defaults rt o q) = Ok (map quoted vs).
Proof.
  intros Hc Hs. unfold _format_defaults. rewrite Hc, Hs.
  change (fst (lift (map_result quote_padded (map VStr vs)) q) = Ok (map quoted vs)).
  rewrite map_result_quote_padded. reflexivity.
Qed.

Lemma format_defaults_text o s q :
  opt_class o ∈ [StrOpt; IPOpt; HostnameOpt] ->
  opt_sample_default o = VNone -> opt_default o = VStr s ->
  fst (_format_defaults rt o q) = Ok [quoted s].
Proof.
  intros Hc Hs Hd. unfold _format_defaults. rewrite Hs, Hd.
  assert (Hcls : opt_class o = StrOpt \/ opt_class o = IPOpt
                 \/ opt_class o = HostnameOpt).
  { rewrite !elem_of_cons in Hc. destruct Hc as [?|[?|[?|Hc]]]; try tauto.
    inversion Hc. }
  destruct Hcls as [Hcls|[Hcls|Hcls]]; rewrite Hcls;
    (change (fst (lift (map_result quote_padded [VStr s]) q) = Ok [quoted s]);
     cbn [map_result]; rewrite quote_padded_str; reflexivity).
Qed.

End BestEffortDefaults.



(** C9, on the code. An option object of a foreign class, without the
    [mutable] attribute: [format] raises a TypeError out of the handler of
    the missing attribute, no warning is recorded and nothing is written;
    [_output_opts] puts the two warning lines in the place of the option,
    and no default line. The same object with the attribute gets its
    best-effort default line. *)
Theorem C9_foreign_option_is_replaced
    : let bad := Sample.foreign_opt "token" (VStr "secret") in
      let run := format Sample.runtime Sample.to_stdout bad Sample.mixed_proc in
      fst run
      = Raise (mkExc TypeError
                 "isinstance() arg 2 must be a class, type, or tuple of classes and types")
      /\ diags (snd run) = [] /\ stdout (snd run) = []
      /\ stdout (snd (output_opt Sample.runtime Sample.to_stdout 1 Sample.mixed_proc))
         = [nl; "# Warning: Failed to format sample for token" +:+ nl;
            "# isinstance() arg 2 must be a class, type, or tuple of classes and types"
              +:+ nl]
      /\ stdout (snd (format Sample.runtime Sample.to_stdout
                        (mkOpt (ForeignOpt "Opt") "token" "token" (Some "help")
                               (VStr "secret") VNone (opt_type bad) (Some false)
                               [] false None)
                        Sample.mixed_proc))
         = ["# help (unknown value)" +:+ nl; "#token = secret" +:+ nl].
Proof. vm_compute. repeat split. Qed.

(** ** Resolution leaves the sinks alone *)

Lemma same_output_refl p : same_output p p.
Proof. repeat split. Qed.

Lemma same_output_trans p q r : same_output p q -> same_output q r -> same_output p r.
Proof.
  unfold same_output. intros (H1 & H2 & H3) (H4 & H5 & H6).
  rewrite H4, H5, H6. done.
Qed.

Lemma quiet_ret {A} (a : A) : quiet (mret a).
Proof. intros p r p' [= <- <-]. apply same_output_refl. Qed.

Lemma quiet_lift {A} (x : Result A) : quiet (lift x).
Proof. intros p r p' [= <- <-]. apply same_output_refl. Qed.

Lemma quiet_get_world : quiet get_world.
Proof. intros p r p' [= <- <-]. apply same_output_refl. Qed.

Lemma quiet_call role func : quiet (call role func).
Proof.
  intros p r p'. unfold call. destruct (fn_body func (world p)) as [x w].
  intros [= <- <-]. repeat split.
Qed.

Lemma quiet_new_group name : quiet (new_group name).
Proof. intros p r p' [= <- <-]. repeat split. Qed.

Lemma quiet_bind {A B} (m : M A) (f : A -> M B) :
  quiet m -> (forall a, quiet (f a)) -> quiet (m ≫= f).
Proof.
  intros Hm Hf p r p'. unfold mbind, M_bind.
  destruct (m p) as [[a|e] p1] eqn:E.
  - intros Hfa. eapply same_output_trans; [eapply Hm, E | eapply Hf, Hfa].
  - intros [= <- <-]. eapply Hm, E.
Qed.

Lemma quiet_for_fold {A S} (body : S -> A -> M S) l :
  (forall s x, quiet (body s x)) -> forall s, quiet (for_fold l s body).
Proof.
  intros Hb. induction l as [|x r IH]; intros s; simpl.
  - apply quiet_ret.
  - apply quiet_bind; [apply Hb | intros s'; apply IH].
Qed.

Ltac quiet_step :=
  first [ apply quiet_ret | apply quiet_lift | apply quiet_get_world
        | apply quiet_call | apply quiet_new_group
        | apply quiet_for_fold | apply quiet_bind ].

Ltac quiet_solve :=
  repeat first [ quiet_step
               | lazymatch goal with
                 | |- quiet _ => fail
                 | |- _ => intro
                 end
               | match goal with
                 | |- quiet (if ?b then _ else _) => destruct b
                 | |- quiet (match ?x with _ => _ end) => destruct x
                 end ].

Lemma list_opts_quiet rt namespaces updates : quiet (_list_opts rt namespaces updates).
Proof.
  unfold _list_opts, _get_raw_opts_loaders, _update_defaults, load_namespace.
  quiet_solve.
Qed.

(** ** The section grouper *)

Lemma grow_app acc m1 m2 : grow (grow acc m1) m2 = grow acc (m1 ++ m2).
Proof.
  destruct m1 as [|x m1]; [reflexivity|].
  destruct m2 as [|y m2]; simpl; [rewrite app_nil_r; reflexivity|].
  rewrite <- app_assoc. reflexivity.
Qed.

Lemma od_get_group_entry key namespace groups entry :
  od_get key (group_entry namespace groups entry)
  = grow (od_get key groups)
         (match snd entry with
          | [] => []
          | _ => if decide (section_key (fst entry) = key)
                 then [(namespace, snd entry)] else []
          end).
Proof.
  destruct entry as [group opts]. unfold group_entry. cbn [fst snd].
  destruct opts as [|o opts]; [reflexivity|].
  set (k := section_key group). rewrite od_get_update, od_mem_get.
  destruct (decide (key = k)) as [->|Hne].
  - rewrite (decide_True (P := k = k)) by done.
    destruct (od_get k groups) as [l|] eqn:E.
    + rewrite bool_decide_eq_true_2 by eauto. rewrite E. reflexivity.
    + rewrite bool_decide_eq_false_2 by (intros [? ?]; discriminate).
      rewrite od_get_set, decide_True by done. reflexivity.
  - rewrite (decide_False (P := k = key)) by congruence.
    destruct (bool_decide (is_Some (od_get k groups))); [reflexivity|].
    rewrite od_get_set, decide_False by exact Hne. reflexivity.
Qed.

Lemma od_get_get_groups key listing :
  od_get key (_get_groups listing)
  = grow (if decide (key = KName "DEFAULT") then Some [] else None)
         (section_members key listing).
Proof.
  unfold _get_groups.
  assert (Hfold : forall groups,
            od_get key
              (fold_left (fun groups ns =>
                            let '(namespace, entries) := ns in
                            fold_left (group_entry namespace) entries groups)
                         listing groups)
            = grow (od_get key groups) (section_members key listing)).
  { induction listing as [|[namespace entries] r IH]; intros groups;
      [reflexivity|].
    cbn [fold_left]. rewrite IH. unfold section_members at 2.
    cbn [flat_map fst snd]. rewrite <- grow_app. f_equal.
    clear. revert groups. induction entries as [|e t IHt]; intros groups;
      [reflexivity|].
    cbn [fold_left flat_map]. rewrite IHt, od_get_group_entry, grow_app.
    reflexivity. }
  rewrite Hfold. simpl. destruct (decide (key = KName "DEFAULT")); reflexivity.
Qed.

(** The section view always has the default section. *)
Lemma pop_default_get_groups listing :
  exists others,
    pop_default (_get_groups listing)
    = Ok (section_members (KName "DEFAULT") listing, others)
    /\ _get_groups listing
       ≡ₚ (KName "DEFAULT", section_members (KName "DEFAULT") listing) :: others.
Proof.
  pose proof (od_get_get_groups (KName "DEFAULT") listing) as Hget.
  rewrite decide_True in Hget by done.
  assert (Hsome : od_get (KName "DEFAULT") (_get_groups listing)
                  = Some (section_members (KName "DEFAULT") listing)).
  { rewrite Hget. destruct (section_members _ listing); reflexivity. }
  destruct (od_pop_is_Some (KName "DEFAULT") (_get_groups listing)) as [[x others] Hpop].
  { rewrite Hsome. eauto. }
  pose proof (od_pop_get _ _ _ _ Hpop) as Hx. rewrite Hsome in Hx.
  injection Hx as <-.
  exists others. unfold pop_default. rewrite Hpop. split; [reflexivity|].
  apply (od_pop_Permutation _ _ _ _ Hpop).
Qed.

(** ** The driver *)

Lemma same_output_written k p p' : same_output p p' -> written k p' = written k p.
Proof. intros (H1 & H2 & _). destruct k; simpl; rewrite ?H1, ?H2; reflexivity. Qed.

Lemma section_chunks_header rt f h key namespaces :
  exists rest,
    section_chunks rt f h key namespaces
    = ("[" +:+ section_name key +:+ "]" +:+ nl) :: rest.
Proof.
  unfold section_chunks, format_group_lines.
  destruct key as [name|g]; simpl; eauto.
Qed.

Lemma generate_run rt conf p listed p1 :
  _list_opts rt (conf_opts conf) (conf_updates conf) (opened conf p) = (Ok listed, p1) ->
  let f := mkFormatter (destination conf) (conf_wrap_width conf) in
  let h := w_objs (world p1) in
  exists others p2,
    pop_default (_get_groups listed)
    = Ok (section_members (KName "DEFAULT") listed, others)
    /\ _get_groups listed
       ≡ₚ (KName "DEFAULT", section_members (KName "DEFAULT") listed) :: others
    /\ generate rt conf p = (Ok tt, p2)
    /\ written (destination conf) p2
       = written (destination conf) (opened conf p)
         ++ section_chunks rt f h (KName "DEFAULT")
                           (section_members (KName "DEFAULT") listed)
         ++ other_sections rt f h (py_sorted _get_group_name others).
Proof.
  intros Hlist f h.
  destruct (pop_default_get_groups listed) as (others & Hpop & Hperm).
  set (members := section_members (KName "DEFAULT") listed) in *.
  destruct (output_opts_run rt f (KName "DEFAULT") members p1)
    as (p1' & Hdef & Hdefw & _ & Hdefs).
  destruct (for_each_emits (destination conf)
              (fun item : SectionKey * list (string * list Ref) =>
                 let '(group, namespaces) := item in
                 write f (nl +:+ nl);;
                 _output_opts rt f group namespaces)
              (fun w item => (nl +:+ nl)
                             :: section_chunks rt f (w_objs w) (fst item) (snd item))
              (fun w item => section_diags rt f (w_objs w) (snd item)))
    with (l := py_sorted _get_group_name others) (p := p1')
    as (p2 & Hrest & Hrestw & _).
  { intros [group namespaces] q.
    destruct (output_opts_run rt f group namespaces
                (add_written (destination conf) [nl +:+ nl] q))
      as (q' & Hq & Hqe).
    exists q'. split.
    - erewrite bind_Ok; [|reflexivity]. exact Hq.
    - assert (Hwq : world (add_written (destination conf) [nl +:+ nl] q) = world q)
        by (destruct (destination conf); reflexivity).
      rewrite Hwq in Hqe. cbn [fst snd].
      pose proof (emits_trans _ _ _ _ _ _ _ _
                    (emits_add_written (destination conf) [nl +:+ nl] q) Hqe) as H.
      exact H. }
  exists others, p2. split; [exact Hpop|]. split; [exact Hperm|]. split.
  - unfold generate.
    erewrite bind_Ok with (a := destination conf) (p' := opened conf p).
    2:{ unfold destination, opened. destruct (opt_truthy (conf_output_file conf));
          reflexivity. }
    erewrite bind_Ok; [|exact Hlist].
    erewrite bind_Ok; [|rewrite Hpop; reflexivity]. cbv beta iota.
    erewrite bind_Ok; [|exact Hdef]. exact Hrest.
  - change (output_file f) with (destination conf) in Hdefw.
    rewrite Hrestw, Hdefw.
    rewrite (same_output_written _ _ _ (list_opts_quiet rt _ _ _ _ _ Hlist)).
    destruct Hdefs as (Hw & _). rewrite Hw. unfold other_sections.
    rewrite <- app_assoc. reflexivity.
Qed.

Lemma section_members_nil key (listing : Listing) :
  (forall ns entries g opts,
     (ns, entries) ∈ listing -> (g, opts) ∈ entries -> section_key g = key ->
     opts = []) ->
  section_members key listing = [].
Proof.
  intros Hnone. unfold section_members.
  induction listing as [|[ns entries] r IH]; [reflexivity|].
  cbn [flat_map fst snd]. rewrite IH.
  - rewrite app_nil_r.
    assert (Hent : forall g opts, (g, opts) ∈ entries -> section_key g = key -> opts = []).
    { intros g opts Hin. apply (Hnone ns entries); [left | exact Hin]. }
    clear -Hent. induction entries as [|[g opts] t IHt]; [reflexivity|].
    cbn [flat_map fst snd]. rewrite IHt.
    + destruct opts as [|o opts]; [reflexivity|].
      destruct (decide (section_key g = key)) as [Hk|Hk]; [|reflexivity].
      discriminate (Hent g (o :: opts) (list_elem_of_here _ _) Hk).
    + intros g' opts' Hin. apply Hent. right. exact Hin.
  - intros ns' entries' g opts Hin. apply (Hnone ns' entries'). right. exact Hin.
Qed.

(** C4. Whenever the namespaces and updates of a run resolve, [generate]
    returns and the first thing it writes to its destination is the header
    of the DEFAULT section; the other sections, each with its own header,
    follow the text of the default section. The section view always holds
    the default section: when no namespace contributes options to it, its
    list of namespaces is empty and the header is all that is written for
    it. *)
Theorem C4_default_section_first
    (rt : Runtime) (conf : Conf) (p : Proc) (listed : Listing) (p1 : Proc) :
  _list_opts rt (conf_opts conf) (conf_updates conf) (opened conf p) = (Ok listed, p1) ->
  exists others rest p2,
    generate rt conf p = (Ok tt, p2)
    /\ pop_default (_get_groups listed)
       = Ok (section_members (KName "DEFAULT") listed, others)
    /\ written (destination conf) p2
       = written (destination conf) (opened conf p)
         ++ ("[DEFAULT]" +:+ nl) :: rest
         ++ other_sections rt (mkFormatter (destination conf) (conf_wrap_width conf))
                           (w_objs (world p1)) (py_sorted _get_group_name others)
    /\ ("[DEFAULT]" +:+ nl) :: rest
       = section_chunks rt (mkFormatter (destination conf) (conf_wrap_width conf))
                        (w_objs (world p1)) (KName "DEFAULT")
                        (section_members (KName "DEFAULT") listed)
    /\ ((forall ns entries g opts,
           (ns, entries) ∈ listed -> (g, opts) ∈ entries ->
           section_key g = KName "DEFAULT" -> opts = []) ->
        section_members (KName "DEFAULT") listed = [] /\ rest = []).
Proof.
  intros Hlist.
  destruct (generate_run rt conf p listed p1 Hlist) as (others & p2 & Hpop & _ & Hgen & Hw).
  set (f := mkFormatter (destination conf) (conf_wrap_width conf)) in *.
  exists others,
    (flat_map (block_chunks rt f (w_objs (world p1)))
              (py_sorted fst (section_members (KName "DEFAULT") listed))),
    p2.
  split; [exact Hgen|]. split; [exact Hpop|]. split; [|split].
  - rewrite Hw. reflexivity.
  - reflexivity.
  - intros Hnone. rewrite (section_members_nil _ _ Hnone). split; reflexivity.
Qed.

Lemma C4_witness :
  exists rest p2,
    generate Sample.runtime Sample.conf Sample.start = (Ok tt, p2)
    /\ stdout p2 = ("[DEFAULT]" +:+ nl) :: rest.
Proof.
  edestruct (C4_default_section_first Sample.runtime Sample.conf Sample.start)
    as (others & rest & p2 & Hgen & _ & Hw & _).
  - vm_compute. reflexivity.
  - eexists _, p2. split; [exact Hgen|]. exact Hw.
Defined.

(** C5, as the code has it. After the default section, [generate] writes
    the other sections of the section view, each after the separator and
    each opened by the header of its name, in the byte-wise (case-sensitive)
    order of their names; the name of a section is its key when the key is
    a plain text and the name of the group when it is a group object. *)
Theorem C5_sections_in_bytewise_order
    (rt : Runtime) (conf : Conf) (p : Proc) (listed : Listing) (p1 : Proc) :
  _list_opts rt (conf_opts conf) (conf_updates conf) (opened conf p) = (Ok listed, p1) ->
  let f := mkFormatter (destination conf) (conf_wrap_width conf) in
  let h := w_objs (world p1) in
  exists others sections p2,
    generate rt conf p = (Ok tt, p2)
    /\ pop_default (_get_groups listed)
       = Ok (section_members (KName "DEFAULT") listed, others)
    /\ sections ≡ₚ others
    /\ StronglySorted
         (fun a b => Str.le (section_name (fst a)) (section_name (fst b))) sections
    /\ written (destination conf) p2
       = written (destination conf) (opened conf p)
         ++ section_chunks rt f h (KName "DEFAULT")
                           (section_members (KName "DEFAULT") listed)
         ++ flat_map (fun item => (nl +:+ nl)
                                  :: section_chunks rt f h (fst item) (snd item))
                     sections
    /\ (forall key namespaces, exists rest,
          section_chunks rt f h key namespaces
          = ("[" +:+ section_name key +:+ "]" +:+ nl) :: rest)
    /\ (forall name g, og_name g = name ->
          section_name (KGroup g) = section_name (KName name)).
Proof.
  intros Hlist f h.
  destruct (generate_run rt conf p listed p1 Hlist) as (others & p2 & Hpop & _ & Hgen & Hw).
  exists others, (py_sorted _get_group_name others), p2.
  split; [exact Hgen|]. split; [exact Hpop|].
  split; [apply py_sorted_Permutation|].
  split; [exact (py_sorted_sorted _get_group_name others)|].
  split; [exact Hw|]. split; [intros; apply section_chunks_header|].
  intros name g Hg. exact Hg.
Qed.

Lemma C5_witness :
  exists p2,
    generate Sample.runtime Sample.conf_two_sections Sample.start = (Ok tt, p2)
    /\ headers (stdout p2) = ["[DEFAULT]" +:+ nl; "[C]" +:+ nl; "[b]" +:+ nl].
Proof.
  edestruct (C5_sections_in_bytewise_order Sample.runtime Sample.conf_two_sections
               Sample.start) as (others & sections & p2 & Hgen & _).
  - vm_compute. reflexivity.
  - exists p2. split; [exact Hgen|].
    vm_compute in Hgen. injection Hgen as <-. reflexivity.
Defined.

(** Where two names differ in case the order is not the case-insensitive
    one: the section C is written before the section b, and in the
    case-insensitive order C does not come before b. *)
Lemma C5_counterexample :
  headers (stdout (snd (generate Sample.runtime Sample.conf_two_sections Sample.start)))
  = ["[DEFAULT]" +:+ nl; "[C]" +:+ nl; "[b]" +:+ nl]
  /\ ~ case_insensitive_le "C" "b".
Proof. split; [vm_compute; reflexivity | vm_compute; discriminate]. Qed.

(** ** The order of loading and updating *)

(** In every run whose identifiers resolve, the option lists of all
    namespaces are read first and the update hooks run afterwards. *)
Lemma list_opts_loads_before_updates rt namespaces updates nss ups p :
  map_result parse_identifier namespaces = Ok nss ->
  map_result parse_identifier updates = Ok ups ->
  Forall (fun n => exists f, import_class rt (snd n) = Ok f /\ returns_normally f) nss ->
  Forall (fun u => exists f, import_class rt (snd u) = Ok f
                             /\ (fst u ∈ map fst nss -> returns_normally f)) ups ->
  exists listed p',
    _list_opts rt namespaces updates p = (Ok listed, p')
    /\ trace p'
       = trace p ++ loader_events [] nss
         ++ map (fun u => EvCall Updater (snd u))
                (invoked_updates (map fst nss) [] ups).
Proof.
  intros Hns Hups Hload Hupd.
  destruct (load_namespaces_run rt namespaces nss [] ∅ [] (groups_made p) p Hns Hload)
    as (new & groups & p1 & Hrun & _ & _ & _ & _ & Htr1 & _).
  { split; [|split].
    - intros name g Hg. rewrite lookup_empty in Hg. discriminate.
    - intros n1 n2 g1 g2 Hg. rewrite lookup_empty in Hg. discriminate.
    - rewrite map_size_empty. lia. }
  { intros name _. rewrite lookup_empty. split; [intros H; inversion H|].
    intros [? ?]. discriminate. }
  destruct (update_defaults_run rt namespaces updates nss ups p1 Hns Hups Hupd)
    as (p2 & Hrun2 & Htr2).
  exists (_cleanup_opts (w_objs (world p2)) new), p2. split.
  - unfold _list_opts, _get_raw_opts_loaders.
    erewrite bind_Ok; [|erewrite bind_Ok; [|exact Hrun]; reflexivity].
    erewrite bind_Ok; [|exact Hrun2]. reflexivity.
  - rewrite Htr2, Htr1, <- app_assoc. reflexivity.
Qed.

(** C1, on the code. A namespace whose loader builds its options from a
    module-level default, and the update hook of that namespace which
    changes the default: the loader is called before the hook, the option
    list is not read again, and the sample shows the old default, while
    an option list read after the hook holds the new one. *)
Theorem C1_options_are_read_before_the_hooks
    : let run := generate Sample.runtime Sample.conf Sample.start in
      fst run = Ok tt
      /\ trace (snd run)
         = [EvNewGroup "lib"; EvCall Loader "lib.list_opts";
            EvCall Updater "lib.set_defaults"]
      /\ w_vars (world (snd run)) !! "DEFAULT_PORT" = Some (VInt 8080)
      /\ stdout (snd run)
         = ["[DEFAULT]" +:+ nl; nl +:+ nl; "[lib]" +:+ nl; banner "lib"; nl;
            "# help (integer value)" +:+ nl; "#port = 80" +:+ nl]
      /\ opt_default
           (w_objs (snd (Sample.lib_list_opts
                           (snd (Sample.lib_set_defaults (world Sample.start)))))
                   0)
         = VInt 8080.
Proof. vm_compute. repeat split. Qed.

(** * Further properties of the generator *)

(** ** [import_class] *)

Lemma rpartition_dotless s : dotless s = true -> Str.rpartition Str.dot s = None.
Proof.
  induction s as [|c r IH]; [reflexivity|]. simpl.
  destruct (Ascii.eqb c Str.dot); simpl; [discriminate|].
  intros Hr. rewrite (IH Hr). reflexivity.
Qed.

(** X2. A locator with no module part, a bare name or a name behind its
    only dot, is refused with a ValueError whatever modules are loaded: the
    name is never looked up as a module of its own. *)
Theorem import_class_without_module (rt : Runtime) (name : string) :
  dotless name = true ->
  import_class rt name = Raise (mkExc ValueError "Empty module name")
  /\ import_class rt ("." +:+ name) = Raise (mkExc ValueError "Empty module name").
Proof.
  intros Hd. pose proof (rpartition_dotless _ Hd) as Hn. split.
  - unfold import_class. rewrite Hn. reflexivity.
  - unfold import_class.
    change (Str.rpartition Str.dot ("." +:+ name))
      with (match Str.rpartition Str.dot name with
            | Some (h, t) => Some (String Str.dot h, t)
            | None => Some (EmptyString, name)
            end).
    rewrite Hn. reflexivity.
Qed.

Lemma import_class_without_module_witness :
  import_class Sample.runtime "list_opts"
  = Raise (mkExc ValueError "Empty module name")
  /\ import_class Sample.runtime ".list_opts"
     = Raise (mkExc ValueError "Empty module name").
Proof.
  exact (import_class_without_module Sample.runtime "list_opts" eq_refl).
Defined.

(** ** [_format_defaults] *)

Lemma isinstance_other (c cls : OptClass) : c <> cls -> isinstance c cls = false.
Proof. intros H. unfold isinstance. apply bool_decide_eq_false_2, H. Qed.

Lemma quote_one s q :
  lift (map_result quote_padded [VStr s]) q = (Ok [quoted s], q).
Proof. unfold lift. cbn [map_result]. rewrite quote_padded_str. reflexivity. Qed.

(** X3. A sample override wins over the default for every option that is
    not a multi-valued one, whatever its class: the only value shown is the
    text [str] gives for the override (quoted when padded), so a boolean
    override keeps its capital, and nothing is logged, also for a class the
    formatter does not know. *)
Theorem format_defaults_sample_override (rt : Runtime) (o : Opt) (q : Proc) :
  opt_class o <> MultiStrOpt -> opt_sample_default o <> VNone ->
  _format_defaults rt o q
  = (Ok [quoted (py_str (rt_repr rt) (opt_sample_default o))], q).
Proof.
  intros Hc Hs. unfold _format_defaults.
  rewrite (isinstance_other _ _ Hc).
  assert (is_none (opt_sample_default o) = false) as ->
    by (destruct (opt_sample_default o); done).
  apply quote_one.
Qed.

Lemma format_defaults_sample_override_witness :
  _format_defaults Sample.runtime Sample.bool_override blank = (Ok ["True"], blank).
Proof.
  exact (format_defaults_sample_override Sample.runtime Sample.bool_override blank
           ltac:(discriminate) ltac:(discriminate)).
Defined.

(** X4. Without a sample override, a default of [None] is shown as
    '<None>' for every option that is not a multi-valued one, whatever its
    class, and nothing is logged. *)
Theorem format_defaults_none (rt : Runtime) (o : Opt) (q : Proc) :
  opt_class o <> MultiStrOpt ->
  opt_sample_default o = VNone -> opt_default o = VNone ->
  _format_defaults rt o q = (Ok ["<None>"], q).
Proof.
  intros Hc Hs Hd. unfold _format_defaults.
  rewrite (isinstance_other _ _ Hc), Hs, Hd. reflexivity.
Qed.

Lemma format_defaults_none_witness :
  _format_defaults Sample.runtime (Sample.foreign_opt "token" VNone) blank
  = (Ok ["<None>"], blank).
Proof.
  exact (format_defaults_none Sample.runtime (Sample.foreign_opt "token" VNone) blank
           ltac:(discriminate) eq_refl eq_refl).
Defined.

Lemma join_items_strs vs : forall i, join_items i (map VStr vs) = Ok vs.
Proof.
  induction vs as [|v r IH]; intros i; [reflexivity|].
  simpl map. cbn [join_items]. rewrite IH. reflexivity.
Qed.

(** X5. Without a sample override, a list of texts that is the default of
    a list, config-file or config-dir option is shown as one value, the
    texts joined by commas with nothing between them (quoted when the
    joined text is padded); the empty list gives the empty value. *)
Theorem format_defaults_list (rt : Runtime) (o : Opt) (vs : list string) (q : Proc) :
  opt_class o ∈ [ListOpt; ConfigFileOpt; ConfigDirOpt] ->
  opt_sample_default o = VNone -> opt_default o = VList (map VStr vs) ->
  _format_defaults rt o q = (Ok [quoted (Str.join "," vs)], q).
Proof.
  intros Hc Hs Hd. unfold _format_defaults. rewrite Hs, Hd.
  assert (Hcls : opt_class o = ListOpt \/ opt_class o = ConfigFileOpt
                 \/ opt_class o = ConfigDirOpt).
  { rewrite !elem_of_cons in Hc. destruct Hc as [?|[?|[?|Hc]]]; try tauto.
    inversion Hc. }
  destruct Hcls as [Hcls|[Hcls|Hcls]]; rewrite Hcls;
    (transitivity (lift (map_result quote_padded [VStr (Str.join "," vs)]) q);
     [|apply quote_one]);
    cbv beta iota delta [mbind M_bind mret M_ret lift py_join py_iter
                         Result_bind isinstance bool_decide decide_rel
                         is_none negb orb];
    simpl; rewrite join_items_strs; reflexivity.
Qed.

Lemma format_defaults_list_witness :
  _format_defaults Sample.runtime (Sample.list_opt "hosts" (VList [VStr "a"; VStr "b"])) blank
  = (Ok ["a,b"], blank)
  /\ _format_defaults Sample.runtime (Sample.list_opt "hosts" (VList [])) blank
     = (Ok [EmptyString], blank).
Proof.
  split.
  - refine (format_defaults_list Sample.runtime
              (Sample.list_opt "hosts" (VList [VStr "a"; VStr "b"])) ["a"; "b"]
              blank _ eq_refl eq_refl).
    constructor.
  - refine (format_defaults_list Sample.runtime (Sample.list_opt "hosts" (VList [])) []
              blank _ eq_refl eq_refl).
    constructor.
Defined.

(** X6. Without a sample override, a string, IP or host-name option whose
    default is neither [None] nor a text makes [_format_defaults] raise
    the AttributeError of the missing [strip], with nothing logged: the
    default is handed over as it is, not turned into a text. *)
Theorem format_defaults_text_class_wants_text (rt : Runtime) (o : Opt) (q : Proc) :
  opt_class o ∈ [StrOpt; IPOpt; HostnameOpt] ->
  opt_sample_default o = VNone ->
  opt_default o <> VNone -> (forall s, opt_default o <> VStr s) ->
  _format_defaults rt o q
  = (Raise (no_attribute (py_type_name (opt_default o)) "strip"), q).
Proof.
  intros Hc Hs Hn Ht. unfold _format_defaults. rewrite Hs.
  assert (Hcls : opt_class o = StrOpt \/ opt_class o = IPOpt
                 \/ opt_class o = HostnameOpt).
  { rewrite !elem_of_cons in Hc. destruct Hc as [?|[?|[?|Hc]]]; try tauto.
    inversion Hc. }
  destruct (opt_default o) as [| b | z | s | l | d | c t] eqn:Hd;
    [done | | | exfalso; exact (Ht s eq_refl) | | |];
    destruct Hcls as [Hcls|[Hcls|Hcls]]; rewrite Hcls; reflexivity.
Qed.

Lemma format_defaults_text_class_wants_text_witness :
  _format_defaults Sample.runtime (Sample.str_opt "port" (VInt 80)) blank
  = (Raise (mkExc AttributeError "'int' object has no attribute 'strip'"), blank).
Proof.
  refine (format_defaults_text_class_wants_text Sample.runtime
            (Sample.str_opt "port" (VInt 80)) blank _ eq_refl
            ltac:(discriminate) ltac:(discriminate)).
  constructor.
Defined.

(** X7. Without a sample override, an option of a class the formatter does
    not know, with a default other than [None], is reported once as of
    unknown type and shown with the text [str] gives for its default. *)
Theorem format_defaults_unknown_class (rt : Runtime) (o : Opt) (cls : string) (q : Proc) :
  opt_class o = ForeignOpt cls ->
  opt_sample_default o = VNone -> opt_default o <> VNone ->
  _format_defaults rt o q
  = (Ok [quoted (py_str (rt_repr rt) (opt_default o))],
     add_diags [LogUnknownType (opt_dest o)] q).
Proof.
  intros Hc Hs Hd. unfold _format_defaults. rewrite Hc, Hs.
  assert (is_none (opt_default o) = false) as ->
    by (destruct (opt_default o); done).
  change (lift (map_result quote_padded [VStr (py_str (rt_repr rt) (opt_default o))])
               (add_diags [LogUnknownType (opt_dest o)] q)
          = (Ok [quoted (py_str (rt_repr rt) (opt_default o))],
             add_diags [LogUnknownType (opt_dest o)] q)).
  apply quote_one.
Qed.

Lemma format_defaults_unknown_class_witness :
  _format_defaults Sample.runtime (Sample.foreign_opt "token" (VInt 7)) blank
  = (Ok ["7"], add_diags [LogUnknownType "token"] blank).
Proof.
  exact (format_defaults_unknown_class Sample.runtime (Sample.foreign_opt "token" (VInt 7))
           "Opt" blank eq_refl eq_refl ltac:(discriminate)).
Defined.

(** X23. The sample override of a multi-valued option is iterated as it
    is: when it is a text and not a list, [_format_defaults] answers one
    value per character of the text, each quoted when it is white space. *)
Theorem format_defaults_multi_iterates_a_text
    (rt : Runtime) (o : Opt) (s : string) (q : Proc) :
  opt_class o = MultiStrOpt -> opt_sample_default o = VStr s ->
  _format_defaults rt o q
  = (Ok (map (fun c => quoted (String c EmptyString)) (list_ascii_of_string s)), q).
Proof.
  intros Hc Hs. unfold _format_defaults. rewrite Hc, Hs.
  change (lift (map_result quote_padded
                  (map (fun c => VStr (String c EmptyString))
                       (list_ascii_of_string s))) q
          = (Ok (map (fun c => quoted (String c EmptyString))
                     (list_ascii_of_string s)), q)).
  unfold lift. f_equal.
  induction (list_ascii_of_string s) as [|c r IH]; [reflexivity|].
  simpl map. cbn [map_result]. rewrite quote_padded_str, IH. reflexivity.
Qed.

Lemma format_defaults_multi_iterates_a_text_witness :
  _format_defaults Sample.runtime Sample.multi_text blank = (Ok ["a"; "b"], blank).
Proof.
  exact (format_defaults_multi_iterates_a_text Sample.runtime Sample.multi_text
           "ab" blank eq_refl eq_refl).
Defined.

(** ** [_OptFormatter.format] *)





(** ** [_cleanup_opts] *)

Section OrderedDictUpdates.
Context {K V : Type} `{EqDecision K}.
Implicit Types (d : odict K V) (k : K) (v : V).

Lemma od_update_update k (f g : V -> V) d :
  od_update k f (od_update k g d) = od_update k (fun v => f (g v)) d.
Proof.
  induction d as [|[k0 v0] r IH]; simpl; [reflexivity|].
  destruct (decide (k = k0)) as [->|Hne]; simpl.
  - rewrite decide_True by reflexivity. reflexivity.
  - rewrite decide_False by exact Hne. rewrite IH. reflexivity.
Qed.

Lemma od_update_ext k (f g : V -> V) d :
  (forall v, od_get k d = Some v -> f v = g v) ->
  od_update k f d = od_update k g d.
Proof.
  induction d as [|[k0 v0] r IH]; simpl; [reflexivity|].
  destruct (decide (k = k0)) as [->|Hne]; intros Hfg.
  - rewrite (Hfg v0 eq_refl). reflexivity.
  - rewrite (IH Hfg). reflexivity.
Qed.

Lemma od_update_fixed k (f : V -> V) d :
  (forall v, od_get k d = Some v -> f v = v) -> od_update k f d = d.
Proof.
  induction d as [|[k0 v0] r IH]; simpl; [reflexivity|].
  destruct (decide (k = k0)) as [->|Hne]; intros Hf.
  - rewrite (Hf v0 eq_refl). reflexivity.
  - rewrite (IH Hf). reflexivity.
Qed.

Lemma od_update_last k (f : V -> V) d v :
  k ∉ od_keys d -> od_update k f (d ++ [(k, v)]) = d ++ [(k, f v)].
Proof.
  unfold od_keys. induction d as [|[k0 v0] r IH]; simpl.
  - intros _. rewrite decide_True by reflexivity. reflexivity.
  - rewrite not_elem_of_cons. intros [Hne Hr].
    rewrite decide_False by exact Hne. rewrite (IH Hr). reflexivity.
Qed.

Lemma od_get_last k d v : k ∉ od_keys d -> od_get k (d ++ [(k, v)]) = Some v.
Proof.
  unfold od_keys. induction d as [|[k0 v0] r IH]; simpl.
  - intros _. rewrite decide_True by reflexivity. reflexivity.
  - rewrite not_elem_of_cons. intros [Hne Hr].
    rewrite decide_False by exact Hne. exact (IH Hr).
Qed.

Lemma od_keys_elem_of k v d : (k, v) ∈ d -> k ∈ od_keys d.
Proof.
  intros Hin. unfold od_keys. change k with (fst (k, v)).
  apply (list_elem_of_fmap_2 fst), Hin.
Qed.

Lemma od_get_elem_of k v d : NoDup (od_keys d) -> (k, v) ∈ d -> od_get k d = Some v.
Proof.
  induction d as [|[k0 v0] r IH]; simpl; intros Hnd Hin.
  - inversion Hin.
  - apply NoDup_cons in Hnd as [Hk0 Hnd].
    apply elem_of_cons in Hin as [Heq|Hin].
    + injection Heq as -> ->. rewrite decide_True by reflexivity. reflexivity.
    + destruct (decide (k = k0)) as [->|Hne]; [|exact (IH Hnd Hin)].
      exfalso. apply Hk0. exact (od_keys_elem_of _ _ _ Hin).
Qed.

Lemma od_set_elem_of k v d e :
  NoDup (od_keys d) ->
  e ∈ od_set k v d -> e = (k, v) \/ (e ∈ d /\ fst e <> k).
Proof.
  induction d as [|[k0 v0] r IH]; simpl; intros Hnd.
  - intros Hin. apply list_elem_of_singleton in Hin. left. exact Hin.
  - apply NoDup_cons in Hnd as [Hk0 Hnd].
    destruct (decide (k = k0)) as [->|Hne]; rewrite !elem_of_cons.
    + intros [->|Hin]; [left; reflexivity|].
      right. split; [right; exact Hin|].
      intros <-. apply Hk0. destruct e as [ke ve]. exact (od_keys_elem_of _ _ _ Hin).
    + intros [->|Hin]; [right; split; [left; reflexivity | simpl; congruence]|].
      destruct (IH Hnd Hin) as [->|[Hr Hk]]; [left; reflexivity|].
      right. split; [right; exact Hr | exact Hk].
Qed.

End OrderedDictUpdates.

Lemma first_seen_elem_of x l : x ∈ first_seen l <-> x ∈ l.
Proof.
  induction l as [|y r IH]; simpl; [reflexivity|].
  rewrite !elem_of_cons, list_elem_of_filter, IH.
  destruct (decide (x = y)); tauto.
Qed.

Lemma first_seen_NoDup l : NoDup (first_seen l).
Proof.
  induction l as [|y r IH]; simpl; [constructor|].
  apply NoDup_cons. split.
  - rewrite list_elem_of_filter. tauto.
  - apply NoDup_filter, IH.
Qed.

(** The keys of a dict that a loop fills key by key are the keys it sets,
    in the order of their first occurrence. *)
Lemma fold_keys_first_seen {X V} (step : odict string V -> X -> odict string V)
    (key : X -> string) :
  (forall d x, od_keys (step d x)
               = if od_mem (key x) d then od_keys d else od_keys d ++ [key x]) ->
  forall l d,
    od_keys (fold_left step l d)
    = od_keys d ++ filter (fun k => k ∉ od_keys d) (first_seen (map key l)).
Proof.
  intros Hstep. induction l as [|o r IH]; intros d; simpl.
  - rewrite app_nil_r. reflexivity.
  - rewrite IH.
    set (x := key o). set (fs := first_seen (map key r)).
    pose proof (Hstep d o) as Hk. fold x in Hk.
    destruct (od_mem x d) eqn:Hm.
    + rewrite (list_filter_iff (fun k => k ∉ od_keys (step d o))
                               (fun k => k ∉ od_keys d))
        by (intros y; rewrite Hk; tauto).
      rewrite Hk. apply od_mem_keys in Hm.
      rewrite filter_cons_False by (intros Hn; apply Hn, Hm).
      rewrite list_filter_filter. f_equal. apply list_filter_iff.
      intros y. split; [|tauto]. intros Hy. split; [exact Hy|].
      intros ->. exact (Hy Hm).
    + rewrite (list_filter_iff (fun k => k ∉ od_keys (step d o))
                               (fun k => k ∉ od_keys d ++ [x]))
        by (intros y; rewrite Hk; tauto).
      rewrite Hk.
      assert (Hx : x ∉ od_keys d).
      { intros Hin. apply od_mem_keys in Hin. congruence. }
      rewrite filter_cons_True by exact Hx.
      rewrite <- app_assoc. simpl. do 2 f_equal.
      rewrite list_filter_filter. apply list_filter_iff.
      intros y. rewrite not_elem_of_app, list_elem_of_singleton. tauto.
Qed.

Lemma filter_not_in_nil (l : list string) :
  filter (fun k => k ∉ @nil string) l = l.
Proof.
  induction l as [|y t IH]; [reflexivity|].
  rewrite filter_cons_True by (intros Hin; inversion Hin). by rewrite IH.
Qed.

Section Cleanup.
Context (h : Ref -> Opt).

(** Every entry of the innermost dict is the last registration of its
    dest, or was there before and has not been registered again. *)
Lemma fold_set_opt_last l : forall d k o,
  NoDup (od_keys d) ->
  (k, o) ∈ fold_left (set_opt h) l d ->
  ((k, o) ∈ d /\ k ∉ map (fun o => opt_dest (h o)) l)
  \/ exists pre post,
       l = pre ++ o :: post /\ k = opt_dest (h o)
       /\ opt_dest (h o) ∉ map (fun o => opt_dest (h o)) post.
Proof.
  induction l as [|x r IH]; intros d k o Hnd Hin; simpl in *.
  - left. split; [exact Hin | intros H; inversion H].
  - destruct (IH _ k o (od_set_NoDup _ _ _ Hnd) Hin)
      as [[Hd Hk]|(pre & post & -> & -> & Hpost)].
    + apply (od_set_elem_of _ _ _ _ Hnd) in Hd as [Heq|[Hd Hne]].
      * injection Heq as -> ->. right. exists [], r. done.
      * left. split; [exact Hd|]. rewrite not_elem_of_cons. done.
    + right. exists (x :: pre), post. done.
Qed.

(** The entry of a pair in the aggregated registry is made of the
    registrations of the pair. *)
Lemma aggregated_entry ns g read_opts opts :
  aggregated ns g (_cleanup_opts h read_opts) = Some opts ->
  opts = od_values (fold_left (set_opt h) (registrations ns g read_opts) []).
Proof.
  rewrite aggregated_cleanup.
  destruct (reg_namespaces_registrations h ns g read_opts None) as [[-> _] | ->];
    simpl; congruence.
Qed.

Lemma values_elem_of_keyed (d : odict string Ref) o :
  keyed_by_dest h d -> o ∈ od_values d -> (opt_dest (h o), o) ∈ d.
Proof.
  unfold keyed_by_dest, od_values. intros Hk Hin.
  apply list_elem_of_fmap_1 in Hin as ([k o'] & -> & Hin).
  rewrite Forall_forall in Hk. specialize (Hk _ Hin). simpl in *.
  rewrite <- Hk. exact Hin.
Qed.

Lemma cleanup_last_registration ns g read_opts opts :
  aggregated ns g (_cleanup_opts h read_opts) = Some opts ->
  map (fun o => opt_dest (h o)) opts = first_seen (map (fun o => opt_dest (h o)) (registrations ns g read_opts))
  /\ forall o, o ∈ opts ->
       exists pre post,
         registrations ns g read_opts = pre ++ o :: post
         /\ forall o', o' ∈ post -> opt_dest (h o') <> opt_dest (h o).
Proof.
  intros Hagg. apply aggregated_entry in Hagg. subst opts.
  assert (Hkeyed : keyed_by_dest h
            (fold_left (set_opt h) (registrations ns g read_opts) [])).
  { apply fold_set_opt_keyed. constructor. }
  split.
  - rewrite (keyed_values_dest h _ Hkeyed). apply fold_set_opt_keys_nil.
  - intros o Ho. apply (values_elem_of_keyed _ _ Hkeyed) in Ho.
    destruct (fold_set_opt_last _ [] _ _ (NoDup_nil_2 (A:=string)) Ho)
      as [[Hnil _]|(pre & post & E & _ & Hpost)]; [inversion Hnil|].
    exists pre, post. split; [exact E|].
    intros o' Ho' Heq. apply Hpost. rewrite <- Heq.
    apply (list_elem_of_fmap_2 (fun o => opt_dest (h o))), Ho'.
Qed.

(** *** Which pairs and which namespaces the registry has *)

Lemma reg_groups_is_Some g listing : forall acc,
  is_Some (fold_left (reg_group h g) listing acc)
  <-> is_Some acc \/ exists opts, (g, opts) ∈ listing.
Proof.
  induction listing as [|e r IH]; intros acc; simpl.
  - split; [tauto|]. intros [H|[opts H]]; [exact H | inversion H].
  - rewrite IH. unfold reg_group.
    destruct (decide (fst e = g)) as [He|He].
    + split; [|intros _; left; eauto].
      intros _. right. exists (snd e). rewrite <- He. destruct e. left.
    + split; (intros [H|[opts H]]; [left; exact H | right; exists opts]).
      * right. exact H.
      * apply elem_of_cons in H as [<-|H]; [simpl in He; congruence | exact H].
Qed.

Lemma reg_namespaces_is_Some ns g read_opts : forall acc,
  is_Some (fold_left (reg_namespace h ns g) read_opts acc)
  <-> is_Some acc
      \/ exists listing opts, (ns, listing) ∈ read_opts /\ (g, opts) ∈ listing.
Proof.
  induction read_opts as [|e r IH]; intros acc; simpl.
  - split; [tauto|]. intros [H|(listing & opts & H & _)]; [exact H | inversion H].
  - rewrite IH. unfold reg_namespace.
    destruct (decide (fst e = ns)) as [He|He].
    + rewrite reg_groups_is_Some. split.
      * intros [[H|[opts H]]|(listing & opts & H1 & H2)]; [tauto| |].
        -- right. exists (snd e), opts. split; [|exact H].
           rewrite <- He. destruct e. left.
        -- right. exists listing, opts. split; [right; exact H1 | exact H2].
      * intros [H|(listing & opts & H1 & H2)]; [tauto|].
        apply elem_of_cons in H1 as [<-|H1].
        -- left. right. exists opts. exact H2.
        -- right. exists listing, opts. done.
    + split; (intros [H|(listing & opts & H1 & H2)];
              [left; exact H | right; exists listing, opts]).
      * split; [right; exact H1 | exact H2].
      * split; [|exact H2].
        apply elem_of_cons in H1 as [<-|H1]; [simpl in He; congruence | exact H1].
Qed.

Lemma clean_opts_keys ns g opts : forall clean,
  od_keys (fold_left (clean_opt h ns g) opts clean) = od_keys clean.
Proof.
  induction opts as [|o r IH]; intros clean; simpl; [reflexivity|].
  rewrite IH. unfold clean_opt. apply od_keys_update.
Qed.

Lemma clean_groups_keys ns listing : forall clean,
  od_keys (fold_left (clean_group h ns) listing clean) = od_keys clean.
Proof.
  induction listing as [|[g opts] r IH]; intros clean; simpl; [reflexivity|].
  rewrite IH, clean_opts_keys.
  destruct (od_mem g (default [] (od_get ns clean))); [reflexivity|].
  apply od_keys_update.
Qed.

Lemma clean_namespaces_keys read_opts :
  od_keys (fold_left (clean_namespace h) read_opts [])
  = first_seen (map fst read_opts).
Proof.
  rewrite (fold_keys_first_seen (clean_namespace h) fst).
  - simpl. apply filter_not_in_nil.
  - intros d [ns listing]. simpl. rewrite clean_groups_keys.
    destruct (od_mem ns d) eqn:E; [reflexivity|].
    rewrite od_keys_set, E. reflexivity.
Qed.

(** *** Listings without duplicates *)

Lemma fold_set_opt_fresh opts : forall d,
  NoDup (map (fun o => opt_dest (h o)) opts) ->
  (forall o, o ∈ opts -> opt_dest (h o) ∉ od_keys d) ->
  fold_left (set_opt h) opts d = d ++ keyed h opts.
Proof.
  induction opts as [|o r IH]; intros d Hnd Hfresh; simpl.
  - rewrite app_nil_r. reflexivity.
  - change (NoDup (opt_dest (h o) :: map (fun o => opt_dest (h o)) r)) in Hnd.
    apply NoDup_cons in Hnd as [Ho Hnd].
    unfold set_opt at 2. rewrite od_set_fresh by (apply Hfresh; left).
    rewrite IH; [rewrite <- app_assoc; reflexivity | exact Hnd |].
    intros o' Ho'. unfold od_keys. rewrite map_app. simpl.
    rewrite not_elem_of_app, list_elem_of_singleton. split.
    + apply Hfresh. right. exact Ho'.
    + intros Heq. apply Ho. rewrite <- Heq.
      apply (list_elem_of_fmap_2 (fun o => opt_dest (h o))), Ho'.
Qed.

Lemma fold_clean_opt ns g opts : forall clean,
  fold_left (clean_opt h ns g) opts clean
  = od_update ns (od_update g (fun d => fold_left (set_opt h) opts d)) clean.
Proof.
  induction opts as [|o r IH]; intros clean; simpl.
  - symmetry. apply od_update_fixed. intros gd _.
    apply od_update_fixed. reflexivity.
  - rewrite IH. unfold clean_opt. rewrite od_update_update.
    apply od_update_ext. intros gd _. apply od_update_update.
Qed.

Lemma fold_clean_group_fresh ns listing : forall clean gd0,
  od_get ns clean = Some gd0 ->
  NoDup (map fst listing) ->
  (forall g, g ∈ map fst listing -> g ∉ od_keys gd0) ->
  Forall (fun ge => NoDup (map (fun o => opt_dest (h o)) (snd ge))) listing ->
  fold_left (clean_group h ns) listing clean
  = od_update ns
      (fun _ => gd0 ++ map (fun ge => (fst ge, keyed h (snd ge))) listing) clean.
Proof.
  induction listing as [|[g opts] r IH]; intros clean gd0 Hget Hnd Hfresh Hopts;
    simpl.
  - symmetry. apply od_update_fixed. intros v Hv. rewrite app_nil_r.
    assert (Some v = Some gd0) as [= ->]
      by (etrans; [symmetry; exact Hv | exact Hget]).
    reflexivity.
  - change (NoDup (g :: map fst r)) in Hnd.
    apply NoDup_cons in Hnd as [Hg Hnd].
    apply Forall_cons in Hopts as [Ho Hopts]. cbn [snd] in Ho.
    assert (Hg0 : g ∉ od_keys gd0) by (apply Hfresh; left).
    rewrite Hget. simpl.
    assert (od_mem g gd0 = false) as ->.
    { destruct (od_mem g gd0) eqn:E; [|reflexivity].
      apply od_mem_keys in E. done. }
    rewrite fold_clean_opt, od_update_update.
    rewrite (od_update_ext ns _ (fun _ => gd0 ++ [(g, keyed h opts)]) clean).
    2:{ intros v Hv.
        assert (Some v = Some gd0) as [= ->]
          by (etrans; [symmetry; exact Hv | exact Hget]).
        rewrite od_set_fresh by exact Hg0.
        rewrite od_update_last by exact Hg0.
        rewrite fold_set_opt_fresh; [reflexivity | exact Ho |].
        intros o _ Hin. inversion Hin. }
    rewrite (IH _ (gd0 ++ [(g, keyed h opts)])).
    + rewrite od_update_update. apply od_update_ext. intros v _.
      rewrite <- app_assoc. reflexivity.
    + rewrite od_get_update, decide_True by reflexivity. rewrite Hget. reflexivity.
    + exact Hnd.
    + intros g' Hg'. unfold od_keys. rewrite map_app. simpl.
      rewrite not_elem_of_app, list_elem_of_singleton. split.
      * apply Hfresh. right. exact Hg'.
      * intros ->. exact (Hg Hg').
    + exact Hopts.
Qed.

Lemma fold_clean_namespace_fresh read_opts : forall clean,
  duplicate_free h read_opts ->
  (forall ns, ns ∈ map fst read_opts -> ns ∉ od_keys clean) ->
  fold_left (clean_namespace h) read_opts clean
  = clean ++ keyed_listing h read_opts.
Proof.
  induction read_opts as [|[ns listing] r IH]; intros clean [Hnd Hall] Hfresh;
    simpl.
  - rewrite app_nil_r. reflexivity.
  - change (NoDup (ns :: map fst r)) in Hnd.
    apply NoDup_cons in Hnd as [Hns Hnd].
    apply Forall_cons in Hall as [[Hg Ho] Hall]. cbn [snd] in Hg, Ho.
    assert (Hns0 : ns ∉ od_keys clean) by (apply Hfresh; left).
    assert (od_mem ns clean = false) as ->.
    { destruct (od_mem ns clean) eqn:E; [|reflexivity].
      apply od_mem_keys in E. done. }
    rewrite od_set_fresh by exact Hns0.
    rewrite (fold_clean_group_fresh ns listing _ []);
      [| apply od_get_last, Hns0 | exact Hg
       | intros g _ Hin; inversion Hin | exact Ho].
    rewrite od_update_last by exact Hns0. simpl.
    rewrite IH.
    + rewrite <- app_assoc. reflexivity.
    + split; assumption.
    + intros ns' Hns'. unfold od_keys. rewrite map_app. simpl.
      rewrite not_elem_of_app, list_elem_of_singleton. split.
      * apply Hfresh. right. exact Hns'.
      * intros ->. exact (Hns Hns').
Qed.

Lemma values_keyed opts : od_values (keyed h opts) = opts.
Proof.
  unfold od_values, keyed. rewrite map_map. simpl. apply map_id.
Qed.

Lemma cleanup_duplicate_free_id read_opts :
  duplicate_free h read_opts -> _cleanup_opts h read_opts = read_opts.
Proof.
  intros Hdf. unfold _cleanup_opts.
  rewrite (fold_clean_namespace_fresh read_opts [] Hdf)
    by (intros ns _ Hin; inversion Hin).
  simpl. unfold keyed_listing. rewrite map_map. simpl.
  rewrite <- (map_id read_opts) at 2. apply map_ext. intros [ns listing]. simpl.
  f_equal. rewrite map_map. simpl.
  rewrite <- (map_id listing) at 2. apply map_ext. intros [g opts]. simpl.
  rewrite values_keyed. reflexivity.
Qed.

Lemma cleanup_is_duplicate_free read_opts :
  duplicate_free h (_cleanup_opts h read_opts).
Proof.
  destruct (cleanup_distinct_keys h read_opts) as [H1 H2].
  split; [exact H1|].
  rewrite Forall_forall in H2. apply Forall_forall. intros [ns listing] Hns.
  split; [exact (H2 _ Hns)|]. simpl.
  apply Forall_forall. intros [g opts] Hg. simpl.
  assert (Hagg : aggregated ns g (_cleanup_opts h read_opts) = Some opts).
  { unfold aggregated. rewrite (od_get_elem_of _ _ _ H1 Hns). simpl.
    exact (od_get_elem_of _ _ _ (H2 _ Hns) Hg). }
  destruct (cleanup_last_registration _ _ _ _ Hagg) as [-> _].
  apply first_seen_NoDup.
Qed.

End Cleanup.

(** X11. However often a dest is registered under a (namespace, group)
    pair, the aggregated entry of the pair holds one option per dest, in the
    order in which the dests were first registered, and each of them is the
    last registration of its dest: no later registration of the pair has
    the same dest. *)
Theorem cleanup_keeps_the_last_registration
    (h : Ref -> Opt) (read_opts : Listing) (ns : string) (g : Group)
    (opts : list Ref) :
  aggregated ns g (_cleanup_opts h read_opts) = Some opts ->
  map (fun o => opt_dest (h o)) opts
  = first_seen (map (fun o => opt_dest (h o)) (registrations ns g read_opts))
  /\ NoDup (map (fun o => opt_dest (h o)) opts)
  /\ forall o, o ∈ opts ->
       exists pre post,
         registrations ns g read_opts = pre ++ o :: post
         /\ forall o', o' ∈ post -> opt_dest (h o') <> opt_dest (h o).
Proof.
  intros Hagg. destruct (cleanup_last_registration h _ _ _ _ Hagg) as [H1 H2].
  split; [exact H1|]. split; [|exact H2].
  rewrite H1. apply first_seen_NoDup.
Qed.

Lemma cleanup_keeps_the_last_registration_witness :
  let h := Sample.dup_heap in
  map (fun o => opt_dest (h o)) [2; 1]
  = first_seen (map (fun o => opt_dest (h o))
                    (registrations "lib" GNone Sample.dup_listing))
  /\ NoDup (map (fun o => opt_dest (h o)) [2; 1])
  /\ forall o, o ∈ [2; 1] ->
       exists pre post,
         registrations "lib" GNone Sample.dup_listing = pre ++ o :: post
         /\ forall o', o' ∈ post -> opt_dest (h o') <> opt_dest (h o).
Proof.
  exact (cleanup_keeps_the_last_registration Sample.dup_heap Sample.dup_listing
           "lib" GNone [2; 1] eq_refl).
Defined.

(** X12. The aggregated registry has an entry for a (namespace, group) pair
    exactly when the raw listing names the pair, be it with an empty list
    of options, and it lists the namespaces once each, in the order in
    which the raw listing first names them. *)
Theorem cleanup_keeps_every_pair (h : Ref -> Opt) (read_opts : Listing) :
  (forall ns g,
      is_Some (aggregated ns g (_cleanup_opts h read_opts))
      <-> exists listing opts, (ns, listing) ∈ read_opts /\ (g, opts) ∈ listing)
  /\ map fst (_cleanup_opts h read_opts) = first_seen (map fst read_opts).
Proof.
  split.
  - intros ns g. rewrite aggregated_cleanup, fmap_is_Some, reg_namespaces_is_Some.
    split; [|tauto]. intros [[x Hx]|H]; [discriminate | exact H].
  - unfold _cleanup_opts. rewrite map_map. simpl.
    exact (clean_namespaces_keys h read_opts).
Qed.

(** X13. A listing that names every namespace once, every group once
    within its namespace and every dest once within its group comes out of
    [_cleanup_opts] as it went in. *)
Theorem cleanup_leaves_duplicate_free_listings (h : Ref -> Opt) (read_opts : Listing) :
  duplicate_free h read_opts -> _cleanup_opts h read_opts = read_opts.
Proof. apply cleanup_duplicate_free_id. Qed.

Lemma cleanup_leaves_duplicate_free_listings_witness :
  _cleanup_opts Sample.dup_heap Sample.plain_listing = Sample.plain_listing.
Proof.
  apply (cleanup_leaves_duplicate_free_listings Sample.dup_heap Sample.plain_listing).
  unfold duplicate_free.
  repeat first [ split | apply Forall_cons_2 | apply Forall_nil_2
               | apply NoDup_cons_2 | apply NoDup_nil_2 ];
    cbn; rewrite ?elem_of_cons; intros Hin;
    repeat (destruct Hin as [Hin|Hin]; [discriminate|]); inversion Hin.
Defined.

(** X14. [_cleanup_opts] is idempotent: what it returns is free of
    duplicates at the three levels, and cleaning it again changes
    nothing. *)
Theorem cleanup_idempotent (h : Ref -> Opt) (read_opts : Listing) :
  duplicate_free h (_cleanup_opts h read_opts)
  /\ _cleanup_opts h (_cleanup_opts h read_opts) = _cleanup_opts h read_opts.
Proof.
  split; [apply cleanup_is_duplicate_free|].
  apply cleanup_duplicate_free_id, cleanup_is_duplicate_free.
Qed.

(** ** [_get_groups] *)

Lemma group_entry_NoDup namespace groups entry :
  NoDup (od_keys groups) -> NoDup (od_keys (group_entry namespace groups entry)).
Proof.
  destruct entry as [group opts]. unfold group_entry.
  destruct opts as [|o opts]; [done|]. intros Hnd.
  rewrite od_keys_update.
  destruct (od_mem (section_key group) groups); [exact Hnd|].
  apply od_set_NoDup, Hnd.
Qed.

Lemma get_groups_NoDup conf_ns : NoDup (od_keys (_get_groups conf_ns)).
Proof.
  unfold _get_groups.
  assert (Hfold : forall groups : Groups,
            NoDup (od_keys groups) ->
            NoDup (od_keys
                     (fold_left (fun groups ns =>
                                   let '(namespace, listing) := ns in
                                   fold_left (group_entry namespace) listing groups)
                                conf_ns groups))).
  { induction conf_ns as [|[namespace listing] r IH]; intros groups Hnd;
      [exact Hnd|].
    cbn [fold_left]. apply IH. clear IH. revert groups Hnd.
    induction listing as [|e t IHt]; intros groups Hnd; [exact Hnd|].
    cbn [fold_left]. apply IHt, group_entry_NoDup, Hnd. }
  apply Hfold. apply NoDup_singleton.
Qed.

(** X15. The section view that [_get_groups] builds has each key once. It
    always has the default section, which holds the (namespace, options)
    pairs of the listing registered without a group, under the empty name or
    under the name 'DEFAULT', in listing order; any other key is there
    exactly when the listing has a non-empty option list for it, and holds
    those pairs in listing order. An empty option list adds nothing, not
    even a section. *)
Theorem get_groups_sections (conf_ns : Listing) :
  NoDup (od_keys (_get_groups conf_ns))
  /\ od_get (KName "DEFAULT") (_get_groups conf_ns)
     = Some (section_members (KName "DEFAULT") conf_ns)
  /\ (forall key, key <> KName "DEFAULT" ->
        od_get key (_get_groups conf_ns)
        = match section_members key conf_ns with
          | [] => None
          | members => Some members
          end)
  /\ (forall key members,
        (key, members) ∈ _get_groups conf_ns ->
        members = section_members key conf_ns)
  /\ (forall namespace opts,
        (namespace, opts) ∈ section_members (KName "DEFAULT") conf_ns
        <-> opts <> []
            /\ exists listing group,
                 (namespace, listing) ∈ conf_ns /\ (group, opts) ∈ listing
                 /\ (group = GNone \/ group = GName EmptyString
                     \/ group = GName "DEFAULT")).
Proof.
  assert (Hdef : od_get (KName "DEFAULT") (_get_groups conf_ns)
                 = Some (section_members (KName "DEFAULT") conf_ns)).
  { rewrite od_get_get_groups, decide_True by reflexivity.
    destruct (section_members _ conf_ns); reflexivity. }
  assert (Hother : forall key, key <> KName "DEFAULT" ->
            od_get key (_get_groups conf_ns)
            = match section_members key conf_ns with
              | [] => None
              | members => Some members
              end).
  { intros key Hkey. rewrite od_get_get_groups, decide_False by exact Hkey.
    destruct (section_members key conf_ns); reflexivity. }
  split; [apply get_groups_NoDup|]. split; [exact Hdef|].
  split; [exact Hother|]. split.
  - intros key members Hin.
    apply (od_get_elem_of _ _ _ (get_groups_NoDup conf_ns)) in Hin.
    destruct (decide (key = KName "DEFAULT")) as [->|Hkey].
    + rewrite Hdef in Hin. congruence.
    + rewrite (Hother key Hkey) in Hin.
      destruct (section_members key conf_ns); congruence.
  - intros namespace opts. unfold section_members.
    rewrite list_elem_of_In, in_flat_map. split.
    + intros ([ns listing] & Hns & Hin). apply in_flat_map in Hin.
      destruct Hin as ([group opts'] & Hg & Hin). cbn [fst snd] in Hin.
      destruct opts' as [|o opts']; [destruct Hin|].
      destruct (decide (section_key group = KName "DEFAULT")) as [Hk|Hk];
        [|destruct Hin].
      destruct Hin as [[= <- <-]|[]]. split; [discriminate|].
      exists listing, group. rewrite !list_elem_of_In.
      split; [exact Hns|]. split; [exact Hg|].
      destruct group as [|s|g]; [tauto | | discriminate].
      right. unfold section_key in Hk.
      destruct (Str.truthy s) eqn:Es.
      * right. congruence.
      * left. destruct s; [reflexivity | discriminate].
    + intros (Hne & listing & group & Hns & Hg & Hgroup).
      exists (namespace, listing). rewrite <- list_elem_of_In.
      split; [exact Hns|]. apply in_flat_map. exists (group, opts).
      rewrite <- list_elem_of_In. split; [exact Hg|]. cbn [fst snd].
      destruct opts as [|o opts]; [done|].
      rewrite decide_True; [left; reflexivity|].
      destruct Hgroup as [Hgr|[Hgr|Hgr]]; rewrite Hgr; reflexivity.
Qed.

(** ** [_get_raw_opts_loaders], [_update_defaults] and [_list_opts] *)

Lemma for_fold_app {A S} (body : S -> A -> M S) l1 l2 : forall s p s' p',
  for_fold l1 s body p = (Ok s', p') ->
  for_fold (l1 ++ l2) s body p = for_fold l2 s' body p'.
Proof.
  induction l1 as [|x r IH]; intros s p s' p' Hrun.
  - injection Hrun as <- <-. reflexivity.
  - cbn [for_fold app] in *. unfold mbind, M_bind in *.
    destruct (body s x p) as [[s1|e] p1]; [|discriminate].
    exact (IH _ _ _ _ Hrun).
Qed.

Lemma parse_identifier_malformed s :
  colons s <> 1%nat ->
  exists e, parse_identifier s = Raise e /\ exc_class e = ValueError.
Proof.
  intros Hc. unfold parse_identifier. pose proof (split_length s) as Hlen.
  destruct (Str.split Str.colon s) as [|a [|b [|c t]]]; simpl in *;
    try (eexists; split; reflexivity).
  exfalso. apply Hc. lia.
Qed.

Lemma memo_ok_empty p : memo_ok (groups_made p) ∅ p.
Proof.
  split; [|split].
  - intros name g Hg. rewrite lookup_empty in Hg. discriminate.
  - intros n1 n2 g1 g2 Hg. rewrite lookup_empty in Hg. discriminate.
  - rewrite map_size_empty. lia.
Qed.

Lemma seen_empty (name : string) :
  is_default name = false ->
  (name ∈ @nil string <-> is_Some ((∅ : gmap string OptGroup) !! name)).
Proof.
  intros _. rewrite lookup_empty. split; [intros H; inversion H|].
  intros [? ?]. discriminate.
Qed.

(** X16. The loaders are called one identifier at a time: when an
    identifier does not have exactly one colon, [_get_raw_opts_loaders]
    raises a ValueError there, after the loaders of the identifiers before
    it have been called and before any later one is looked at. *)
Theorem loaders_stop_at_a_malformed_identifier
    (rt : Runtime) (pre : list string) (bad : string) (post : list string)
    (nss : list (string * string)) (p : Proc) :
  map_result parse_identifier pre = Ok nss ->
  Forall (fun n => exists f, import_class rt (snd n) = Ok f /\ returns_normally f) nss ->
  colons bad <> 1%nat ->
  exists e p',
    _get_raw_opts_loaders rt (pre ++ bad :: post) p = (Raise e, p')
    /\ exc_class e = ValueError
    /\ trace p' = trace p ++ loader_events [] nss.
Proof.
  intros Hpre Hres Hbad.
  destruct (load_namespaces_run rt pre nss [] ∅ [] (groups_made p) p Hpre Hres
              (memo_ok_empty p) seen_empty)
    as (new & groups & p' & Hrun & _ & _ & _ & _ & Htr & _).
  destruct (parse_identifier_malformed bad Hbad) as (e & He & Hcls).
  exists e, p'. split; [|split; [exact Hcls | exact Htr]].
  unfold _get_raw_opts_loaders. eapply bind_Raise.
  rewrite (for_fold_app _ _ _ _ _ _ _ Hrun). cbn [for_fold].
  eapply bind_Raise. unfold load_namespace.
  eapply bind_Raise. unfold lift.
  change (unpack2 (Str.split Str.colon bad)) with (parse_identifier bad).
  rewrite He. reflexivity.
Qed.

Lemma loaders_stop_at_a_malformed_identifier_witness :
  exists e p',
    _get_raw_opts_loaders Sample.runtime
      (["lib:lib.list_opts"] ++ "lib" :: ["app:lib.list_opts"]) Sample.start
    = (Raise e, p')
    /\ exc_class e = ValueError
    /\ trace p' = trace Sample.start
                  ++ loader_events [] [("lib", "lib.list_opts")].
Proof.
  apply (loaders_stop_at_a_malformed_identifier Sample.runtime
           ["lib:lib.list_opts"] "lib" ["app:lib.list_opts"]
           [("lib", "lib.list_opts")] Sample.start).
  - reflexivity.
  - repeat constructor.
    exists (mkPyFunc "lib.list_opts" Sample.lib_list_opts).
    split; [vm_compute; reflexivity | intros w; reflexivity].
  - vm_compute. discriminate.
Defined.

(** X17. An update is imported before its source is looked up among the
    requested namespaces: when the locator of an update does not resolve,
    [_update_defaults] raises the error of the import, whether or not the
    source of that update was requested, after the hooks of the updates
    before it have run. *)
Theorem updates_are_imported_before_they_are_matched
    (rt : Runtime) (namespaces pre : list string) (update : string)
    (post : list string) (nss ups : list (string * string))
    (name cls : string) (e : Exc) (p : Proc) :
  map_result parse_identifier namespaces = Ok nss ->
  map_result parse_identifier pre = Ok ups ->
  Forall (fun u => exists f, import_class rt (snd u) = Ok f
                             /\ (fst u ∈ map fst nss -> returns_normally f)) ups ->
  parse_identifier update = Ok (name, cls) ->
  import_class rt cls = Raise e ->
  exists p',
    _update_defaults rt namespaces (pre ++ update :: post) p = (Raise e, p')
    /\ trace p' = trace p ++ map (fun u => EvCall Updater (snd u))
                                (invoked_updates (map fst nss) [] ups).
Proof.
  intros Hns Hups Hres Hparse Himp.
  destruct (updates_loop rt (map fst nss) pre ups []
              (∅ ∪ list_to_set (map fst nss)) p Hups Hres)
    as (S' & p' & Hrun & Htr & _).
  { intros x. rewrite elem_of_union, elem_of_list_to_set.
    split; [intros [Hx|Hx]; [set_solver | split; [exact Hx | intros Hn; inversion Hn]]
           | tauto]. }
  exists p'. split; [|exact Htr].
  unfold _update_defaults.
  erewrite bind_Ok; [|apply (names_loop namespaces nss ∅ p Hns)].
  eapply bind_Raise.
  rewrite (for_fold_app _ _ _ _ _ _ _ Hrun). cbn [for_fold].
  eapply bind_Raise.
  erewrite bind_Ok; [|unfold lift;
                      change (unpack2 (Str.split Str.colon update))
                        with (parse_identifier update);
                      rewrite Hparse; reflexivity].
  cbv beta iota. eapply bind_Raise. unfold lift. rewrite Himp. reflexivity.
Qed.

Lemma updates_are_imported_before_they_are_matched_witness :
  exists p',
    _update_defaults Sample.runtime ["lib:lib.list_opts"]
      ([] ++ "other:nowhere.set_defaults" :: ["lib:lib.set_defaults"]) Sample.start
    = (Raise (mkExc ImportError "No module named nowhere"), p')
    /\ trace p' = trace Sample.start
                  ++ map (fun u => EvCall Updater (snd u))
                         (invoked_updates (map fst [("lib", "lib.list_opts")]) [] []).
Proof.
  apply (updates_are_imported_before_they_are_matched Sample.runtime
           ["lib:lib.list_opts"] [] "other:nowhere.set_defaults"
           ["lib:lib.set_defaults"] [("lib", "lib.list_opts")] []
           "other" "nowhere.set_defaults").
  - reflexivity.
  - reflexivity.
  - constructor.
  - reflexivity.
  - reflexivity.
Defined.

Lemma Forall2_elem_of_r {A B} (P : A -> B -> Prop) l k y :
  Forall2 P l k -> y ∈ k -> exists x, x ∈ l /\ P x y.
Proof.
  induction 1 as [|x y' l k Hxy Hall IH]; intros Hin; [inversion Hin|].
  apply elem_of_cons in Hin as [->|Hin].
  - exists x. split; [left | exact Hxy].
  - destruct (IH Hin) as (x' & Hx' & HP). exists x'. split; [right; exact Hx' | exact HP].
Qed.

Lemma section_of_group_for (groups : gmap string OptGroup) name :
  (is_default name = false ->
   exists g, groups !! name = Some g /\ og_name g = name) ->
  section_name (section_key (group_for groups name)) = canonical_name name.
Proof.
  unfold group_for, canonical_name. intros Hg.
  destruct (is_default name); [reflexivity|].
  destruct (Hg eq_refl) as (g & -> & Hname). exact Hname.
Qed.

(** What a run of [_list_opts] does when everything resolves. *)
Lemma list_opts_run rt namespaces updates nss ups p :
  map_result parse_identifier namespaces = Ok nss ->
  map_result parse_identifier updates = Ok ups ->
  Forall (fun n => exists f, import_class rt (snd n) = Ok f /\ returns_normally f) nss ->
  Forall (fun u => exists f, import_class rt (snd u) = Ok f
                             /\ (fst u ∈ map fst nss -> returns_normally f)) ups ->
  exists raw p1 p',
    _get_raw_opts_loaders rt namespaces p = (Ok raw, p1)
    /\ _update_defaults rt namespaces updates p1 = (Ok tt, p')
    /\ _list_opts rt namespaces updates p
       = (Ok (_cleanup_opts (w_objs (world p')) raw), p')
    /\ Forall (fun e => exists group opts,
                 snd e = [(group, opts)]
                 /\ section_name (section_key group) = fst e) raw
    /\ map fst raw = map (fun n => canonical_name (fst n)) nss
    /\ trace p1 = trace p ++ loader_events [] nss
    /\ trace p' = trace p1 ++ map (fun u => EvCall Updater (snd u))
                                 (invoked_updates (map fst nss) [] ups)
    /\ world p' = after_hooks rt (invoked_updates (map fst nss) [] ups) (world p1).
Proof.
  intros Hns Hups Hload Hupd.
  destruct (load_namespaces_run rt namespaces nss [] ∅ [] (groups_made p) p Hns Hload
              (memo_ok_empty p) seen_empty)
    as (new & groups & p1 & Hrun & Hall & _ & (Hm1 & _) & Hdom & Htr1 & _).
  destruct (update_defaults_run_world rt namespaces updates nss ups p1 Hns Hups Hupd)
    as (p2 & Hrun2 & Htr2 & Hw2).
  assert (Hraw : _get_raw_opts_loaders rt namespaces p = (Ok new, p1)).
  { unfold _get_raw_opts_loaders. erewrite bind_Ok; [|exact Hrun]. reflexivity. }
  exists new, p1, p2. split; [exact Hraw|]. split; [exact Hrun2|]. split; [|split].
  - unfold _list_opts.
    erewrite bind_Ok; [|exact Hraw].
    erewrite bind_Ok; [|exact Hrun2]. reflexivity.
  - apply Forall_forall. intros e He.
    destruct (Forall2_elem_of_r _ _ _ _ Hall He) as (n & Hn & opts & ->).
    exists (group_for groups (fst n)), opts. split; [reflexivity|]. cbn [fst].
    apply section_of_group_for. intros Hdef.
    destruct (proj2 (Hdom (fst n))) as [g Hg].
    { right. split; [|exact Hdef]. apply (list_elem_of_fmap_2 fst), Hn. }
    exists g. split; [exact Hg|]. apply (Hm1 _ _ Hg).
  - split; [|split; [exact Htr1 | split; [exact Htr2 | exact Hw2]]].
    clear -Hall. induction Hall as [|n e l k (opts & ->) _ IH]; [reflexivity|].
    simpl. rewrite IH. reflexivity.
Qed.

(** X18. In a run of [_list_opts] in which everything resolves, the
    loaders run first and the hooks after them: [_get_raw_opts_loaders]
    returns the raw listing, one entry per namespace in order, having
    called every loader and no hook; from the state it leaves,
    [_update_defaults] returns, having called the first update of each
    requested source, and the world is what these hooks make of the world
    the loaders left; [_list_opts] then returns the raw listing of the
    loaders, cleaned with the option objects as the hooks left them, which
    names each namespace once in the order of first mention. *)
Theorem list_opts_calls_the_loaders_first
    (rt : Runtime) (namespaces updates : list string)
    (nss ups : list (string * string)) (p : Proc) :
  map_result parse_identifier namespaces = Ok nss ->
  map_result parse_identifier updates = Ok ups ->
  Forall (fun n => exists f, import_class rt (snd n) = Ok f /\ returns_normally f) nss ->
  Forall (fun u => exists f, import_class rt (snd u) = Ok f
                             /\ (fst u ∈ map fst nss -> returns_normally f)) ups ->
  exists raw p1 p',
    _get_raw_opts_loaders rt namespaces p = (Ok raw, p1)
    /\ _update_defaults rt namespaces updates p1 = (Ok tt, p')
    /\ _list_opts rt namespaces updates p
       = (Ok (_cleanup_opts (w_objs (world p')) raw), p')
    /\ map fst raw = map (fun n => canonical_name (fst n)) nss
    /\ map fst (_cleanup_opts (w_objs (world p')) raw)
       = first_seen (map (fun n => canonical_name (fst n)) nss)
    /\ trace p1 = trace p ++ loader_events [] nss
    /\ trace p' = trace p1 ++ map (fun u => EvCall Updater (snd u))
                                 (invoked_updates (map fst nss) [] ups)
    /\ world p' = after_hooks rt (invoked_updates (map fst nss) [] ups) (world p1).
Proof.
  intros Hns Hups Hload Hupd.
  destruct (list_opts_run rt namespaces updates nss ups p Hns Hups Hload Hupd)
    as (raw & p1 & p' & Hraw & Hupdate & Hrun & _ & Hnames & Htr1 & Htr2 & Hw).
  exists raw, p1, p'.
  split; [exact Hraw|]. split; [exact Hupdate|]. split; [exact Hrun|].
  split; [exact Hnames|]. split; [|split; [exact Htr1 | split; [exact Htr2 | exact Hw]]].
  unfold _cleanup_opts. rewrite map_map. simpl.
  rewrite <- Hnames. exact (clean_namespaces_keys _ raw).
Qed.

Lemma list_opts_calls_the_loaders_first_witness :
  exists raw p1 p',
    _get_raw_opts_loaders Sample.runtime ["lib:lib.list_opts"] Sample.start
    = (Ok raw, p1)
    /\ _update_defaults Sample.runtime ["lib:lib.list_opts"]
         ["lib:lib.set_defaults"] p1 = (Ok tt, p')
    /\ _list_opts Sample.runtime ["lib:lib.list_opts"] ["lib:lib.set_defaults"]
                  Sample.start
       = (Ok (_cleanup_opts (w_objs (world p')) raw), p')
    /\ trace p1 = [EvNewGroup "lib"; EvCall Loader "lib.list_opts"]
    /\ trace p' = trace p1 ++ [EvCall Updater "lib.set_defaults"]
    /\ w_vars (world p1) !! "DEFAULT_PORT" = Some (VInt 80)
    /\ w_vars (world p') !! "DEFAULT_PORT" = Some (VInt 8080).
Proof.
  destruct (list_opts_calls_the_loaders_first Sample.runtime
              ["lib:lib.list_opts"] ["lib:lib.set_defaults"]
              [("lib", "lib.list_opts")] [("lib", "lib.set_defaults")] Sample.start)
    as (raw & p1 & p' & Hraw & Hupdate & Hrun & _ & _ & Htr1 & Htr2 & Hw).
  - reflexivity.
  - reflexivity.
  - repeat constructor.
    exists (mkPyFunc "lib.list_opts" Sample.lib_list_opts).
    split; [vm_compute; reflexivity | intros w; reflexivity].
  - repeat constructor.
    exists (mkPyFunc "lib.set_defaults" Sample.lib_set_defaults).
    split; [vm_compute; reflexivity | intros _ w; reflexivity].
  - exists raw, p1, p'.
    split; [exact Hraw|]. split; [exact Hupdate|]. split; [exact Hrun|].
    split; [exact Htr1|]. split; [exact Htr2|].
    assert (Hp1 : w_vars (world p1) !! "DEFAULT_PORT" = Some (VInt 80)).
    { vm_compute in Hraw. injection Hraw as _ <-. reflexivity. }
    split; [exact Hp1|].
    rewrite Hw. vm_compute in Hraw. injection Hraw as _ <-.
    vm_compute. reflexivity.
Defined.

(** X19. In the listing that [_list_opts] returns when everything
    resolves, every group stands under the namespace of its own name: the
    section that a group feeds is named like the namespace entry that holds
    the group ('DEFAULT' for the entries without a group object). *)
Theorem list_opts_groups_are_named_after_their_namespace
    (rt : Runtime) (namespaces updates : list string)
    (nss ups : list (string * string)) (p : Proc) :
  map_result parse_identifier namespaces = Ok nss ->
  map_result parse_identifier updates = Ok ups ->
  Forall (fun n => exists f, import_class rt (snd n) = Ok f /\ returns_normally f) nss ->
  Forall (fun u => exists f, import_class rt (snd u) = Ok f
                             /\ (fst u ∈ map fst nss -> returns_normally f)) ups ->
  exists listed p',
    _list_opts rt namespaces updates p = (Ok listed, p')
    /\ forall namespace listing group opts,
         (namespace, listing) ∈ listed -> (group, opts) ∈ listing ->
         section_name (section_key group) = namespace.
Proof.
  intros Hns Hups Hload Hupd.
  destruct (list_opts_run rt namespaces updates nss ups p Hns Hups Hload Hupd)
    as (raw & p1 & p' & _ & _ & Hrun & Hraw & _).
  set (h := w_objs (world p')) in *.
  exists (_cleanup_opts h raw), p'. split; [exact Hrun|].
  intros namespace listing group opts Hns' Hg.
  destruct (cleanup_distinct_keys h raw) as [H1 H2].
  rewrite Forall_forall in H2.
  assert (Hagg : is_Some (aggregated namespace group (_cleanup_opts h raw))).
  { exists opts. unfold aggregated. rewrite (od_get_elem_of _ _ _ H1 Hns'). simpl.
    exact (od_get_elem_of _ _ _ (H2 _ Hns') Hg). }
  rewrite aggregated_cleanup, fmap_is_Some, reg_namespaces_is_Some in Hagg.
  destruct Hagg as [[x Hx]|(listing0 & opts0 & Hin & Hg0)]; [discriminate|].
  rewrite Forall_forall in Hraw.
  destruct (Hraw _ Hin) as (group' & opts' & Hsnd & Hname). cbn [fst snd] in *.
  subst listing0. apply list_elem_of_singleton in Hg0. injection Hg0 as -> _.
  exact Hname.
Qed.

Lemma list_opts_groups_are_named_after_their_namespace_witness :
  exists listed p',
    _list_opts Sample.runtime ["lib:lib.list_opts"] ["lib:lib.set_defaults"]
               Sample.start
    = (Ok listed, p')
    /\ forall namespace listing group opts,
         (namespace, listing) ∈ listed -> (group, opts) ∈ listing ->
         section_name (section_key group) = namespace.
Proof.
  apply (list_opts_groups_are_named_after_their_namespace Sample.runtime
           ["lib:lib.list_opts"] ["lib:lib.set_defaults"]
           [("lib", "lib.list_opts")] [("lib", "lib.set_defaults")] Sample.start).
  - reflexivity.
  - reflexivity.
  - repeat constructor.
    exists (mkPyFunc "lib.list_opts" Sample.lib_list_opts).
    split; [vm_compute; reflexivity | intros w; reflexivity].
  - repeat constructor.
    exists (mkPyFunc "lib.set_defaults" Sample.lib_set_defaults).
    split; [vm_compute; reflexivity | intros _ w; reflexivity].
Defined.

(** ** [generate] *)

Lemma generate_opens rt conf p :
  generate rt conf p
  = (let formatter := mkFormatter (destination conf) (conf_wrap_width conf) in
     listed ← _list_opts rt (conf_opts conf) (conf_updates conf);
     let groups := _get_groups listed in
     '(default_namespaces, groups) ← lift (pop_default groups);
     _output_opts rt formatter (KName "DEFAULT") default_namespaces;;
     for_each (py_sorted _get_group_name groups)
       (fun item =>
          let '(group, namespaces) := item in
          write formatter (nl +:+ nl);;
          _output_opts rt formatter group namespaces)) (opened conf p).
Proof.
  unfold generate.
  erewrite bind_Ok with (a := destination conf) (p' := opened conf p);
    [reflexivity|].
  unfold destination, opened. destruct (opt_truthy (conf_output_file conf));
    reflexivity.
Qed.

(** X20. [generate] opens its destination before it lists the options:
    when the listing raises, [generate] raises the same error with nothing
    written, and an output file named by the configuration has by then been
    created or emptied. *)
Theorem generate_failure_leaves_the_destination_empty
    (rt : Runtime) (conf : Conf) (p : Proc) (e : Exc) (p1 : Proc) :
  _list_opts rt (conf_opts conf) (conf_updates conf) (opened conf p) = (Raise e, p1) ->
  generate rt conf p = (Raise e, p1)
  /\ written (destination conf) p1 = written (destination conf) (opened conf p)
  /\ (forall path, destination conf = File path -> files p1 !! path = Some []).
Proof.
  intros Hlist.
  pose proof (list_opts_quiet rt _ _ _ _ _ Hlist) as Hq.
  split; [|split].
  - rewrite generate_opens. cbv zeta. eapply bind_Raise. exact Hlist.
  - apply same_output_written, Hq.
  - intros path Hpath. destruct Hq as (_ & -> & _).
    unfold destination in Hpath. unfold opened.
    destruct (opt_truthy (conf_output_file conf)); [|discriminate].
    injection Hpath as ->. simpl. apply lookup_insert_eq.
Qed.

Lemma generate_failure_leaves_the_destination_empty_witness :
  exists p1,
    generate Sample.runtime Sample.conf_malformed Sample.with_old_file
    = (Raise (mkExc ValueError "need more than 1 value to unpack"), p1)
    /\ files Sample.with_old_file !! "sample.conf" = Some ["[DEFAULT]" +:+ nl]
    /\ files p1 !! "sample.conf" = Some [].
Proof.
  eexists.
  edestruct (generate_failure_leaves_the_destination_empty Sample.runtime
               Sample.conf_malformed Sample.with_old_file) as (Hgen & _ & Hfile).
  - vm_compute. reflexivity.
  - split; [exact Hgen|]. split; [reflexivity|]. apply Hfile. reflexivity.
Defined.

Lemma get_groups_without_options (conf_ns : Listing) :
  (forall ns listing g opts,
     (ns, listing) ∈ conf_ns -> (g, opts) ∈ listing -> opts = []) ->
  _get_groups conf_ns = [(KName "DEFAULT", [])].
Proof.
  unfold _get_groups. generalize ([(KName "DEFAULT", [])] : Groups).
  induction conf_ns as [|[ns listing] r IH]; intros groups Hall; [reflexivity|].
  cbn [fold_left].
  assert (Hl : fold_left (group_entry ns) listing groups = groups).
  { assert (Hent : forall g opts, (g, opts) ∈ listing -> opts = []).
    { intros g opts Hin. apply (Hall ns listing g opts); [left | exact Hin]. }
    clear -Hent. revert groups.
    induction listing as [|[g opts] t IHt]; intros groups; [reflexivity|].
    cbn [fold_left]. rewrite (Hent g opts) by left. simpl.
    apply IHt. intros g' opts' Hin. apply (Hent g'). right. exact Hin. }
  rewrite Hl. apply IH.
  intros ns' listing' g opts Hin. apply (Hall ns' listing'). right. exact Hin.
Qed.

(** X22. When the listing holds no option at all, be it empty or made of
    groups with empty option lists, [generate] returns and the header of
    the default section is all it writes: a group without options gets no
    section of its own. *)
Theorem generate_without_options
    (rt : Runtime) (conf : Conf) (p : Proc) (listed : Listing) (p1 : Proc) :
  _list_opts rt (conf_opts conf) (conf_updates conf) (opened conf p) = (Ok listed, p1) ->
  (forall ns listing g opts,
     (ns, listing) ∈ listed -> (g, opts) ∈ listing -> opts = []) ->
  exists p2,
    generate rt conf p = (Ok tt, p2)
    /\ written (destination conf) p2
       = written (destination conf) (opened conf p) ++ ["[DEFAULT]" +:+ nl].
Proof.
  intros Hlist Hnone.
  destruct (generate_run rt conf p listed p1 Hlist)
    as (others & p2 & Hpop & _ & Hgen & Hw).
  exists p2. split; [exact Hgen|]. rewrite Hw. f_equal.
  rewrite (get_groups_without_options listed Hnone) in Hpop.
  injection Hpop as <- <-. reflexivity.
Qed.

Lemma generate_without_options_witness :
  exists p2,
    generate Sample.runtime Sample.conf_no_options Sample.start = (Ok tt, p2)
    /\ stdout p2 = ["[DEFAULT]" +:+ nl].
Proof.
  edestruct (generate_without_options Sample.runtime Sample.conf_no_options
               Sample.start [("lib", [(GObj (mkOptGroup 0 "lib" None), [])])])
    as (p2 & Hgen & Hw).
  - vm_compute. reflexivity.
  - intros ns listing g opts Hns Hg.
    apply list_elem_of_singleton in Hns. injection Hns as _ ->.
    apply list_elem_of_singleton in Hg. injection Hg as _ ->. reflexivity.
  - exists p2. split; [exact Hgen | exact Hw].
Defined.
